(** * Pluribus particle canvas: the simulation engine of
      [PluribusParticlesCanvas.tsx]

    A shallow embedding of [createMask] (the mask-driven spawner) and [draw]
    (one animation tick: wave scheduler, collision resolver, force
    accumulator, integrator and activation tracker).

    Numbers.  A JavaScript [number] is modelled as a real number: the
    arithmetic of the engine is read in exact real arithmetic, and rounding,
    infinities and NaN are outside the model (division is meaningful where
    the denominator is not zero).  [Math.sqrt], [Math.cos], [Math.sin],
    [Math.abs], [Math.max], [Math.min] are the functions of the Reals
    library; [Math.floor] is [Int_part]; [Math.hypot] and [Math.atan2] are
    defined from them below.

    Randomness.  [Math.random()] reads the next element of an explicit
    sequence of draws; the code that draws is written in a small state monad
    over the position in that sequence, so that the order and the number of
    draws are those of the source.

    Rendering.  The calls on the 2-D context ([ctx.arc], [ctx.fill], ...)
    do not touch the engine's state and are left out. *)

From Stdlib Require Import Reals Lra Lia List ZArith Bool String Sorted.
Import ListNotations.
Open Scope R_scope.

(** ** Numbers and comparisons *)

Definition Rltb (a b : R) : bool := if Rlt_dec a b then true else false.
Definition Rleb (a b : R) : bool := if Rle_dec a b then true else false.
Definition Reqb (a b : R) : bool := if Req_dec_T a b then true else false.

Definition hypot (a b : R) : R := sqrt (a * a + b * b).

(** [Math.atan2(y, x)]: the angle of the point (x, y), in (-PI, PI]. *)
Definition atan2 (y x : R) : R :=
  if Rlt_dec 0 x then atan (y / x)
  else if Rlt_dec x 0 then
         (if Rle_dec 0 y then atan (y / x) + PI else atan (y / x) - PI)
  else if Rlt_dec 0 y then PI / 2
  else if Rlt_dec y 0 then - (PI / 2)
  else 0.

(** [Math.floor], as a real again. *)
Definition floor (a : R) : R := IZR (Int_part a).

(** ** Randomness: the state monad of the draws *)

Record Rng := { draws : nat -> R; cursor : nat }.

Definition M (A : Type) : Type := Rng -> A * Rng.

Definition ret {A} (a : A) : M A := fun g => (a, g).

Definition bind {A B} (m : M A) (k : A -> M B) : M B :=
  fun g => let (a, g') := m g in k a g'.

Notation "x <- m ;; k" := (bind m (fun x => k))
  (at level 61, m at next level, right associativity).

(** [Math.random()] *)
Definition random : M R :=
  fun g => (draws g (cursor g), {| draws := draws g; cursor := S (cursor g) |}).

(** A [for ... of] loop whose body draws: the accumulator is threaded
    through the elements in order. *)
Fixpoint foldM {A B} (f : B -> A -> M B) (l : list A) (b : B) : M B :=
  match l with
  | [] => ret b
  | a :: l' => b' <- f b a ;; foldM f l' b'
  end.

(** A loop that updates every element of an array in place, in order. *)
Fixpoint mapM {A B} (f : A -> M B) (l : list A) : M (list B) :=
  match l with
  | [] => ret []
  | a :: l' => b <- f a ;; bs <- mapM f l' ;; ret (b :: bs)
  end.

(** ** Data model *)

Record Config := {
  waveSpeed : R;
  waveInterval : R;
  waveThickness : R;
  radialKick : R;
  noiseKick : R;
  returnStrength : R;
  bounceProb : R;
  ambientCount : R;
  repulsionStrength : R;
  repulsionRadius : R;
  paused : bool;
  skipIntro : bool
}.

Record Particle := {
  baseX : R;
  baseY : R;
  x : R;
  y : R;
  vx : R;
  vy : R;
  dist : R;
  angle : R;
  isText : bool;
  activation : R;
  jitterX : R;
  jitterY : R;
  phase : R;
  friction : R;
  mass : R;
  radius : R
}.

(** The fields of [AmbientParticle] carry the prefix [amb_]: a record field
    is a global name here. *)
Record AmbientParticle := {
  amb_baseX : R;
  amb_baseY : R;
  amb_x : R;
  amb_y : R;
  amb_vx : R;
  amb_vy : R;
  amb_friction : R;
  amb_mass : R;
  amb_radius : R
}.

Record Wave := { wave_radius : R }.

(** [mouseRef.current] *)
Record Mouse := { mouse_x : R; mouse_y : R; active : bool }.

(** The variables of the effect's closure that [createMask] and [draw]
    read and write.  [width] and [height] are fixed when the effect runs. *)
Record Engine := {
  width : nat;
  height : nat;
  particles : list Particle;
  ambientParticles : list AmbientParticle;
  waves : list Wave;
  waveOrigin : R * R;
  lastRafTime : R;
  accumulatedTime : R;
  timeSinceLastWave : R
}.

(** ** Constants *)

Definition GRID_SPACING : nat := 3.
Definition TEXT_RADIUS : R := 1.1.
Definition BG_RADIUS : R := 1.0.
Definition TEXT_BASE_ALPHA : R := 1.0.
Definition BG_BASE_ALPHA : R := 0.32.
Definition TEXT_KEEP_PROB : R := 0.85.
Definition BACKGROUND_KEEP_PROB : R := 0.22.
Definition JITTER_AMOUNT : R := 0.5.
Definition ZOOM_START : R := 3.0.
Definition ZOOM_END : R := 1.0.
Definition ANIMATION_DURATION : R := 4800.
Definition MAIN_WAVE_MIN_RADIUS : R := 10.
Definition MAIN_WAVE_FADE_RADIUS : R := 140.
Definition CELL_SIZE : R := 6.
Definition COLLISION_DAMPING : R := 0.85.

Definition easeOutCubic (t : R) : R := 1 - (1 - t) ^ 3.
Definition clamp (v a b : R) : R := Rmax a (Rmin b v).
Definition randRange (lo hi : R) : M R :=
  r <- random ;; ret (lo + r * (hi - lo)).

(** The engine when the effect starts: empty collections, zeroed clocks. *)
Definition initEngine (w h : nat) : Engine :=
  {| width := w; height := h;
     particles := []; ambientParticles := []; waves := [];
     waveOrigin := (0, 0);
     lastRafTime := 0; accumulatedTime := 0; timeSinceLastWave := 0 |}.

(** ** [createMask] *)

(** The values of the counter of [for (let v = 0; v < limit; v += GRID_SPACING)]. *)
Definition gridCoords (limit : nat) : list nat :=
  map (fun k => (GRID_SPACING * k)%nat)
      (seq 0 (Nat.div (limit + (GRID_SPACING - 1)) GRID_SPACING)).

(** The cells of the two nested loops, row by row. *)
Definition gridCells (w h : nat) : list (nat * nat) :=
  flat_map (fun gy => map (fun gx => (gx, gy)) (gridCoords w)) (gridCoords h).

(** [imgData[i + 3]] with [i = (y * off.width + x) * 4]. *)
Definition alphaAt (imgData : nat -> nat) (w gx gy : nat) : nat :=
  imgData (((gy * w + gx) * 4) + 3)%nat.

Definition isTextAlpha (a : nat) : bool := (128 <? a)%nat.

(** The bounding box of the text cells.  [None] stands for the initial
    [minX = minY = Infinity], [maxX = maxY = -Infinity]: the first text
    cell passes the four tests and sets the four bounds. *)
Record BBox := { minX : nat; maxX : nat; minY : nat; maxY : nat }.

Definition bboxStep (imgData : nat -> nat) (w : nat)
    (b : option BBox) (c : nat * nat) : option BBox :=
  let (gx, gy) := c in
  if isTextAlpha (alphaAt imgData w gx gy) then
    match b with
    | None => Some {| minX := gx; maxX := gx; minY := gy; maxY := gy |}
    | Some b =>
        Some {| minX := if (gx <? minX b)%nat then gx else minX b;
                maxX := if (maxX b <? gx)%nat then gx else maxX b;
                minY := if (gy <? minY b)%nat then gy else minY b;
                maxY := if (maxY b <? gy)%nat then gy else maxY b |}
    end
  else b.

Definition scanBBox (imgData : nat -> nat) (w h : nat) : option BBox :=
  fold_left (bboxStep imgData w) (gridCells w h) None.

Definition textCenterX (w : nat) (b : option BBox) : R :=
  match b with
  | None => INR w / 2
  | Some b => (INR (minX b) + INR (maxX b)) / 2
  end.

Definition textCenterY (h : nat) (b : option BBox) : R :=
  match b with
  | None => INR h / 2
  | Some b => (INR (minY b) + INR (maxY b)) / 2
  end.

(** [safeWord = word || " "] *)
Definition safeWord (word : string) : string :=
  match word with EmptyString => " "%string | _ => word end.

(** [Math.max(1, maxX - minX)]; with the infinite initial bounds the
    difference is [-Infinity] and the maximum is 1. *)
Definition totalWidth (b : option BBox) : R :=
  match b with
  | None => 1
  | Some b => Rmax 1 (INR (maxX b) - INR (minX b))
  end.

Definition computeWaveOrigin (word : string) (w h : nat) (b : option BBox)
  : R * R :=
  let numLetters := INR (String.length (safeWord word)) in
  let approxLetterWidth := totalWidth b / Rmax 1 numLetters in
  (match b with
   | None => INR w / 2
   | Some b => INR (minX b) + approxLetterWidth * 0.5
   end,
   textCenterY h b).

(** [Math.max(10, Math.floor(cfg.ambientCount))] *)
Definition approxAmbientTarget (cfg : Config) : Z :=
  Z.max 10 (Int_part (ambientCount cfg)).

(** The body of the second pair of loops, at the cell (gx, gy). *)
Definition spawnCell (imgData : nat -> nat) (w : nat) (target : Z)
    (tcx tcy : R) (origin : R * R)
    (acc : list Particle * list AmbientParticle) (c : nat * nat)
  : M (list Particle * list AmbientParticle) :=
  let (gx, gy) := c in
  let isText := isTextAlpha (alphaAt imgData w gx gy) in
  r <- random ;;
  if (if isText then Rltb TEXT_KEEP_PROB r else Rltb BACKGROUND_KEEP_PROB r)
  then ret acc
  else
    let baseX := INR gx - tcx in
    let baseY := INR gy - tcy in
    jitterX <- (if isText then randRange (-0.2) 0.2
                else randRange (- JITTER_AMOUNT * 3) (JITTER_AMOUNT * 3)) ;;
    jitterY <- (if isText then randRange (-0.2) 0.2
                else randRange (- JITTER_AMOUNT * 3) (JITTER_AMOUNT * 3)) ;;
    let dx := INR gx - fst origin in
    let dy := INR gy - snd origin in
    rphase <- random ;;
    pfriction <- randRange 0.92 0.97 ;;
    pmass <- randRange 0.6 1.4 ;;
    let p := {| baseX := baseX; baseY := baseY;
                x := baseX + jitterX; y := baseY + jitterY;
                vx := 0; vy := 0;
                dist := hypot dx dy; angle := atan2 dy dx;
                isText := isText;
                activation := if isText then 0 else 1;
                jitterX := jitterX; jitterY := jitterY;
                phase := rphase * PI * 2;
                friction := pfriction; mass := pmass;
                radius := TEXT_RADIUS |} in
    let ps := fst acc ++ [p] in
    if negb isText && (Z.of_nat (List.length (snd acc)) <? target)%Z then
      r2 <- random ;;
      if Rltb r2 0.1 then
        afriction <- randRange 0.90 0.96 ;;
        amass <- randRange 0.5 1.5 ;;
        ret (ps, snd acc ++
                 [ {| amb_baseX := baseX; amb_baseY := baseY;
                      amb_x := baseX + jitterX; amb_y := baseY + jitterY;
                      amb_vx := 0; amb_vy := 0;
                      amb_friction := afriction; amb_mass := amass;
                      amb_radius := BG_RADIUS |} ])
      else ret (ps, snd acc)
    else ret (ps, snd acc).

(** One ambient particle of the top-up loop. *)
Definition synthAmbient (w h : nat) : M AmbientParticle :=
  bx <- randRange (- INR w * 0.5) (INR w * 0.5) ;;
  by_ <- randRange (- INR h * 0.5) (INR h * 0.5) ;;
  afriction <- randRange 0.90 0.96 ;;
  amass <- randRange 0.5 1.5 ;;
  ret {| amb_baseX := bx; amb_baseY := by_;
         amb_x := 0; amb_y := 0; amb_vx := 0; amb_vy := 0;
         amb_friction := afriction; amb_mass := amass;
         amb_radius := BG_RADIUS |}.

(** [while (ambientParticles.length < approxAmbientTarget) push(...)], with
    the number of remaining iterations as fuel. *)
Fixpoint topUp (fuel : nat) (w h : nat) (target : Z)
    (amb : list AmbientParticle) : M (list AmbientParticle) :=
  if (Z.of_nat (List.length amb) <? target)%Z then
    match fuel with
    | O => ret amb
    | S fuel' =>
        a <- synthAmbient w h ;;
        topUp fuel' w h target (amb ++ [a])
    end
  else ret amb.

(** The two nested loops that create the mask particles and seed the
    dust (lines 189-242), from the collections of [e]. *)
Definition spawnGrid (cfg : Config) (word : string) (imgData : nat -> nat)
    (e : Engine) : M (list Particle * list AmbientParticle) :=
  let w := width e in
  let h := height e in
  let b := scanBBox imgData w h in
  foldM (spawnCell imgData w (approxAmbientTarget cfg)
           (textCenterX w b) (textCenterY h b) (computeWaveOrigin word w h b))
        (gridCells w h) (particles e, ambientParticles e).

(** [createMask(word)].  [imgData] is the pixel array that the off-screen
    canvas returns for the word; the 2-D context is taken to exist.  The
    function returns early, changing nothing, on an empty canvas. *)
Definition createMask (cfg : Config) (word : string) (imgData : nat -> nat)
    (e : Engine) : M Engine :=
  let w := width e in
  let h := height e in
  if ((w =? 0)%nat || (h =? 0)%nat)%bool then ret e
  else
    let target := approxAmbientTarget cfg in
    acc <- spawnGrid cfg word imgData e ;;
    amb <- topUp (Z.to_nat target) w h target (snd acc) ;;
    ret {| width := w; height := h;
           particles := fst acc; ambientParticles := amb;
           waves := waves e;
           waveOrigin :=
             computeWaveOrigin word w h (scanBBox imgData w h);
           lastRafTime := lastRafTime e;
           accumulatedTime := accumulatedTime e;
           timeSinceLastWave := timeSinceLastWave e |}.

(** ** [draw]: the wave scheduler (lines 284-305) *)

(** [for (const w of waves) w.radius += delta * waveSpeed] *)
Definition advanceWaves (delta speed : R) (ws : list Wave) : list Wave :=
  map (fun w => {| wave_radius := wave_radius w + delta * speed |}) ws.

(** [while (waves.length > 0 && waves[0].radius > maxDist) waves.shift()] *)
Fixpoint dropDead (maxDist : R) (ws : list Wave) : list Wave :=
  match ws with
  | [] => []
  | w :: rest =>
      if Rltb maxDist (wave_radius w) then dropDead maxDist rest else ws
  end.

(** The spawn step: the new wave list and the new [timeSinceLastWave]. *)
Definition spawnWave (delta interval : R) (ws : list Wave) (since : R)
  : list Wave * R :=
  let since' := since + delta in
  if (Nat.eqb (List.length ws) 0 && Rleb delta since')%bool then
    (ws ++ [ {| wave_radius := 0 |} ], 0)
  else if Rltb interval since' then
    (ws ++ [ {| wave_radius := 0 |} ], 0)
  else (ws, since').

Definition maxDist (w h : nat) : R := hypot (INR w) (INR h) + 200.

(** The block guarded by [if (!cfg.paused)]. *)
Definition scheduleWaves (cfg : Config) (delta : R) (w h : nat)
    (ws : list Wave) (since : R) : list Wave * R :=
  spawnWave delta (waveInterval cfg)
    (dropDead (maxDist w h) (advanceWaves delta (waveSpeed cfg) ws)) since.

(** ** [draw]: the collision resolver (lines 333-427) *)

(** The fields that the resolver reads and writes; [Particle] and
    [AmbientParticle] both have them. *)
Record Body := {
  b_x : R; b_y : R; b_vx : R; b_vy : R; b_mass : R; b_radius : R
}.

Definition bodyOfParticle (p : Particle) : Body :=
  {| b_x := x p; b_y := y p; b_vx := vx p; b_vy := vy p;
     b_mass := mass p; b_radius := radius p |}.

Definition bodyOfAmbient (a : AmbientParticle) : Body :=
  {| b_x := amb_x a; b_y := amb_y a; b_vx := amb_vx a; b_vy := amb_vy a;
     b_mass := amb_mass a; b_radius := amb_radius a |}.

(** Writing position and velocity back to the object. *)
Definition putParticle (b : Body) (p : Particle) : Particle :=
  {| baseX := baseX p; baseY := baseY p;
     x := b_x b; y := b_y b; vx := b_vx b; vy := b_vy b;
     dist := dist p; angle := angle p; isText := isText p;
     activation := activation p;
     jitterX := jitterX p; jitterY := jitterY p; phase := phase p;
     friction := friction p; mass := mass p; radius := radius p |}.

Definition putAmbient (b : Body) (a : AmbientParticle) : AmbientParticle :=
  {| amb_baseX := amb_baseX a; amb_baseY := amb_baseY a;
     amb_x := b_x b; amb_y := b_y b; amb_vx := b_vx b; amb_vy := b_vy b;
     amb_friction := amb_friction a; amb_mass := amb_mass a;
     amb_radius := amb_radius a |}.

(** [allParticles = [...particles, ...ambientParticles]] holds references:
    the element of index [i] is [particles[i]] or
    [ambientParticles[i - particles.length]], and a write through it is a
    write to that object. *)
Definition Store : Type := list Particle * list AmbientParticle.

Definition storeSize (st : Store) : nat :=
  (List.length (fst st) + List.length (snd st))%nat.

Fixpoint update {A} (i : nat) (f : A -> A) (l : list A) : list A :=
  match l, i with
  | [], _ => []
  | a :: l', O => f a :: l'
  | a :: l', S i' => a :: update i' f l'
  end.

Definition readBody (st : Store) (i : nat) : option Body :=
  if (i <? List.length (fst st))%nat
  then option_map bodyOfParticle (nth_error (fst st) i)
  else option_map bodyOfAmbient
         (nth_error (snd st) (i - List.length (fst st))).

Definition writeBody (st : Store) (i : nat) (b : Body) : Store :=
  if (i <? List.length (fst st))%nat
  then (update i (putParticle b) (fst st), snd st)
  else (fst st, update (i - List.length (fst st)) (putAmbient b) (snd st)).

(** The grid: the key [`${cellX},${cellY}`] is the pair of the two
    integers, a cell is the array of the indices pushed to it, in order. *)
Definition Key : Type := Z * Z.

Definition key_eqb (a b : Key) : bool :=
  ((fst a =? fst b)%Z && (snd a =? snd b)%Z)%bool.

Definition Grid : Type := list (Key * list nat).

Fixpoint grid_get (g : Grid) (k : Key) : option (list nat) :=
  match g with
  | [] => None
  | (k', l) :: g' => if key_eqb k k' then Some l else grid_get g' k
  end.

(** [if (!grid.has(key)) grid.set(key, []); grid.get(key).push(p)] *)
Fixpoint grid_push (g : Grid) (k : Key) (i : nat) : Grid :=
  match g with
  | [] => [(k, [i])]
  | (k', l) :: g' =>
      if key_eqb k k' then (k', l ++ [i]) :: g'
      else (k', l) :: grid_push g' k i
  end.

Definition cellOf (b : Body) : Key :=
  (Int_part (b_x b / CELL_SIZE), Int_part (b_y b / CELL_SIZE)).

Definition populate (st : Store) : Grid :=
  fold_left
    (fun g i => match readBody st i with
                | Some b => grid_push g (cellOf b) i
                | None => g
                end)
    (seq 0 (storeSize st)) [].

(** The body of the innermost loop for two distinct objects [p1], [p2]:
    the two objects after it. *)
Definition collide (p1 p2 : Body) : Body * Body :=
  let dx := b_x p2 - b_x p1 in
  let dy := b_y p2 - b_y p1 in
  let distSq := dx * dx + dy * dy in
  let minDist := b_radius p1 + b_radius p2 in
  if (Rltb distSq (minDist * minDist) && Rltb 0.001 distSq)%bool then
    let dist := sqrt distSq in
    let overlap := minDist - dist in
    let totalMass := b_mass p1 + b_mass p2 in
    let m1Ratio := b_mass p2 / totalMass in
    let m2Ratio := b_mass p1 / totalMass in
    let nx := dx / dist in
    let ny := dy / dist in
    let separationX := nx * overlap * 0.5 in
    let separationY := ny * overlap * 0.5 in
    let x1 := b_x p1 - separationX * 2 * m1Ratio in
    let y1 := b_y p1 - separationY * 2 * m1Ratio in
    let x2 := b_x p2 + separationX * 2 * m2Ratio in
    let y2 := b_y p2 + separationY * 2 * m2Ratio in
    let v1n := b_vx p1 * nx + b_vy p1 * ny in
    let v2n := b_vx p2 * nx + b_vy p2 * ny in
    if Rltb v1n v2n then
      ({| b_x := x1; b_y := y1; b_vx := b_vx p1; b_vy := b_vy p1;
          b_mass := b_mass p1; b_radius := b_radius p1 |},
       {| b_x := x2; b_y := y2; b_vx := b_vx p2; b_vy := b_vy p2;
          b_mass := b_mass p2; b_radius := b_radius p2 |})
    else
      let m1 := b_mass p1 in
      let m2 := b_mass p2 in
      let v1nFinal := (v1n * (m1 - m2) + 2 * m2 * v2n) / totalMass in
      let v2nFinal := (v2n * (m2 - m1) + 2 * m1 * v1n) / totalMass in
      let dv1n := v1nFinal - v1n in
      let dv2n := v2nFinal - v2n in
      ({| b_x := x1; b_y := y1;
          b_vx := b_vx p1 + dv1n * nx * COLLISION_DAMPING;
          b_vy := b_vy p1 + dv1n * ny * COLLISION_DAMPING;
          b_mass := b_mass p1; b_radius := b_radius p1 |},
       {| b_x := x2; b_y := y2;
          b_vx := b_vx p2 + dv2n * nx * COLLISION_DAMPING;
          b_vy := b_vy p2 + dv2n * ny * COLLISION_DAMPING;
          b_mass := b_mass p2; b_radius := b_radius p2 |})
  else (p1, p2).

(** One iteration of [for (const p2 of cellParticles)], for the objects of
    indices [i] and [j]; [p1 === p2] is the equality of the indices. *)
Definition resolvePair (i : nat) (st : Store) (j : nat) : Store :=
  if (i =? j)%nat then st
  else
    match readBody st i, readBody st j with
    | Some p1, Some p2 =>
        let (p1', p2') := collide p1 p2 in
        writeBody (writeBody st i p1') j p2'
    | _, _ => st
    end.

Definition offsets : list Z := [(-1)%Z; 0%Z; 1%Z].

(** The body of [for (const p1 of allParticles)]: the cell of [p1] is read
    from its current position, the grid is the one built before the loop. *)
Definition resolveParticle (g : Grid) (st : Store) (i : nat) : Store :=
  match readBody st i with
  | None => st
  | Some p1 =>
      let (cellX, cellY) := cellOf p1 in
      fold_left
        (fun st ox =>
           fold_left
             (fun st oy =>
                match grid_get g ((cellX + ox)%Z, (cellY + oy)%Z) with
                | None => st
                | Some cellParticles =>
                    fold_left (resolvePair i) cellParticles st
                end)
             offsets st)
        offsets st
  end.

Definition resolveCollisions (st : Store) : Store :=
  fold_left (resolveParticle (populate st)) (seq 0 (storeSize st)) st.

(** ** [draw]: the force accumulator (lines 430-492) *)

(** The body of [for (const w of waves)] for the particle [p]: the kick
    accumulated so far, [(totalKickX, totalKickY)], after the wave [w]. *)
Definition waveKick (cfg : Config) (time : R) (p : Particle)
    (kick : R * R) (w : Wave) : M (R * R) :=
  let wRadius := wave_radius w in
  let fade :=
    clamp ((wRadius - MAIN_WAVE_MIN_RADIUS) /
           Rmax 1 (MAIN_WAVE_FADE_RADIUS - MAIN_WAVE_MIN_RADIUS)) 0 1 in
  let bandWidthPx := waveThickness cfg in
  let bandDist := Rabs (dist p - wRadius) in
  if Rleb bandWidthPx bandDist then ret kick
  else
    let tBand := 1 - bandDist / bandWidthPx in
    let tBandSmooth := tBand * tBand * (3 - 2 * tBand) in
    let dirX := cos (angle p) in
    let dirY := sin (angle p) in
    let noiseAngle := phase p + time * 0.0007 + wRadius * 0.002 in
    let nx := cos noiseAngle in
    let ny := sin noiseAngle in
    let mix := clamp (noiseKick cfg) 0 1 in
    let kickStrength := radialKick cfg * fade in
    let fx := (dirX * (1 - mix) + nx * mix) * kickStrength * tBandSmooth in
    let fy := (dirY * (1 - mix) + ny * mix) * kickStrength * tBandSmooth in
    let kick1 := (fst kick + fx, snd kick + fy) in
    if isText p then
      r <- random ;;
      if Rltb r (bounceProb cfg * tBand * 0.5) then
        extra <- randRange 0.4 1.0 ;;
        ret (fst kick1 + dirX * extra, snd kick1 + dirY * extra)
      else ret kick1
    else ret kick1.

(** Mouse repulsion on a mask particle (lines 477-492). *)
Definition mouseKick (cfg : Config) (isMouseActive : bool)
    (mouseLocalX mouseLocalY : R) (p : Particle) (kick : R * R) : R * R :=
  if isMouseActive then
    let dx := x p - mouseLocalX in
    let dy := y p - mouseLocalY in
    let d := hypot dx dy in
    if Rltb d (repulsionRadius cfg) then
      let t := 1 - d / repulsionRadius cfg in
      let force := t * t * t * repulsionStrength cfg in
      let a := atan2 dy dx in
      let acc := force / mass p in
      (fst kick + cos a * acc, snd kick + sin a * acc)
    else kick
  else kick.

(** ** [draw]: the integrator (lines 494-508) *)

Definition integrate (cfg : Config) (kick : R * R) (p : Particle) : Particle :=
  let vx1 := vx p + fst kick in
  let vy1 := vy p + snd kick in
  let targetX := baseX p + jitterX p in
  let targetY := baseY p + jitterY p in
  let springAccel := returnStrength cfg / mass p in
  let vx2 := vx1 + (targetX - x p) * springAccel in
  let vy2 := vy1 + (targetY - y p) * springAccel in
  let vx3 := vx2 * friction p in
  let vy3 := vy2 * friction p in
  {| baseX := baseX p; baseY := baseY p;
     x := x p + vx3; y := y p + vy3; vx := vx3; vy := vy3;
     dist := dist p; angle := angle p; isText := isText p;
     activation := activation p;
     jitterX := jitterX p; jitterY := jitterY p; phase := phase p;
     friction := friction p; mass := mass p; radius := radius p |}.

(** ** [draw]: the activation tracker (lines 510-523) *)

Definition revealWidth : R := 140.

(** [revealRadius]: the radius of [waves[0]] minus 40, or 0 without a wave. *)
Definition revealRadiusOf (firstWave : option Wave) : R :=
  match firstWave with
  | Some w => wave_radius w - 40
  | None => 0
  end.

(** The activation of [p] after the tick. *)
Definition reveal (cfg : Config) (firstWave : option Wave) (p : Particle) : R :=
  if isText p then
    if skipIntro cfg then 1
    else
      match firstWave with
      | Some _ =>
          if Rltb (activation p) 1 then
            let d := dist p in
            let bandIn := revealRadiusOf firstWave in
            let bandOut := revealRadiusOf firstWave + revealWidth in
            if Rltb d bandIn then 1
            else if Rltb d bandOut then
              let tReveal := 1 - (d - bandIn) / revealWidth in
              Rmax (activation p) tReveal
            else activation p
          else activation p
      | None => activation p
      end
  else activation p.

Definition setActivation (a : R) (p : Particle) : Particle :=
  {| baseX := baseX p; baseY := baseY p;
     x := x p; y := y p; vx := vx p; vy := vy p;
     dist := dist p; angle := angle p; isText := isText p;
     activation := a;
     jitterX := jitterX p; jitterY := jitterY p; phase := phase p;
     friction := friction p; mass := mass p; radius := radius p |}.

(** The body of [for (const p of particles)] (lines 430-542). *)
Definition stepParticle (cfg : Config) (time : R) (ws : list Wave)
    (isMouseActive : bool) (mouseLocalX mouseLocalY : R) (p : Particle)
  : M Particle :=
  kick <- foldM (waveKick cfg time p) ws (0, 0) ;;
  let kick' := mouseKick cfg isMouseActive mouseLocalX mouseLocalY p kick in
  let p' := integrate cfg kick' p in
  ret (setActivation (reveal cfg (hd_error ws) p') p').

(** ** [draw]: the dust (lines 545-573) *)

Definition stepAmbient (cfg : Config) (isMouseActive : bool)
    (mouseLocalX mouseLocalY : R) (a : AmbientParticle) : M AmbientParticle :=
  r1 <- random ;;
  let x1 := amb_x a + (r1 - 0.5) * 0.1 in
  r2 <- random ;;
  let y1 := amb_y a + (r2 - 0.5) * 0.1 in
  let dx := x1 - mouseLocalX in
  let dy := y1 - mouseLocalY in
  let d := hypot dx dy in
  let pushed := (isMouseActive && Rltb d (repulsionRadius cfg))%bool in
  let t := 1 - d / repulsionRadius cfg in
  let force := t * t * t * repulsionStrength cfg * 0.5 in
  let an := atan2 dy dx in
  let vx1 := if pushed then amb_vx a + cos an * force / amb_mass a
             else amb_vx a in
  let vy1 := if pushed then amb_vy a + sin an * force / amb_mass a
             else amb_vy a in
  let vx2 := vx1 * amb_friction a in
  let vy2 := vy1 * amb_friction a in
  ret {| amb_baseX := amb_baseX a; amb_baseY := amb_baseY a;
         amb_x := x1 + vx2; amb_y := y1 + vy2;
         amb_vx := vx2; amb_vy := vy2;
         amb_friction := amb_friction a; amb_mass := amb_mass a;
         amb_radius := amb_radius a |}.

(** ** [draw] *)

(** The intro zoom (lines 307-311). *)
Definition zoomOf (cfg : Config) (time : R) : R :=
  if skipIntro cfg then 1
  else
    let tNorm := clamp (time / ANIMATION_DURATION) 0 1 in
    ZOOM_START + (ZOOM_END - ZOOM_START) * easeOutCubic tNorm.

(** One tick: [draw(rafTime)] with [configRef.current = cfg] and
    [mouseRef.current = mouse]. *)
Definition draw (cfg : Config) (mouse : Mouse) (rafTime : R) (e : Engine)
  : M Engine :=
  let last := if Reqb (lastRafTime e) 0 then rafTime else lastRafTime e in
  let delta := rafTime - last in
  let time := if paused cfg then accumulatedTime e
              else accumulatedTime e + delta in
  let sched := if paused cfg then (waves e, timeSinceLastWave e)
               else scheduleWaves cfg delta (width e) (height e)
                                  (waves e) (timeSinceLastWave e) in
  let ws := fst sched in
  let zoom := zoomOf cfg time in
  let mouseLocalX := (mouse_x mouse - INR (width e) / 2) / zoom in
  let mouseLocalY := (mouse_y mouse - INR (height e) / 2) / zoom in
  let isMouseActive := active mouse in
  let st := resolveCollisions (particles e, ambientParticles e) in
  ps <- mapM (stepParticle cfg time ws isMouseActive mouseLocalX mouseLocalY)
             (fst st) ;;
  ambs <- mapM (stepAmbient cfg isMouseActive mouseLocalX mouseLocalY)
               (snd st) ;;
  ret {| width := width e; height := height e;
         particles := ps; ambientParticles := ambs;
         waves := ws; waveOrigin := waveOrigin e;
         lastRafTime := rafTime;
         accumulatedTime := time;
         timeSinceLastWave := snd sched |}.

(** A run: the frames that the host schedules, each with the configuration
    and the pointer that it finds. *)
Record Frame := { f_cfg : Config; f_mouse : Mouse; f_rafTime : R }.

Definition drawFrame (e : Engine) (f : Frame) : M Engine :=
  draw (f_cfg f) (f_mouse f) (f_rafTime f) e.

Definition run (frames : list Frame) (e : Engine) : M Engine :=
  foldM drawFrame frames e.

(** ** [draw]: what is painted (lines 525-541 and 569-572) *)

(** A filled disc: [ctx.arc(x, y, radius, 0, 2 * PI)] with the fill style
    [rgba(255, 255, 255, alpha)]. *)
Record Disc := {
  disc_x : R; disc_y : R; disc_radius : R; disc_alpha : R
}.

(** The disc painted for the mask particle [p], as the tick has left it, on
    a canvas of the given width; [None] when nothing is painted for it. *)
Definition paintParticle (width : nat) (p : Particle) : option Disc :=
  if isText p then
    if Rltb 0.01 (activation p) then
      Some {| disc_x := x p; disc_y := y p; disc_radius := radius p;
              disc_alpha := activation p * TEXT_BASE_ALPHA |}
    else None
  else
    let alpha := BG_BASE_ALPHA * (1 - dist p / (INR width * 0.8)) in
    if Rltb 0 alpha then
      Some {| disc_x := x p; disc_y := y p; disc_radius := radius p;
              disc_alpha := Rmax 0 alpha |}
    else None.

(** The disc painted for a dust particle. *)
Definition paintAmbient (a : AmbientParticle) : Disc :=
  {| disc_x := amb_x a; disc_y := amb_y a;
     disc_radius := amb_radius a * 0.8; disc_alpha := 0.15 |}.

(** The discs of a frame, in paint order, from the engine after the tick. *)
Definition painted (e : Engine) : list Disc :=
  flat_map (fun p => match paintParticle (width e) p with
                     | Some d => [d]
                     | None => []
                     end) (particles e)
  ++ map paintAmbient (ambientParticles e).

(** * Definitions used in the statements *)

(** What [createMask] fixes for the particle of the cell (gx, gy), given the
    text centre and the wave origin. *)
Definition spawnedAt (imgData : nat -> nat) (w : nat) (tcx tcy : R)
    (origin : R * R) (c : nat * nat) (p : Particle) : Prop :=
  baseX p = INR (fst c) - tcx /\
  baseY p = INR (snd c) - tcy /\
  x p = baseX p + jitterX p /\
  y p = baseY p + jitterY p /\
  vx p = 0 /\ vy p = 0 /\
  dist p = hypot (INR (fst c) - fst origin) (INR (snd c) - snd origin) /\
  angle p = atan2 (INR (snd c) - snd origin) (INR (fst c) - fst origin) /\
  isText p = isTextAlpha (alphaAt imgData w (fst c) (snd c)) /\
  activation p = (if isText p then 0 else 1) /\
  radius p = TEXT_RADIUS.

(** A dust particle as the top-up loop makes it: at the centre, at rest. *)
Definition atCentre (a : AmbientParticle) : Prop :=
  amb_x a = 0 /\ amb_y a = 0 /\ amb_vx a = 0 /\ amb_vy a = 0.

(** [q] is the object [p] after writes to [x], [y], [vx], [vy] only. *)
Definition movedParticle (p q : Particle) : Prop :=
  exists b, q = putParticle b p.

Definition movedAmbient (a c : AmbientParticle) : Prop :=
  exists b, c = putAmbient b a.

Definition movedStore (st st' : Store) : Prop :=
  Forall2 movedParticle (fst st) (fst st') /\
  Forall2 movedAmbient (snd st) (snd st').

(** The clock and the waves that a tick works with. *)
Definition frameDelta (rafTime : R) (e : Engine) : R :=
  rafTime - (if Reqb (lastRafTime e) 0 then rafTime else lastRafTime e).

Definition frameTime (cfg : Config) (rafTime : R) (e : Engine) : R :=
  if paused cfg then accumulatedTime e
  else accumulatedTime e + frameDelta rafTime e.

Definition frameWaves (cfg : Config) (rafTime : R) (e : Engine) : list Wave :=
  if paused cfg then waves e
  else fst (scheduleWaves cfg (frameDelta rafTime e) (width e) (height e)
              (waves e) (timeSinceLastWave e)).

Definition mouseLocal (cfg : Config) (mouse : Mouse) (rafTime : R)
    (e : Engine) : R * R :=
  ((mouse_x mouse - INR (width e) / 2) / zoomOf cfg (frameTime cfg rafTime e),
   (mouse_y mouse - INR (height e) / 2) / zoomOf cfg (frameTime cfg rafTime e)).

(** The configuration that the component starts with (lines 28-41). *)
Definition defaultConfig : Config :=
  {| waveSpeed := 0.12; waveInterval := 1250; waveThickness := 32;
     radialKick := 0.2; noiseKick := 0.05; returnStrength := 0.040;
     bounceProb := 0.008; ambientCount := 0;
     repulsionStrength := 20.0; repulsionRadius := 4;
     paused := false; skipIntro := true |}.

(** The same after a click on "Pause". *)
Definition pausedConfig : Config :=
  {| waveSpeed := 0.12; waveInterval := 1250; waveThickness := 32;
     radialKick := 0.2; noiseKick := 0.05; returnStrength := 0.040;
     bounceProb := 0.008; ambientCount := 0;
     repulsionStrength := 20.0; repulsionRadius := 4;
     paused := true; skipIntro := true |}.

(** The pointer before any move: [{ x: 0, y: 0, active: false }]. *)
Definition idleMouse : Mouse :=
  {| mouse_x := 0; mouse_y := 0; active := false |}.

Definition zeroDraws : Rng := {| draws := fun _ => 0; cursor := 0 |}.

(** A text particle at rest, 10 px to the right of its home (0, 0). *)
Definition displacedParticle : Particle :=
  {| baseX := 0; baseY := 0; x := 10; y := 0; vx := 0; vy := 0;
     dist := 100; angle := 0; isText := true; activation := 1;
     jitterX := 0; jitterY := 0; phase := 0;
     friction := 0.95; mass := 1; radius := TEXT_RADIUS |}.

(** An 800 x 600 canvas with that particle alone, no wave, some frames
    into the run. *)
Definition displacedEngine : Engine :=
  {| width := 800; height := 600;
     particles := [displacedParticle]; ambientParticles := [];
     waves := []; waveOrigin := (0, 0);
     lastRafTime := 1000; accumulatedTime := 500;
     timeSinceLastWave := 0 |}.

(** The dust particle with its home forgotten. *)
Definition eraseHome (a : AmbientParticle) : AmbientParticle :=
  {| amb_baseX := 0; amb_baseY := 0;
     amb_x := amb_x a; amb_y := amb_y a;
     amb_vx := amb_vx a; amb_vy := amb_vy a;
     amb_friction := amb_friction a; amb_mass := amb_mass a;
     amb_radius := amb_radius a |}.

Definition eraseHomes (e : Engine) : Engine :=
  {| width := width e; height := height e;
     particles := particles e;
     ambientParticles := map eraseHome (ambientParticles e);
     waves := waves e; waveOrigin := waveOrigin e;
     lastRafTime := lastRafTime e;
     accumulatedTime := accumulatedTime e;
     timeSinceLastWave := timeSinceLastWave e |}.

Definition eraseStore (st : Store) : Store :=
  (fst st, map eraseHome (snd st)).

(** The home that [synthAmbient] draws: a point of the canvas extent, from
    two consecutive draws. *)
Definition randomHome (w h : nat) (g : Rng) (a : AmbientParticle) : Prop :=
  exists n,
    amb_baseX a =
      - INR w * 0.5 + draws g n * (INR w * 0.5 - - INR w * 0.5) /\
    amb_baseY a =
      - INR h * 0.5 + draws g (S n) * (INR h * 0.5 - - INR h * 0.5).

(** The wave list as the scheduler keeps it: oldest first, so the radii
    do not increase from the front to the back, and none is negative. *)
Definition wavesOrdered (ws : list Wave) : Prop :=
  StronglySorted (fun a b => wave_radius b <= wave_radius a) ws /\
  Forall (fun w => 0 <= wave_radius w) ws.

(** A wave that the removal loop keeps: its radius does not exceed the
    bound. *)
Definition alive (bound : R) (w : Wave) : bool :=
  negb (Rltb bound (wave_radius w)).

(** The pair passes the overlap test of the resolver (line 377). *)
Definition colliding (p1 p2 : Body) : Prop :=
  let dx := b_x p2 - b_x p1 in
  let dy := b_y p2 - b_y p1 in
  let minDist := b_radius p1 + b_radius p2 in
  dx * dx + dy * dy < minDist * minDist /\ 0.001 < dx * dx + dy * dy.

(** The collision normal: the unit vector from [p1] to [p2]. *)
Definition normalOf (p1 p2 : Body) : R * R :=
  let dx := b_x p2 - b_x p1 in
  let dy := b_y p2 - b_y p1 in
  (dx / sqrt (dx * dx + dy * dy), dy / sqrt (dx * dx + dy * dy)).

(** The component of the velocity of [b] along [n], and across it. *)
Definition normalSpeed (n : R * R) (b : Body) : R :=
  b_vx b * fst n + b_vy b * snd n.

Definition tangentSpeed (n : R * R) (b : Body) : R :=
  b_vy b * fst n - b_vx b * snd n.

(** The 1-D elastic collision of the masses [m1], [m2] moving at [v1],
    [v2], as the textbook gives it: the two velocities after it. *)
Definition elastic1D (m1 m2 v1 v2 : R) : R * R :=
  (((m1 - m2) * v1 + 2 * m2 * v2) / (m1 + m2),
   ((m2 - m1) * v2 + 2 * m1 * v1) / (m1 + m2)).

(** [n] ticks of the integrator with no kick. *)
Definition settle (cfg : Config) (n : nat) (p : Particle) : Particle :=
  Nat.iter n (integrate cfg (0, 0)) p.

Definition targetX (p : Particle) : R := baseX p + jitterX p.
Definition targetY (p : Particle) : R := baseY p + jitterY p.

(** The squared distance to home-plus-jitter, and the squared speed. *)
Definition distSqToTarget (p : Particle) : R :=
  (x p - targetX p) * (x p - targetX p) +
  (y p - targetY p) * (y p - targetY p).

Definition speedSq (p : Particle) : R := vx p * vx p + vy p * vy p.

(** One axis of the integrator with no kick, on the offset [e] from the
    target and the velocity [v]: friction [f], spring rate
    [k = returnStrength / mass]. *)
Definition axisStep (f k : R) (s : R * R) : R * R :=
  let v' := (snd s - fst s * k) * f in
  (fst s + v', v').

(** The coefficient of the recurrence that the offset obeys:
    [e(n+2) = springT * e(n+1) - f * e(n)]. *)
Definition springT (f k : R) : R := 1 + f - f * k.

(** An energy of the axis: a quadratic form in the offset now and the
    offset after the next tick. *)
Definition axisEnergy (f k : R) (s : R * R) : R :=
  let u := fst s in
  let w := fst (axisStep f k s) in
  (1 + f) * (u * u + w * w) - 2 * springT f k * (u * w).

Definition springDelta (f k : R) : R :=
  (1 + f) * (1 + f) - springT f k * springT f k.

Definition springFrob (f k : R) : R :=
  (1 + f) * (1 + f) + springT f k * springT f k +
  (springT f k * f) * (springT f k * f) +
  (springT f k * springT f k - 1 - f) * (springT f k * springT f k - 1 - f).

Definition springKappa (f k : R) : R :=
  (1 - f) * (springDelta f k * springDelta f k) /
  (2 * (1 + f) * springFrob f k).

(** The fraction of the energy that is left after two ticks, at most. *)
Definition decayRate (f k : R) : R := Rmax (1 - springKappa f k) (1 / 2).

(** The least eigenvalue of the energy, as a form in the two offsets. *)
Definition stiffness (f k : R) : R := 1 + f - Rabs (springT f k).

(** The starting configuration with the wave force at 0 and no bounce. *)
Definition quietConfig : Config :=
  {| waveSpeed := 0.12; waveInterval := 1250; waveThickness := 32;
     radialKick := 0; noiseKick := 0.05; returnStrength := 0.040;
     bounceProb := 0; ambientCount := 0;
     repulsionStrength := 20.0; repulsionRadius := 4;
     paused := false; skipIntro := true |}.

(** [n] frames, 16 ms apart, with that configuration and an idle pointer. *)
Definition quietFrames (n : nat) : list Frame :=
  map (fun i => {| f_cfg := quietConfig; f_mouse := idleMouse;
                   f_rafTime := 1000 + 16 * INR i |})
      (seq 1 n).

(** The pointer parked far away: [{ x: 1e6, y: 1e6, active: false }]. *)
Definition farMouse : Mouse :=
  {| mouse_x := 1000000; mouse_y := 1000000; active := false |}.

(** The starting configuration with the intro switched on. *)
Definition introConfig : Config :=
  {| waveSpeed := 0.12; waveInterval := 1250; waveThickness := 32;
     radialKick := 0.2; noiseKick := 0.05; returnStrength := 0.040;
     bounceProb := 0.008; ambientCount := 0;
     repulsionStrength := 20.0; repulsionRadius := 4;
     paused := false; skipIntro := false |}.

(** A text particle as the spawner makes it: at its target, hidden. *)
Definition hiddenParticle : Particle :=
  {| baseX := 30; baseY := 0; x := 30; y := 0; vx := 0; vy := 0;
     dist := 60; angle := 0; isText := true; activation := 0;
     jitterX := 0; jitterY := 0; phase := 0;
     friction := 0.95; mass := 1; radius := TEXT_RADIUS |}.

(** The engine before the first frame, with that particle alone. *)
Definition introEngine : Engine :=
  {| width := 800; height := 600;
     particles := [hiddenParticle]; ambientParticles := [];
     waves := []; waveOrigin := (0, 0);
     lastRafTime := 0; accumulatedTime := 0; timeSinceLastWave := 0 |}.

(** [n] frames of the intro, 16 ms apart. *)
Definition introFrames (n : nat) : list Frame :=
  map (fun i => {| f_cfg := introConfig; f_mouse := idleMouse;
                   f_rafTime := 1000 + 16 * INR i |})
      (seq 0 n).

(** [displacedEngine] with two waves on their way. *)
Definition wavyEngine : Engine :=
  {| width := 800; height := 600;
     particles := [displacedParticle]; ambientParticles := [];
     waves := [ {| wave_radius := 300 |}; {| wave_radius := 150 |} ];
     waveOrigin := (0, 0);
     lastRafTime := 1000; accumulatedTime := 2500;
     timeSinceLastWave := 0 |}.

(** Two text particles of mass 1 that overlap, the left one moving right
    at speed 1, the right one at rest. *)
Definition leftBody : Body :=
  {| b_x := 0; b_y := 0; b_vx := 1; b_vy := 0;
     b_mass := 1; b_radius := 1.1 |}.

Definition rightBody : Body :=
  {| b_x := 1; b_y := 0; b_vx := 0; b_vy := 0;
     b_mass := 1; b_radius := 1.1 |}.

(** The cell [c] is a text cell of the pixel array ([a > 128]). *)
Definition isTextCell (imgData : nat -> nat) (w : nat) (c : nat * nat)
  : bool :=
  isTextAlpha (alphaAt imgData w (fst c) (snd c)).

(** The bound that the draw of a cell is compared with. *)
Definition keepProb (isText : bool) : R :=
  if isText then TEXT_KEEP_PROB else BACKGROUND_KEEP_PROB.

(** ** Definitions used in the further properties *)

(** Every draw is a number of [[0, 1)], as [Math.random()] gives it. *)
Definition unitDraws (g : Rng) : Prop := forall n, 0 <= draws g n < 1.

(** The ranges that the spawner draws the parameters of a mask particle
    from: the jitter by the kind of the cell, the phase, the friction and
    the mass. *)
Definition saneParticle (p : Particle) : Prop :=
  (if isText p
   then -0.2 <= jitterX p <= 0.2 /\ -0.2 <= jitterY p <= 0.2
   else -1.5 <= jitterX p <= 1.5 /\ -1.5 <= jitterY p <= 1.5) /\
  0 <= phase p < 2 * PI /\
  0.92 <= friction p <= 0.97 /\
  0.6 <= mass p <= 1.4.

(** The same for a dust particle. *)
Definition saneAmbient (a : AmbientParticle) : Prop :=
  0.90 <= amb_friction a <= 0.96 /\ 0.5 <= amb_mass a <= 1.5.

(** The cell (gx, gy) is a text cell of the pixel array. *)
Definition textCell (imgData : nat -> nat) (w : nat) (c : nat * nat) : Prop :=
  isTextAlpha (alphaAt imgData w (fst c) (snd c)) = true.

(** The squared distance between the centres of two bodies. *)
Definition centreDistSq (p1 p2 : Body) : R :=
  (b_x p2 - b_x p1) * (b_x p2 - b_x p1) +
  (b_y p2 - b_y p1) * (b_y p2 - b_y p1).

(** Twice the kinetic energy of a pair. *)
Definition pairEnergy (p1 p2 : Body) : R :=
  b_mass p1 * (b_vx p1 * b_vx p1 + b_vy p1 * b_vy p1) +
  b_mass p2 * (b_vx p2 * b_vx p2 + b_vy p2 * b_vy p2).

(** The indices among [idx] of the objects of [st] whose cell is [k]. *)
Definition cellMembers (st : Store) (k : Key) (idx : list nat) : list nat :=
  filter (fun i => match readBody st i with
                   | Some b => key_eqb (cellOf b) k
                   | None => false
                   end) idx.

(** An activation as the engine keeps it: within [[0, 1]], and 1 for a
    background particle. *)
Definition activationOk (p : Particle) : Prop :=
  0 <= activation p <= 1 /\ (isText p = false -> activation p = 1).

(** The fields of a mask particle that only [createMask] writes. *)
Definition sameStatics (p q : Particle) : Prop :=
  baseX q = baseX p /\ baseY q = baseY p /\
  jitterX q = jitterX p /\ jitterY q = jitterY p /\
  dist q = dist p /\ angle q = angle p /\ phase q = phase p /\
  isText q = isText p /\
  friction q = friction p /\ mass q = mass p /\ radius q = radius p.

(** The same for a dust particle. *)
Definition sameAmbientStatics (a c : AmbientParticle) : Prop :=
  amb_baseX c = amb_baseX a /\ amb_baseY c = amb_baseY a /\
  amb_friction c = amb_friction a /\ amb_mass c = amb_mass a /\
  amb_radius c = amb_radius a.

(** A mask particle at its target, at rest. *)
Definition atRest (p : Particle) : Prop :=
  x p = baseX p + jitterX p /\ y p = baseY p + jitterY p /\
  vx p = 0 /\ vy p = 0.

(** [l] is [l'] with some elements left out, the order kept. *)
Inductive subseq {A : Type} : list A -> list A -> Prop :=
| subseq_nil : subseq [] []
| subseq_skip a l l' : subseq l l' -> subseq l (a :: l')
| subseq_keep a l l' : subseq l l' -> subseq (a :: l) (a :: l').

(** What the painter relies on: an activation in range and a distance that
    is not negative. *)
Definition paintable (p : Particle) : Prop :=
  activationOk p /\ 0 <= dist p.

(** A pixel array with nothing drawn on it. *)
Definition blankImage : nat -> nat := fun _ => 0%nat.

(** [displacedParticle] and [hiddenParticle] on one canvas, 20 px apart. *)
Definition apartStore : Store := ([displacedParticle; hiddenParticle], []).

(** A text particle 1 px to the right of [displacedParticle]. *)
Definition crowdingParticle : Particle :=
  {| baseX := 0; baseY := 0; x := 11; y := 0; vx := 0; vy := 0;
     dist := 100; angle := 0; isText := true; activation := 1;
     jitterX := 0; jitterY := 0; phase := 0;
     friction := 0.95; mass := 1; radius := TEXT_RADIUS |}.

Definition crowdedStore : Store := ([displacedParticle; crowdingParticle], []).

(** A dust particle drifting to the right, alone on an 800 x 600 canvas. *)
Definition dustParticle : AmbientParticle :=
  {| amb_baseX := 0; amb_baseY := 0;
     amb_x := 50; amb_y := 40; amb_vx := 1; amb_vy := 0;
     amb_friction := 0.93; amb_mass := 1; amb_radius := BG_RADIUS |}.

Definition dustEngine : Engine :=
  {| width := 800; height := 600;
     particles := []; ambientParticles := [dustParticle];
     waves := []; waveOrigin := (0, 0);
     lastRafTime := 1000; accumulatedTime := 500;
     timeSinceLastWave := 0 |}.

(** A pixel array that is opaque everywhere. *)
Definition solidImage : nat -> nat := fun _ => 255%nat.

(** * Properties *)

(** ** Comparisons *)

Lemma Rltb_true (a b : R) : Rltb a b = true <-> a < b.
Proof. unfold Rltb. destruct (Rlt_dec a b); split; intros; easy. Qed.

Lemma Rltb_false (a b : R) : Rltb a b = false <-> b <= a.
Proof.
  unfold Rltb. destruct (Rlt_dec a b); split; intros; try easy; lra.
Qed.

Lemma Rleb_true (a b : R) : Rleb a b = true <-> a <= b.
Proof. unfold Rleb. destruct (Rle_dec a b); split; intros; easy. Qed.

Lemma Rleb_false (a b : R) : Rleb a b = false <-> b < a.
Proof.
  unfold Rleb. destruct (Rle_dec a b); split; intros; try easy; lra.
Qed.

Lemma Reqb_true (a b : R) : Reqb a b = true <-> a = b.
Proof. unfold Reqb. destruct (Req_dec_T a b); split; intros; easy. Qed.

Lemma Reqb_false (a b : R) : Reqb a b = false <-> a <> b.
Proof. unfold Reqb. destruct (Req_dec_T a b); split; intros; easy. Qed.

(** ** The monad of the draws *)

Lemma foldM_inv {A B} (P : B -> Prop) (f : B -> A -> M B) (l : list A) :
  (forall b a g, In a l -> P b -> P (fst (f b a g))) ->
  forall b g, P b -> P (fst (foldM f l b g)).
Proof.
  induction l as [|a l IH]; intros Hf b g Hb; simpl.
  - exact Hb.
  - unfold bind. specialize (Hf b a g (or_introl eq_refl) Hb) as H1.
    destruct (f b a g) as [b' g']. simpl in H1.
    apply IH; [|exact H1]. intros; apply Hf; [right|]; assumption.
Qed.

Lemma mapM_Forall2 {A B} (Q : A -> B -> Prop) (f : A -> M B) (l : list A) :
  (forall a g, In a l -> Q a (fst (f a g))) ->
  forall g, Forall2 Q l (fst (mapM f l g)).
Proof.
  induction l as [|a l IH]; intros Hf g; simpl.
  - constructor.
  - unfold bind. specialize (Hf a g (or_introl eq_refl)) as H1.
    destruct (f a g) as [b g1]. simpl in H1.
    assert (IH' := IH (fun a g H => Hf a g (or_intror H)) g1).
    destruct (mapM f l g1) as [bs g2]. simpl in *.
    constructor; assumption.
Qed.

(** ** [createMask]: what the spawner fixes *)

Section Spawner.
Variables (imgData : nat -> nat) (w : nat) (target : Z).
Variables (tcx tcy : R) (origin : R * R).

Local Abbreviation cell := (spawnCell imgData w target tcx tcy origin).

(** A cell adds at most one mask particle, with the fields of
    [spawnedAt], and at most one dust particle, of radius [BG_RADIUS]. *)
Lemma spawnCell_spec acc c g :
  let acc' := fst (cell acc c g) in
  (fst acc' = fst acc \/
   exists p, fst acc' = fst acc ++ [p] /\
             spawnedAt imgData w tcx tcy origin c p) /\
  (snd acc' = snd acc \/
   exists a, snd acc' = snd acc ++ [a] /\
             amb_radius a = BG_RADIUS /\
             (Z.of_nat (List.length (snd acc)) < target)%Z).
Proof.
  unfold spawnCell. destruct c as [gx gy]. destruct acc as [ps ambs].
  unfold bind, random, randRange, ret, bind, random. simpl.
  set (t := isTextAlpha (alphaAt imgData w gx gy)).
  destruct t eqn:Ht; simpl.
  - destruct (Rltb TEXT_KEEP_PROB _); simpl; [now split; left|].
    split; [right|left; reflexivity].
    eexists; split; [reflexivity|].
    unfold spawnedAt; simpl; fold t; rewrite Ht; repeat split; reflexivity.
  - destruct (Rltb BACKGROUND_KEEP_PROB _); simpl; [now split; left|].
    destruct (Z.ltb_spec (Z.of_nat (List.length ambs)) target); simpl.
    + destruct (Rltb _ 0.1); simpl.
      * split; right.
        -- eexists; split; [reflexivity|].
           unfold spawnedAt; simpl; fold t; rewrite Ht;
             repeat split; reflexivity.
        -- eexists; split; [reflexivity|]. split; [reflexivity|assumption].
      * split; [right|left; reflexivity].
        eexists; split; [reflexivity|].
        unfold spawnedAt; simpl; fold t; rewrite Ht;
          repeat split; reflexivity.
    + split; [right|left; reflexivity].
      eexists; split; [reflexivity|].
      unfold spawnedAt; simpl; fold t; rewrite Ht;
        repeat split; reflexivity.
Qed.

(** Over the whole grid: every mask particle comes from a cell of the
    grid, and the dust stays within the target. *)
Lemma spawnCells_spec cells acc g :
  Forall (fun p => exists c, In c cells /\
                     spawnedAt imgData w tcx tcy origin c p) (fst acc) ->
  Forall (fun a => amb_radius a = BG_RADIUS) (snd acc) ->
  (Z.of_nat (List.length (snd acc)) <= target)%Z ->
  let acc' := fst (foldM cell cells acc g) in
  Forall (fun p => exists c, In c cells /\
                     spawnedAt imgData w tcx tcy origin c p) (fst acc') /\
  Forall (fun a => amb_radius a = BG_RADIUS) (snd acc') /\
  (Z.of_nat (List.length (snd acc')) <= target)%Z.
Proof.
  intros H1 H2 H3.
  apply (foldM_inv
    (fun acc =>
       Forall (fun p => exists c, In c cells /\
                          spawnedAt imgData w tcx tcy origin c p)
              (fst acc) /\
       Forall (fun a => amb_radius a = BG_RADIUS) (snd acc) /\
       (Z.of_nat (List.length (snd acc)) <= target)%Z)); [|now repeat split].
  clear. intros b c g Hc (H1 & H2 & H3).
  destruct (spawnCell_spec b c g) as [Hp Ha].
  repeat split.
  - destruct Hp as [-> | (p & -> & Hp)]; [assumption|].
    apply Forall_app; split; [assumption|]. constructor; [|constructor].
    now exists c.
  - destruct Ha as [-> | (a & -> & Ha & _)]; [assumption|].
    apply Forall_app; split; [assumption|]. now repeat constructor.
  - destruct Ha as [-> | (a & -> & _ & Hl)]; [assumption|].
    rewrite length_app; simpl. lia.
Qed.
End Spawner.

(** The top-up loop appends dust made by [synthAmbient] until the target
    is met; the fuel [Z.to_nat target] is enough. *)
Lemma topUp_spec (w h : nat) (target : Z) :
  forall fuel amb g,
    (Z.to_nat target - List.length amb <= fuel)%nat ->
    exists synth,
      fst (topUp fuel w h target amb g) = amb ++ synth /\
      Forall atCentre synth /\
      Forall (fun a => amb_radius a = BG_RADIUS) synth /\
      List.length synth = (Z.to_nat target - List.length amb)%nat.
Proof.
  induction fuel as [|fuel IH]; intros amb g Hfuel; simpl.
  - destruct (Z.ltb_spec (Z.of_nat (List.length amb)) target); [lia|].
    exists []. rewrite app_nil_r. simpl. repeat split; try constructor. lia.
  - destruct (Z.ltb_spec (Z.of_nat (List.length amb)) target).
    + unfold bind. destruct (synthAmbient w h g) as [a g1] eqn:Ha.
      destruct (IH (amb ++ [a]) g1) as (synth & E & Hc & Hr & Hl).
      { rewrite length_app; simpl; lia. }
      exists (a :: synth). rewrite E, <- app_assoc. simpl.
      assert (Hs : atCentre a /\ amb_radius a = BG_RADIUS).
      { unfold synthAmbient, bind, randRange, bind, random, ret in Ha.
        simpl in Ha. injection Ha as <- _. now repeat split. }
      repeat split; try (constructor; tauto).
      rewrite length_app in Hl; simpl in *. lia.
    + exists []. rewrite app_nil_r. simpl. repeat split; try constructor. lia.
Qed.

(** [createMask] on a canvas that is not empty, unfolded. *)
Lemma createMask_unfold cfg word imgData e g :
  (0 < width e)%nat -> (0 < height e)%nat ->
  let acc := spawnGrid cfg word imgData e g in
  let target := approxAmbientTarget cfg in
  let amb := topUp (Z.to_nat target) (width e) (height e) target
               (snd (fst acc)) (snd acc) in
  particles (fst (createMask cfg word imgData e g)) = fst (fst acc) /\
  ambientParticles (fst (createMask cfg word imgData e g)) = fst amb.
Proof.
  intros Hw Hh. unfold createMask.
  destruct (Nat.eqb_spec (width e) 0); [lia|].
  destruct (Nat.eqb_spec (height e) 0); [lia|]. simpl.
  unfold bind. destruct (spawnGrid cfg word imgData e g) as [acc g1]. simpl.
  destruct (topUp _ _ _ _ _ g1) as [amb g2]. simpl. split; reflexivity.
Qed.

Lemma spawnGrid_spec cfg word imgData e g :
  particles e = [] -> ambientParticles e = [] ->
  let b := scanBBox imgData (width e) (height e) in
  let acc := fst (spawnGrid cfg word imgData e g) in
  Forall (fun p => exists c,
            In c (gridCells (width e) (height e)) /\
            spawnedAt imgData (width e) (textCenterX (width e) b)
              (textCenterY (height e) b)
              (computeWaveOrigin word (width e) (height e) b) c p)
         (fst acc) /\
  Forall (fun a => amb_radius a = BG_RADIUS) (snd acc) /\
  (Z.of_nat (List.length (snd acc)) <= approxAmbientTarget cfg)%Z.
Proof.
  intros Hp Ha. unfold spawnGrid. rewrite Hp, Ha.
  apply spawnCells_spec; simpl; try constructor.
  unfold approxAmbientTarget. lia.
Qed.

(** ** The collision resolver only writes position and velocity *)

Lemma putParticle_body p : putParticle (bodyOfParticle p) p = p.
Proof. destruct p; reflexivity. Qed.

Lemma putAmbient_body a : putAmbient (bodyOfAmbient a) a = a.
Proof. destruct a; reflexivity. Qed.

Lemma movedParticle_refl p : movedParticle p p.
Proof. exists (bodyOfParticle p). now rewrite putParticle_body. Qed.

Lemma movedAmbient_refl a : movedAmbient a a.
Proof. exists (bodyOfAmbient a). now rewrite putAmbient_body. Qed.

Lemma Forall2_refl {A} (Q : A -> A -> Prop) :
  (forall a, Q a a) -> forall l, Forall2 Q l l.
Proof. intros H l; induction l; constructor; auto. Qed.

Lemma movedStore_refl st : movedStore st st.
Proof.
  split; apply Forall2_refl;
    [apply movedParticle_refl | apply movedAmbient_refl].
Qed.

Lemma Forall2_update {A} (Q : A -> A -> Prop) (f : A -> A) :
  (forall a b, Q a b -> Q a (f b)) ->
  forall l l' i, Forall2 Q l l' -> Forall2 Q l (update i f l').
Proof.
  intros Hf l l' i H. revert i.
  induction H as [|a b l l' Hab H IH]; intros [|i]; simpl;
    constructor; auto.
Qed.

Lemma movedStore_write st0 st i b :
  movedStore st0 st -> movedStore st0 (writeBody st i b).
Proof.
  intros [Hp Ha]. unfold writeBody.
  destruct (i <? List.length (fst st))%nat; split; simpl; try assumption.
  - apply Forall2_update; [|assumption].
    intros p q [b0 ->]. exists b. now destruct p.
  - apply Forall2_update; [|assumption].
    intros a c [b0 ->]. exists b. now destruct a.
Qed.

Lemma fold_left_inv {A B} (P : B -> Prop) (f : B -> A -> B) (l : list A) :
  (forall b a, P b -> P (f b a)) -> forall b, P b -> P (fold_left f l b).
Proof.
  intros Hf. induction l as [|a l IH]; intros b Hb; simpl; auto.
Qed.

Lemma movedStore_resolvePair st0 i st j :
  movedStore st0 st -> movedStore st0 (resolvePair i st j).
Proof.
  intros H. unfold resolvePair.
  destruct (i =? j)%nat; [assumption|].
  destruct (readBody st i); [|assumption].
  destruct (readBody st j); [|assumption].
  destruct (collide b b0). now do 2 apply movedStore_write.
Qed.

Lemma movedStore_resolveParticle st0 g st i :
  movedStore st0 st -> movedStore st0 (resolveParticle g st i).
Proof.
  intros H. unfold resolveParticle.
  destruct (readBody st i); [|assumption].
  destruct (cellOf b) as [cellX cellY].
  apply fold_left_inv; [|assumption]. intros st1 ox H1.
  apply fold_left_inv; [|assumption]. intros st2 oy H2.
  destruct (grid_get g _); [|assumption].
  apply fold_left_inv; [|assumption]. intros st3 j H3.
  now apply movedStore_resolvePair.
Qed.

Lemma movedStore_resolveCollisions st :
  movedStore st (resolveCollisions st).
Proof.
  unfold resolveCollisions.
  apply fold_left_inv; [|apply movedStore_refl].
  intros; now apply movedStore_resolveParticle.
Qed.

(** ** [draw], unfolded *)

Lemma draw_unfold cfg mouse rafTime e g :
  let st := resolveCollisions (particles e, ambientParticles e) in
  let ml := mouseLocal cfg mouse rafTime e in
  let ps := mapM (stepParticle cfg (frameTime cfg rafTime e)
                    (frameWaves cfg rafTime e) (active mouse)
                    (fst ml) (snd ml)) (fst st) g in
  let ambs := mapM (stepAmbient cfg (active mouse) (fst ml) (snd ml))
                   (snd st) (snd ps) in
  let e' := fst (draw cfg mouse rafTime e g) in
  particles e' = fst ps /\
  ambientParticles e' = fst ambs /\
  waves e' = frameWaves cfg rafTime e /\
  accumulatedTime e' = frameTime cfg rafTime e /\
  lastRafTime e' = rafTime /\
  width e' = width e /\ height e' = height e /\
  snd (draw cfg mouse rafTime e g) = snd ambs.
Proof.
  unfold draw, mouseLocal, frameWaves, frameTime, frameDelta.
  destruct (paused cfg);
    cbv beta zeta iota delta [bind ret fst snd];
    repeat match goal with |- context [mapM ?f ?l ?g0] =>
      destruct (mapM f l g0) as [? ?] end;
    repeat split; reflexivity.
Qed.

Lemma reveal_integrate cfg fw kick p :
  reveal cfg fw (integrate cfg kick p) = reveal cfg fw p.
Proof. reflexivity. Qed.

Lemma reveal_putParticle cfg fw b p :
  reveal cfg fw (putParticle b p) = reveal cfg fw p.
Proof. reflexivity. Qed.

Lemma stepParticle_spec cfg time ws act mlx mly p g :
  exists kick,
    fst (stepParticle cfg time ws act mlx mly p g) =
    setActivation (reveal cfg (hd_error ws) p) (integrate cfg kick p).
Proof.
  unfold stepParticle, bind. destruct (foldM _ _ _ g) as [kick g1].
  simpl. eexists. reflexivity.
Qed.

(** Every mask particle after a tick: the object as the resolver left it,
    integrated with some kick, its activation set by [reveal]. *)
Lemma draw_particles_spec cfg mouse rafTime e g :
  Forall2
    (fun p q => exists b kick,
       q = setActivation
             (reveal cfg (hd_error (frameWaves cfg rafTime e)) p)
             (integrate cfg kick (putParticle b p)))
    (particles e) (particles (fst (draw cfg mouse rafTime e g))).
Proof.
  destruct (draw_unfold cfg mouse rafTime e g) as (-> & _).
  destruct (movedStore_resolveCollisions (particles e, ambientParticles e))
    as [Hp _]. simpl in Hp.
  set (f := stepParticle _ _ _ _ _ _).
  assert (H : Forall2
    (fun p q => exists kick,
       q = setActivation
             (reveal cfg (hd_error (frameWaves cfg rafTime e)) p)
             (integrate cfg kick p))
    (fst (resolveCollisions (particles e, ambientParticles e)))
    (fst (mapM f (fst (resolveCollisions (particles e, ambientParticles e)))
            g))).
  { apply mapM_Forall2. intros p g0 _. apply stepParticle_spec. }
  revert H. generalize (fst (mapM f (fst (resolveCollisions
    (particles e, ambientParticles e))) g)).
  revert Hp. generalize (fst (resolveCollisions
    (particles e, ambientParticles e))).
  generalize (particles e). clear.
  intros l l1 H. induction H as [|p p1 l l1 [b ->] H IH]; intros l2 H2;
    inversion H2; subst; constructor.
  - destruct H3 as [kick ->]. exists b, kick.
    now rewrite reveal_putParticle.
  - now apply IH.
Qed.

(** ** Activation *)

Lemma reveal_bounds cfg fw p :
  activation p <= 1 ->
  activation p <= reveal cfg fw p /\ reveal cfg fw p <= 1 /\
  (activation p = 1 -> reveal cfg fw p = 1).
Proof.
  intros Hle. unfold reveal.
  destruct (isText p); [|lra].
  destruct (skipIntro cfg); [lra|].
  destruct fw as [w|]; [|lra].
  destruct (Rltb (activation p) 1) eqn:Hact; [|lra].
  apply Rltb_true in Hact.
  destruct (Rltb (dist p) _) eqn:Hin; [lra|].
  apply Rltb_false in Hin.
  destruct (Rltb (dist p) _) eqn:Hout; [|lra].
  unfold revealWidth in *.
  set (t := 1 - _ / 140).
  assert (Ht : t <= 1) by (unfold t; lra).
  unfold Rmax. destruct (Rle_dec (activation p) t); lra.
Qed.

Lemma Forall2_nth_error {A B} (Q : A -> B -> Prop) l l' :
  Forall2 Q l l' ->
  forall i a, nth_error l i = Some a ->
              exists b, nth_error l' i = Some b /\ Q a b.
Proof.
  induction 1 as [|a0 b0 l l' H0 H IH]; intros [|i] a E; simpl in *;
    try discriminate.
  - injection E as <-. now exists b0.
  - now apply IH.
Qed.

(** One tick, for the particle of index [i]. *)
Lemma draw_activation cfg mouse rafTime e g i p :
  nth_error (particles e) i = Some p ->
  exists q,
    nth_error (particles (fst (draw cfg mouse rafTime e g))) i = Some q /\
    isText q = isText p /\
    activation q = reveal cfg (hd_error (frameWaves cfg rafTime e)) p.
Proof.
  intros E.
  destruct (Forall2_nth_error _ _ _
              (draw_particles_spec cfg mouse rafTime e g) i p E)
    as (q & Eq & b & kick & ->).
  exists (setActivation
            (reveal cfg (hd_error (frameWaves cfg rafTime e)) p)
            (integrate cfg kick (putParticle b p))).
  repeat split. exact Eq.
Qed.

Lemma run_app frames1 frames2 e g :
  run (frames1 ++ frames2) e g =
  run frames2 (fst (run frames1 e g)) (snd (run frames1 e g)).
Proof.
  unfold run. revert e g.
  induction frames1 as [|f frames1 IH]; intros e g; simpl.
  - reflexivity.
  - unfold bind. destruct (drawFrame e f g) as [e1 g1]. apply IH.
Qed.

Lemma run_activation frames :
  forall e g i p,
    nth_error (particles e) i = Some p ->
    isText p = true -> activation p <= 1 ->
    exists q,
      nth_error (particles (fst (run frames e g))) i = Some q /\
      isText q = true /\
      activation p <= activation q /\ activation q <= 1 /\
      (activation p = 1 -> activation q = 1).
Proof.
  induction frames as [|f frames IH]; intros e g i p E Ht Hle.
  - exists p. simpl. repeat split; auto; lra.
  - unfold run; simpl. unfold bind, drawFrame at 1.
    destruct (draw_activation (f_cfg f) (f_mouse f) (f_rafTime f) e g i p E)
      as (q & Eq & Hq & Ha).
    destruct (draw _ _ _ e g) as [e1 g1]. simpl in Eq.
    destruct (reveal_bounds (f_cfg f)
                (hd_error (frameWaves (f_cfg f) (f_rafTime f) e)) p Hle)
      as (H1 & H2 & H3).
    rewrite <- Ha in H1, H2, H3.
    destruct (IH e1 g1 i q Eq) as (q' & Eq' & Hq' & G1 & G2 & G3);
      [congruence | assumption |].
    exists q'. repeat split; auto; try lra.
Qed.

(** C2.  Along a run, whatever the frames bring (configurations with or
    without [skipIntro], pointer samples, times, and so whatever waves are
    spawned and retired), a text particle's activation after more frames is
    never below its activation after fewer, and once it is 1 it is 1 from
    then on.  The activation at the start is at most 1, as the spawner
    makes it. *)
Theorem activation_never_regresses frames1 frames2 e g i p :
  nth_error (particles e) i = Some p ->
  isText p = true ->
  activation p <= 1 ->
  exists q1 q2,
    nth_error (particles (fst (run frames1 e g))) i = Some q1 /\
    nth_error (particles (fst (run (frames1 ++ frames2) e g))) i = Some q2 /\
    activation q1 <= activation q2 /\
    (activation q1 = 1 -> activation q2 = 1).
Proof.
  intros E Ht Hle.
  destruct (run_activation frames1 e g i p E Ht Hle)
    as (q1 & E1 & Ht1 & _ & Hle1 & _).
  rewrite run_app.
  destruct (run_activation frames2 (fst (run frames1 e g))
              (snd (run frames1 e g)) i q1 E1 Ht1 Hle1)
    as (q2 & E2 & _ & Hmono & _ & Hone).
  exists q1, q2. repeat split; assumption.
Qed.

(** The witness: the hidden particle of [introEngine], one frame of the
    intro and then three more. *)
Lemma activation_never_regresses_witness :
  nth_error (particles introEngine) 0 = Some hiddenParticle /\
  isText hiddenParticle = true /\
  activation hiddenParticle <= 1 /\
  exists q1 q2,
    nth_error (particles (fst (run (introFrames 1) introEngine zeroDraws))) 0
      = Some q1 /\
    nth_error
      (particles
         (fst (run (introFrames 1 ++ introFrames 3) introEngine zeroDraws))) 0
      = Some q2 /\
    activation q1 <= activation q2 /\
    (activation q1 = 1 -> activation q2 = 1).
Proof.
  assert (H : activation hiddenParticle <= 1) by (simpl; lra).
  split; [reflexivity|]. split; [reflexivity|]. split; [exact H|].
  exact (activation_never_regresses (introFrames 1) (introFrames 3)
           introEngine zeroDraws 0 hiddenParticle eq_refl eq_refl H).
Defined.

(** ** The pause *)

(** C1, in the form that holds of the code.  When [paused] is set, a tick
    leaves the wave list with its radii, the accumulated simulation time and
    the time since the last wave as they were; it does not freeze the rest:
    the frame clock [lastRafTime] advances, and collision resolution,
    integration, activation and the drift of the dust run as in any tick. *)
Theorem paused_freezes_waves_and_time cfg mouse rafTime e g :
  paused cfg = true ->
  let e' := fst (draw cfg mouse rafTime e g) in
  waves e' = waves e /\
  accumulatedTime e' = accumulatedTime e /\
  timeSinceLastWave e' = timeSinceLastWave e /\
  lastRafTime e' = rafTime.
Proof.
  intros Hp. unfold draw, bind. rewrite Hp.
  cbv beta zeta iota delta [ret fst snd].
  repeat match goal with |- context [mapM ?f ?l ?g0] =>
    destruct (mapM f l g0) as [? ?] end.
  repeat split; reflexivity.
Qed.

(** The witness: the paused starting configuration on [displacedEngine]. *)
Lemma paused_freezes_waves_and_time_witness :
  paused pausedConfig = true /\
  (let e' := fst (draw pausedConfig idleMouse 1016 displacedEngine
                    zeroDraws) in
   waves e' = waves displacedEngine /\
   accumulatedTime e' = accumulatedTime displacedEngine /\
   timeSinceLastWave e' = timeSinceLastWave displacedEngine /\
   lastRafTime e' = 1016).
Proof.
  split; [reflexivity|].
  apply (paused_freezes_waves_and_time pausedConfig idleMouse 1016
           displacedEngine zeroDraws).
  reflexivity.
Defined.

(** ** The pointer *)

(** C5.  With [active = false] the tick does not depend on where the
    pointer is: for the same configuration, time, engine and draws, two
    inactive pointer samples give the same engine (every position and
    velocity, and everything else) and leave the same draws. *)
Theorem inactive_pointer_irrelevant cfg m1 m2 rafTime e g :
  active m1 = false ->
  active m2 = false ->
  draw cfg m1 rafTime e g = draw cfg m2 rafTime e g.
Proof.
  intros H1 H2. unfold draw. rewrite H1, H2. reflexivity.
Qed.

(** The witness: the pointer at (0, 0) and at (1e6, 1e6), inactive. *)
Lemma inactive_pointer_irrelevant_witness :
  active idleMouse = false /\ active farMouse = false /\
  draw defaultConfig idleMouse 1016 displacedEngine zeroDraws =
  draw defaultConfig farMouse 1016 displacedEngine zeroDraws.
Proof.
  split; [reflexivity|]. split; [reflexivity|].
  exact (inactive_pointer_irrelevant defaultConfig idleMouse farMouse 1016
           displacedEngine zeroDraws eq_refl eq_refl).
Defined.

(** ** A particle alone on the canvas *)

Lemma grid_get_lone (k : Key) (l : list nat) (ox oy : Z) :
  grid_get [(k, l)] ((fst k + ox)%Z, (snd k + oy)%Z) =
  if ((ox =? 0)%Z && (oy =? 0)%Z)%bool then Some l else None.
Proof.
  destruct k as [cx cy]. unfold grid_get, key_eqb. cbn [fst snd].
  destruct (Z.eqb_spec (cx + ox) cx), (Z.eqb_spec (cy + oy) cy),
    (Z.eqb_spec ox 0), (Z.eqb_spec oy 0); cbn; try reflexivity; lia.
Qed.

(** With one object in the grid the resolver finds no pair. *)
Lemma resolveCollisions_lone p : resolveCollisions ([p], []) = ([p], []).
Proof.
  unfold resolveCollisions, populate, storeSize. cbn [fst snd List.length
    Nat.add seq fold_left].
  unfold resolveParticle.
  change (readBody ([p], []) 0) with (Some (bodyOfParticle p)).
  cbv iota beta. unfold grid_push.
  pose proof (grid_get_lone (cellOf (bodyOfParticle p)) [0%nat]) as G.
  destruct (cellOf (bodyOfParticle p)) as [cx cy]. cbn [fst snd] in G.
  unfold offsets. cbn [fold_left].
  rewrite !G. cbn [Z.eqb andb fold_left]. unfold resolvePair.
  cbn [Nat.eqb]. reflexivity.
Qed.

(** C1 as stated fails: in a paused tick the spring still pulls the
    displaced particle, from x = 10, vx = 0 to x = 9.62, vx = -0.38. *)
Lemma paused_tick_moves_particle :
  let e' := fst (draw pausedConfig idleMouse 1016 displacedEngine zeroDraws) in
  paused pausedConfig = true /\
  map x (particles displacedEngine) = [10] /\
  map vx (particles displacedEngine) = [0] /\
  map x (particles e') = [9.62] /\
  map vx (particles e') = [-0.38] /\
  particles e' <> particles displacedEngine.
Proof.
  cbv zeta.
  destruct (draw_unfold pausedConfig idleMouse 1016 displacedEngine zeroDraws)
    as (-> & _).
  cbn [particles ambientParticles displacedEngine].
  rewrite resolveCollisions_lone.
  cbn [fst snd mapM]. unfold frameWaves, stepParticle, bind.
  cbn [paused pausedConfig waves displacedEngine foldM ret fst snd map
       active idleMouse mouseKick].
  unfold integrate, setActivation.
  cbn [x y vx vy baseX baseY jitterX jitterY friction mass fst snd
       displacedParticle returnStrength pausedConfig map].
  assert (E1 : 10 + (0 + 0 + (0 + 0 - 10) * (0.040 / 1)) * 0.95 = 9.62)
    by lra.
  assert (E2 : (0 + 0 + (0 + 0 - 10) * (0.040 / 1)) * 0.95 = -0.38) by lra.
  rewrite E1, E2.
  repeat split; try reflexivity.
  intros H. injection H as H _. lra.
Qed.

(** ** The static polar coordinate *)

Lemma createMask_particles cfg word imgData w h g :
  let e0 := fst (createMask cfg word imgData (initEngine w h) g) in
  let b := scanBBox imgData w h in
  Forall (fun p => exists c,
            In c (gridCells w h) /\
            spawnedAt imgData w (textCenterX w b) (textCenterY h b)
              (waveOrigin e0) c p)
         (particles e0).
Proof.
  cbv zeta.
  destruct (Nat.eq_dec w 0) as [->|Hw];
    [unfold createMask; simpl; constructor|].
  destruct (Nat.eq_dec h 0) as [->|Hh].
  { unfold createMask. cbn [width height initEngine].
    rewrite Nat.eqb_refl, orb_true_r. simpl. constructor. }
  destruct (createMask_unfold cfg word imgData (initEngine w h) g)
    as [-> _]; simpl; try lia.
  destruct (spawnGrid_spec cfg word imgData (initEngine w h) g eq_refl eq_refl)
    as (H & _). cbn [width height initEngine] in H.
  replace (waveOrigin (fst (createMask cfg word imgData (initEngine w h) g)))
    with (computeWaveOrigin word w h (scanBBox imgData w h)); [exact H|].
  unfold createMask. cbn [width height initEngine].
  destruct (Nat.eqb_spec w 0); [lia|]. destruct (Nat.eqb_spec h 0); [lia|].
  cbn [orb]. unfold bind.
  destruct (spawnGrid _ _ _ _ g) as [acc g1].
  destruct (topUp _ _ _ _ _ g1) as [amb g2]. reflexivity.
Qed.

(** The spawner leaves every activation at 0 or 1. *)
Lemma createMask_activation cfg word imgData w h g :
  Forall (fun p => 0 <= activation p <= 1)
         (particles (fst (createMask cfg word imgData (initEngine w h) g))).
Proof.
  eapply Forall_impl; [|apply createMask_particles].
  intros p (c & _ & H).
  destruct H as (_ & _ & _ & _ & _ & _ & _ & _ & _ & Ha & _).
  rewrite Ha. destruct (isText p); lra.
Qed.

Lemma draw_keeps_polar cfg mouse rafTime e g :
  Forall2 (fun p q => dist q = dist p /\ angle q = angle p)
          (particles e) (particles (fst (draw cfg mouse rafTime e g))).
Proof.
  eapply Forall2_impl; [|apply draw_particles_spec].
  intros p q (b & kick & ->). split; reflexivity.
Qed.

Lemma run_keeps_polar frames :
  forall e g,
    Forall2 (fun p q => dist q = dist p /\ angle q = angle p)
            (particles e) (particles (fst (run frames e g))).
Proof.
  induction frames as [|f frames IH]; intros e g.
  - simpl. apply Forall2_refl. now split.
  - unfold run; simpl. unfold bind, drawFrame at 1.
    pose proof (draw_keeps_polar (f_cfg f) (f_mouse f) (f_rafTime f) e g)
      as H1.
    destruct (draw _ _ _ e g) as [e1 g1]. simpl in H1.
    specialize (IH e1 g1). unfold run in IH.
    revert H1 IH. generalize (particles (fst (foldM drawFrame frames e1 g1))).
    generalize (particles e1). generalize (particles e). clear.
    intros l l1 l2 H. revert l2.
    induction H as [|p p1 l l1 [Hd Ha] H IH]; intros l2 H2;
      inversion H2; subst; constructor.
    + destruct H3. split; congruence.
    + now apply IH.
Qed.

Lemma subseq_snoc_skip {A} (a : A) l l' :
  subseq l l' -> subseq l (l' ++ [a]).
Proof.
  induction 1; simpl.
  - apply subseq_skip, subseq_nil.
  - now apply subseq_skip.
  - now apply subseq_keep.
Qed.

Lemma subseq_snoc_keep {A} (a : A) l l' :
  subseq l l' -> subseq (l ++ [a]) (l' ++ [a]).
Proof.
  induction 1; simpl.
  - apply subseq_keep, subseq_nil.
  - now apply subseq_skip.
  - now apply subseq_keep.
Qed.

Lemma subseq_length {A} (l l' : list A) :
  subseq l l' -> (List.length l <= List.length l')%nat.
Proof. induction 1; simpl; lia. Qed.

Lemma subseq_In {A} (l l' : list A) :
  subseq l l' -> forall a, In a l -> In a l'.
Proof.
  induction 1; intros b Hb; simpl in *; [easy | right; auto |].
  destruct Hb as [->|Hb]; [now left | right; auto].
Qed.

Lemma subseq_NoDup {A} (l l' : list A) :
  subseq l l' -> NoDup l' -> NoDup l.
Proof.
  induction 1; intros Hn; [constructor | |].
  - inversion Hn; auto.
  - inversion Hn as [|? ? Hni Hn']; subst. constructor; [|auto].
    intros Hin. apply Hni. eapply subseq_In; eassumption.
Qed.

Lemma spawnCells_subseq imgData w target tcx tcy origin cells :
  forall done acc g,
    (exists kept, subseq kept done /\
       Forall2 (spawnedAt imgData w tcx tcy origin) kept (fst acc)) ->
    exists kept, subseq kept (done ++ cells) /\
      Forall2 (spawnedAt imgData w tcx tcy origin) kept
        (fst (fst (foldM (spawnCell imgData w target tcx tcy origin)
                     cells acc g))).
Proof.
  induction cells as [|c cells IH]; intros done acc g (kept & Hs & Hf).
  - exists kept. rewrite app_nil_r. split; assumption.
  - cbn [foldM]. unfold bind.
    destruct (spawnCell_spec imgData w target tcx tcy origin acc c g)
      as [Hp _].
    destruct (spawnCell imgData w target tcx tcy origin acc c g)
      as [acc1 g1]. cbn [fst snd] in Hp |- *.
    replace (done ++ c :: cells) with ((done ++ [c]) ++ cells)
      by (rewrite <- app_assoc; reflexivity).
    apply IH. destruct Hp as [-> | (p & -> & Hp)].
    + exists kept. split; [now apply subseq_snoc_skip | exact Hf].
    + exists (kept ++ [c]). split; [now apply subseq_snoc_keep|].
      apply Forall2_app; [exact Hf|]. constructor; [exact Hp | constructor].
Qed.

Lemma NoDup_map_injective {A B} (f : A -> B) (l : list A) :
  (forall a b, f a = f b -> a = b) -> NoDup l -> NoDup (map f l).
Proof.
  intros Hinj. induction 1 as [|a l Hni Hn IH]; simpl; constructor; [|auto].
  intros Hin. apply in_map_iff in Hin as (b & E & Hb).
  apply Hinj in E. now subst.
Qed.

Lemma gridCoords_NoDup limit : NoDup (gridCoords limit).
Proof.
  unfold gridCoords. apply NoDup_map_injective; [|apply seq_NoDup].
  intros a b H. unfold GRID_SPACING in H. lia.
Qed.

Lemma gridCells_NoDup w h : NoDup (gridCells w h).
Proof.
  unfold gridCells.
  induction (gridCoords_NoDup h) as [|gy l Hni Hn IH]; simpl; [constructor|].
  apply NoDup_app; [| exact IH |].
  - apply NoDup_map_injective; [|apply gridCoords_NoDup].
    intros a b H. now injection H.
  - intros c H1 H2. apply in_map_iff in H1 as (gx & <- & _).
    apply in_flat_map in H2 as (gy' & Hy & H2).
    apply in_map_iff in H2 as (gx' & E & _). injection E as _ ->.
    contradiction.
Qed.

Lemma createMask_waveOrigin cfg word imgData w h g :
  (0 < w)%nat -> (0 < h)%nat ->
  waveOrigin (fst (createMask cfg word imgData (initEngine w h) g)) =
  computeWaveOrigin word w h (scanBBox imgData w h).
Proof.
  intros Hw Hh. unfold createMask. cbn [width height initEngine].
  destruct (Nat.eqb_spec w 0); [lia|]. destruct (Nat.eqb_spec h 0); [lia|].
  cbn [orb]. unfold bind.
  destruct (spawnGrid _ _ _ _ g) as [acc g1].
  destruct (topUp _ _ _ _ _ g1) as [amb g2]. reflexivity.
Qed.

Lemma spawnCell_draws imgData w target tcx tcy origin acc c g :
  draws (snd (spawnCell imgData w target tcx tcy origin acc c g)) = draws g.
Proof.
  unfold spawnCell. destruct c as [gx gy].
  unfold bind, random, randRange, ret, bind, random. simpl.
  destruct (isTextAlpha (alphaAt imgData w gx gy)); simpl.
  - destruct (Rltb TEXT_KEEP_PROB _); reflexivity.
  - destruct (Rltb BACKGROUND_KEEP_PROB _); simpl; [reflexivity|].
    destruct (Z.ltb _ target); simpl; [|reflexivity].
    destruct (Rltb _ 0.1); reflexivity.
Qed.

Lemma foldM_draws {A B} (f : B -> A -> M B) (l : list A) :
  (forall b a g, draws (snd (f b a g)) = draws g) ->
  forall b g, draws (snd (foldM f l b g)) = draws g.
Proof.
  intros Hf. induction l as [|a l IH]; intros b g; simpl; [reflexivity|].
  unfold bind. specialize (Hf b a g). destruct (f b a g) as [b' g'].
  simpl in Hf. now rewrite IH.
Qed.

(** ** The loop body of the spawner, by the draw of the cell *)

(** A cell whose draw does not exceed the bound of its kind gets one
    particle, made from that cell. *)
Lemma spawnCell_keeps imgData w target tcx tcy origin acc c g :
  draws g (cursor g) <= keepProb (isTextCell imgData w c) ->
  exists p,
    fst (fst (spawnCell imgData w target tcx tcy origin acc c g)) =
      fst acc ++ [p] /\
    spawnedAt imgData w tcx tcy origin c p.
Proof.
  unfold isTextCell, keepProb, spawnCell. destruct c as [gx gy].
  cbn [fst snd]. intros Hkeep.
  unfold bind at 1. unfold random at 1.
  destruct (isTextAlpha (alphaAt imgData w gx gy)) eqn:Ht;
    apply Rltb_false in Hkeep; rewrite Hkeep;
    unfold bind, random, randRange, ret, bind, random;
    cbn [fst snd negb andb].
  - eexists. split; [reflexivity|].
    unfold spawnedAt;
      cbn [baseX baseY x y vx vy dist angle isText activation radius
           jitterX jitterY fst snd];
      rewrite Ht; repeat split; reflexivity.
  - destruct (Z.ltb _ target); [destruct (Rltb _ 0.1)|];
      cbn [fst snd]; (eexists; split; [reflexivity|]);
      unfold spawnedAt;
      cbn [baseX baseY x y vx vy dist angle isText activation radius
           jitterX jitterY fst snd];
      rewrite Ht; repeat split; reflexivity.
Qed.

(** A cell whose draw exceeds the bound is skipped: nothing is made for it
    and nothing more is drawn. *)
Lemma spawnCell_skips imgData w target tcx tcy origin acc c g :
  keepProb (isTextCell imgData w c) < draws g (cursor g) ->
  spawnCell imgData w target tcx tcy origin acc c g =
  (acc, {| draws := draws g; cursor := S (cursor g) |}).
Proof.
  unfold isTextCell, keepProb, spawnCell. destruct c as [gx gy].
  cbn [fst snd]. intros Hskip.
  unfold bind at 1. unfold random at 1.
  assert (E : (if isTextAlpha (alphaAt imgData w gx gy)
               then Rltb TEXT_KEEP_PROB (draws g (cursor g))
               else Rltb BACKGROUND_KEEP_PROB (draws g (cursor g))) = true).
  { destruct (isTextAlpha _); now apply Rltb_true. }
  rewrite E. reflexivity.
Qed.

(** With every draw at most the smaller bound, no cell is skipped. *)
Lemma spawnCells_all imgData w target tcx tcy origin cells :
  forall acc g,
    (forall n, draws g n <= BACKGROUND_KEEP_PROB) ->
    exists ps,
      fst (fst (foldM (spawnCell imgData w target tcx tcy origin)
                  cells acc g)) = fst acc ++ ps /\
      Forall2 (spawnedAt imgData w tcx tcy origin) cells ps.
Proof.
  induction cells as [|c cells IH]; intros acc g Hd.
  - exists []. rewrite app_nil_r. split; [reflexivity | constructor].
  - cbn [foldM]. unfold bind.
    assert (Hk : draws g (cursor g) <= keepProb (isTextCell imgData w c)).
    { specialize (Hd (cursor g)). unfold keepProb.
      destruct (isTextCell _ _ _);
        unfold TEXT_KEEP_PROB, BACKGROUND_KEEP_PROB in *; lra. }
    destruct (spawnCell_keeps imgData w target tcx tcy origin acc c g Hk)
      as (p & Ep & Hp).
    pose proof (spawnCell_draws imgData w target tcx tcy origin acc c g)
      as Ed.
    destruct (spawnCell imgData w target tcx tcy origin acc c g)
      as [acc1 g1]. cbn [fst snd] in Ep, Ed.
    destruct (IH acc1 g1) as (ps & E & Hps);
      [intros n; rewrite Ed; apply Hd|].
    exists (p :: ps). rewrite E, Ep, <- app_assoc. split; [reflexivity|].
    constructor; assumption.
Qed.

(** C8.  [createMask] makes the mask particles one each from grid cells,
    in scan order and without repetition, and gives each the fields of
    [spawnedAt] for its own cell: the home is that cell relative to the
    text centre, and [dist] and [angle] are the polar coordinate of the
    same cell about the wave origin.  A cell is kept exactly when its draw
    does not exceed the bound of its kind, so with every draw at most 0.22
    every cell of the grid has its particle.  A tick, and so a run of any
    frames, leaves [dist] and [angle] as they are; and the wave band test
    and kick of the force accumulator ([waveKick]) and the reveal of the
    activation tracker ([reveal]) give the same result whatever the
    particle's live position and velocity are. *)
Theorem polar_coordinate_is_static cfg word imgData w h g :
  (let e0 := fst (createMask cfg word imgData (initEngine w h) g) in
   let b := scanBBox imgData w h in
   let made := spawnedAt imgData w (textCenterX w b) (textCenterY h b)
                 (waveOrigin e0) in
   (exists kept,
      subseq kept (gridCells w h) /\ NoDup kept /\
      Forall2 made kept (particles e0)) /\
   ((forall n, draws g n <= BACKGROUND_KEEP_PROB) ->
    Forall2 made (gridCells w h) (particles e0))) /\
  (forall target tcx tcy origin acc c g',
     let r := spawnCell imgData w target tcx tcy origin acc c g' in
     (draws g' (cursor g') <= keepProb (isTextCell imgData w c) ->
      exists p, fst (fst r) = fst acc ++ [p] /\
                spawnedAt imgData w tcx tcy origin c p) /\
     (keepProb (isTextCell imgData w c) < draws g' (cursor g') ->
      fst r = acc)) /\
  (forall cfg' mouse rafTime e g',
     Forall2 (fun p q => dist q = dist p /\ angle q = angle p)
             (particles e)
             (particles (fst (draw cfg' mouse rafTime e g')))) /\
  (forall frames e g',
     Forall2 (fun p q => dist q = dist p /\ angle q = angle p)
             (particles e) (particles (fst (run frames e g')))) /\
  (forall cfg' time (live : Body) p kick wv fw,
     waveKick cfg' time (putParticle live p) kick wv =
     waveKick cfg' time p kick wv /\
     reveal cfg' fw (putParticle live p) = reveal cfg' fw p).
Proof.
  split; [|split; [|split; [|split]]].
  - cbv zeta.
    destruct (Nat.eq_dec w 0) as [->|Hw].
    { replace (particles (fst (createMask cfg word imgData
                                 (initEngine 0 h) g))) with (@nil Particle)
        by reflexivity.
      assert (Eg : gridCells 0 h = []).
      { unfold gridCells. change (gridCoords 0) with (@nil nat).
        induction (gridCoords h) as [|a l IH]; [reflexivity | exact IH]. }
      rewrite Eg. split; [|intros _; constructor].
      exists []. repeat split; constructor. }
    destruct (Nat.eq_dec h 0) as [->|Hh].
    { replace (particles (fst (createMask cfg word imgData
                                 (initEngine w 0) g))) with (@nil Particle).
      2:{ unfold createMask. cbn [width height initEngine].
          rewrite Nat.eqb_refl, orb_true_r. reflexivity. }
      split; [|intros _; constructor].
      exists []. repeat split; constructor. }
    rewrite (createMask_waveOrigin cfg word imgData w h g) by lia.
    destruct (createMask_unfold cfg word imgData (initEngine w h) g)
      as [-> _]; [simpl; lia | simpl; lia |].
    unfold spawnGrid.
    cbn [width height initEngine particles ambientParticles].
    split.
    + destruct (spawnCells_subseq imgData w (approxAmbientTarget cfg)
                  (textCenterX w (scanBBox imgData w h))
                  (textCenterY h (scanBBox imgData w h))
                  (computeWaveOrigin word w h (scanBBox imgData w h))
                  (gridCells w h) [] ([], []) g) as (kept & Hs & Hf).
      { exists []. split; constructor. }
      cbn [app] in Hs. exists kept. split; [exact Hs|].
      split; [exact (subseq_NoDup _ _ Hs (gridCells_NoDup w h)) | exact Hf].
    + intros Hd.
      destruct (spawnCells_all imgData w (approxAmbientTarget cfg)
                  (textCenterX w (scanBBox imgData w h))
                  (textCenterY h (scanBBox imgData w h))
                  (computeWaveOrigin word w h (scanBBox imgData w h))
                  (gridCells w h) ([], []) g Hd) as (ps & -> & Hps).
      exact Hps.
  - intros target tcx tcy origin acc c g'. cbv zeta. split.
    + apply spawnCell_keeps.
    + intros Hs. now rewrite spawnCell_skips.
  - intros. apply draw_keeps_polar.
  - intros. apply run_keeps_polar.
  - intros. split; reflexivity.
Qed.

(** The witness: a blank 6 x 3 canvas, every draw 0; both cells of the
    grid get their particle. *)
Lemma polar_coordinate_is_static_witness :
  let e0 := fst (createMask defaultConfig "A" blankImage (initEngine 6 3)
                   zeroDraws) in
  let b := scanBBox blankImage 6 3 in
  (forall n, draws zeroDraws n <= BACKGROUND_KEEP_PROB) /\
  Forall2 (spawnedAt blankImage 6 (textCenterX 6 b) (textCenterY 3 b)
             (waveOrigin e0))
          [(0, 0); (3, 0)]%nat (particles e0).
Proof.
  assert (Hd : forall n, draws zeroDraws n <= BACKGROUND_KEEP_PROB).
  { intros n. unfold BACKGROUND_KEEP_PROB. simpl. lra. }
  split; [exact Hd|].
  destruct (polar_coordinate_is_static defaultConfig "A" blankImage 6 3 zeroDraws)
    as [[_ H] _].
  exact (H Hd).
Defined.

(** ** The dust target *)

Lemma Int_part_0 : Int_part 0 = 0%Z.
Proof. symmetry. apply Int_part_spec. simpl. lra. Qed.

(** C9.  At mask build on a canvas that is not empty, the dust target is
    [max(10, floor(ambientCount))] and the engine ends with exactly that
    many dust particles: at least 10, and exactly 10 for the configured
    count 0. *)
Theorem ambient_target_at_least_ten cfg word imgData w h g :
  (0 < w)%nat -> (0 < h)%nat ->
  let e0 := fst (createMask cfg word imgData (initEngine w h) g) in
  approxAmbientTarget cfg = Z.max 10 (Int_part (ambientCount cfg)) /\
  Z.of_nat (List.length (ambientParticles e0)) = approxAmbientTarget cfg /\
  (10 <= List.length (ambientParticles e0))%nat /\
  (ambientCount cfg = 0 -> List.length (ambientParticles e0) = 10%nat).
Proof.
  intros Hw Hh. cbv zeta.
  destruct (createMask_unfold cfg word imgData (initEngine w h) g Hw Hh)
    as [_ ->].
  destruct (spawnGrid_spec cfg word imgData (initEngine w h) g eq_refl eq_refl)
    as (_ & _ & Hlen).
  set (acc := spawnGrid cfg word imgData (initEngine w h) g) in *.
  destruct (topUp_spec (width (initEngine w h)) (height (initEngine w h))
              (approxAmbientTarget cfg) (Z.to_nat (approxAmbientTarget cfg))
              (snd (fst acc)) (snd acc)) as (synth & -> & _ & _ & Hl);
    [lia|].
  rewrite length_app, Hl.
  assert (Ht : (10 <= approxAmbientTarget cfg)%Z)
    by (unfold approxAmbientTarget; lia).
  split; [reflexivity|]. split; [lia|]. split; [lia|].
  intros H0. unfold approxAmbientTarget in *. rewrite H0, Int_part_0 in *.
  lia.
Qed.

(** The witness: the starting configuration on a 800 x 600 canvas. *)
Lemma ambient_target_at_least_ten_witness :
  let e0 := fst (createMask defaultConfig "PLURIBUS" (fun _ => 0%nat)
                   (initEngine 800 600) zeroDraws) in
  approxAmbientTarget defaultConfig =
    Z.max 10 (Int_part (ambientCount defaultConfig)) /\
  Z.of_nat (List.length (ambientParticles e0)) =
    approxAmbientTarget defaultConfig /\
  (10 <= List.length (ambientParticles e0))%nat /\
  (ambientCount defaultConfig = 0 ->
   List.length (ambientParticles e0) = 10%nat).
Proof.
  apply (ambient_target_at_least_ten defaultConfig "PLURIBUS"
           (fun _ => 0%nat) 800 600 zeroDraws); lia.
Defined.

(** ** The homes of the dust *)

Lemma synthAmbient_spec w h g :
  let a := fst (synthAmbient w h g) in
  atCentre a /\ randomHome w h g a /\
  draws (snd (synthAmbient w h g)) = draws g.
Proof.
  unfold synthAmbient, bind, randRange, bind, random, ret. simpl.
  repeat split. exists (cursor g). split; reflexivity.
Qed.

(** The resolver on a store whose dust has no home. *)
Lemma update_map {A} (h f : A -> A) :
  (forall a, f (h a) = h (f a)) ->
  forall l i, update i f (map h l) = map h (update i f l).
Proof.
  intros Hc. induction l as [|a l IH]; intros [|i]; simpl;
    try reflexivity; now rewrite ?Hc, ?IH.
Qed.

Lemma readBody_erase st i : readBody (eraseStore st) i = readBody st i.
Proof.
  unfold readBody, eraseStore. cbn [fst snd].
  destruct (i <? List.length (fst st))%nat; [reflexivity|].
  rewrite nth_error_map.
  now destruct (nth_error (snd st) (i - List.length (fst st))).
Qed.

Lemma writeBody_erase st i b :
  writeBody (eraseStore st) i b = eraseStore (writeBody st i b).
Proof.
  unfold writeBody, eraseStore. cbn [fst snd].
  destruct (i <? List.length (fst st))%nat; cbn [fst snd]; [reflexivity|].
  now rewrite update_map.
Qed.

Lemma fold_left_commute {A B} (h : B -> B) (f : B -> A -> B) (l : list A) :
  (forall b a, f (h b) a = h (f b a)) ->
  forall b, fold_left f l (h b) = h (fold_left f l b).
Proof.
  intros Hc. induction l as [|a l IH]; intros b; simpl;
    [reflexivity | now rewrite Hc, IH].
Qed.

Lemma fold_left_ext {A B} (f f' : B -> A -> B) (l : list A) :
  (forall b a, f b a = f' b a) ->
  forall b, fold_left f l b = fold_left f' l b.
Proof.
  intros He. induction l as [|a l IH]; intros b; simpl;
    [reflexivity | now rewrite He, IH].
Qed.

Lemma storeSize_erase st : storeSize (eraseStore st) = storeSize st.
Proof. unfold storeSize, eraseStore. cbn [fst snd]. now rewrite length_map. Qed.

Lemma populate_erase st : populate (eraseStore st) = populate st.
Proof.
  unfold populate. rewrite storeSize_erase.
  apply fold_left_ext. intros g i. now rewrite readBody_erase.
Qed.

Lemma resolvePair_erase i st j :
  resolvePair i (eraseStore st) j = eraseStore (resolvePair i st j).
Proof.
  unfold resolvePair. destruct (i =? j)%nat; [reflexivity|].
  rewrite !readBody_erase.
  destruct (readBody st i) as [p1|]; [|reflexivity].
  destruct (readBody st j) as [p2|]; [|reflexivity].
  destruct (collide p1 p2) as [p1' p2'].
  now rewrite !writeBody_erase.
Qed.

Lemma resolveParticle_erase g st i :
  resolveParticle g (eraseStore st) i = eraseStore (resolveParticle g st i).
Proof.
  unfold resolveParticle. rewrite readBody_erase.
  destruct (readBody st i) as [p1|]; [|reflexivity].
  destruct (cellOf p1) as [cellX cellY].
  apply fold_left_commute. intros st1 ox.
  apply fold_left_commute. intros st2 oy.
  destruct (grid_get g _); [|reflexivity].
  apply fold_left_commute. intros st3 j. apply resolvePair_erase.
Qed.

Lemma resolveCollisions_erase st :
  resolveCollisions (eraseStore st) = eraseStore (resolveCollisions st).
Proof.
  unfold resolveCollisions. rewrite populate_erase, storeSize_erase.
  apply fold_left_commute. intros; apply resolveParticle_erase.
Qed.

Lemma stepAmbients_erase cfg act mlx mly l :
  forall g,
    mapM (stepAmbient cfg act mlx mly) (map eraseHome l) g =
    (map eraseHome (fst (mapM (stepAmbient cfg act mlx mly) l g)),
     snd (mapM (stepAmbient cfg act mlx mly) l g)).
Proof.
  induction l as [|a l IH]; intros g; [reflexivity|].
  cbn [map mapM]. unfold bind at 1 3 5.
  change (stepAmbient cfg act mlx mly (eraseHome a) g)
    with (eraseHome (fst (stepAmbient cfg act mlx mly a g)),
          snd (stepAmbient cfg act mlx mly a g)).
  destruct (stepAmbient cfg act mlx mly a g) as [a' g1]. cbn [fst snd].
  unfold bind. rewrite IH.
  destruct (mapM _ l g1) as [l' g2]. reflexivity.
Qed.

(** A tick commutes with forgetting the homes of the dust. *)
Lemma draw_eraseHomes cfg mouse rafTime e g :
  draw cfg mouse rafTime (eraseHomes e) g =
  (eraseHomes (fst (draw cfg mouse rafTime e g)),
   snd (draw cfg mouse rafTime e g)).
Proof.
  unfold draw.
  cbn [eraseHomes particles ambientParticles width height waves waveOrigin
       lastRafTime accumulatedTime timeSinceLastWave].
  change (particles e, map eraseHome (ambientParticles e))
    with (eraseStore (particles e, ambientParticles e)).
  rewrite resolveCollisions_erase. unfold eraseStore. cbn [fst snd].
  unfold bind.
  match goal with |- context [mapM ?f ?l g] =>
    destruct (mapM f l g) as [ps g1] end.
  rewrite stepAmbients_erase.
  match goal with |- context [mapM ?f ?l g1] =>
    destruct (mapM f l g1) as [ambs g2] end.
  reflexivity.
Qed.

(** The dust that the grid seeds: at most one for each background cell. *)
Lemma spawnCell_dust imgData w target tcx tcy origin acc c g :
  let acc' := fst (spawnCell imgData w target tcx tcy origin acc c g) in
  (List.length (snd acc') <=
   List.length (snd acc) + (if isTextCell imgData w c then 0 else 1))%nat.
Proof.
  unfold isTextCell, spawnCell. destruct c as [gx gy].
  unfold bind, random, randRange, ret, bind, random. cbn [fst snd].
  destruct (isTextAlpha (alphaAt imgData w gx gy)); cbn [negb andb].
  - destruct (Rltb TEXT_KEEP_PROB _); cbn [fst snd]; lia.
  - destruct (Rltb BACKGROUND_KEEP_PROB _); cbn [fst snd]; [lia|].
    destruct (Z.ltb _ target); cbn [fst snd]; [|lia].
    destruct (Rltb _ 0.1); cbn [fst snd]; [|lia].
    rewrite length_app. cbn [List.length]. lia.
Qed.

Lemma spawnCells_dust imgData w target tcx tcy origin cells :
  forall acc g,
    (List.length (snd (fst (foldM (spawnCell imgData w target tcx tcy origin)
                              cells acc g))) <=
     List.length (snd acc) +
     List.length (filter (fun c => negb (isTextCell imgData w c)) cells))%nat.
Proof.
  induction cells as [|c cells IH]; intros acc g; [simpl; lia|].
  cbn [foldM filter]. unfold bind.
  pose proof (spawnCell_dust imgData w target tcx tcy origin acc c g) as H.
  cbv zeta in H.
  destruct (spawnCell imgData w target tcx tcy origin acc c g) as [acc1 g1].
  cbn [fst snd] in H. specialize (IH acc1 g1).
  destruct (isTextCell imgData w c); cbn [negb List.length] in *; lia.
Qed.

(** The top-up loop: what it appends, and how many. *)
Lemma topUp_count (w h : nat) (target : Z) :
  forall fuel amb g,
    (Z.to_nat target - List.length amb <= fuel)%nat ->
    exists synth,
      fst (topUp fuel w h target amb g) = amb ++ synth /\
      List.length synth = (Z.to_nat target - List.length amb)%nat /\
      Forall (fun a => atCentre a /\ randomHome w h g a) synth.
Proof.
  induction fuel as [|fuel IH]; intros amb g Hfuel; simpl.
  - destruct (Z.ltb_spec (Z.of_nat (List.length amb)) target); [lia|].
    exists []. rewrite app_nil_r. simpl.
    split; [reflexivity|]. split; [lia | constructor].
  - destruct (Z.ltb_spec (Z.of_nat (List.length amb)) target).
    + unfold bind.
      destruct (synthAmbient_spec w h g) as (Hc & Hr & Hd).
      destruct (synthAmbient w h g) as [a g1]. cbn [fst snd] in Hc, Hr, Hd.
      destruct (IH (amb ++ [a]) g1) as (synth & E & Hl & Hs).
      { rewrite length_app; simpl; lia. }
      exists (a :: synth). rewrite E, <- app_assoc.
      split; [reflexivity|]. split.
      * rewrite length_app in Hl. cbn [List.length] in *. lia.
      * constructor; [now split|].
        eapply Forall_impl; [|exact Hs]. intros a0 [Hc0 (n & H1 & H2)].
        split; [exact Hc0|]. exists n. now rewrite <- Hd.
    + exists []. rewrite app_nil_r. simpl.
      split; [reflexivity|]. split; [lia | constructor].
Qed.

(** C10.  At mask build, the dust is the dust seeded by the grid (at most
    one for each background cell) followed by what the top-up loop adds:
    exactly as many as are missing from the target, each created at
    (0, 0), at rest, while its home is a random point of the canvas extent;
    the same holds of the top-up loop from any list of dust.  And a tick
    never reads the home of a dust particle: two engines that differ only
    in the homes of their dust give, for the same inputs and draws, engines
    that differ only in those homes, and leave the same draws. *)
Theorem dust_home_is_never_read cfg word imgData w h g :
  (0 < w)%nat -> (0 < h)%nat ->
  (let e0 := fst (createMask cfg word imgData (initEngine w h) g) in
   let seeded := snd (fst (spawnGrid cfg word imgData (initEngine w h) g)) in
   exists synth,
     ambientParticles e0 = seeded ++ synth /\
     List.length synth =
       (Z.to_nat (approxAmbientTarget cfg) - List.length seeded)%nat /\
     (List.length seeded <=
      List.length (filter (fun c => negb (isTextCell imgData w c))
                     (gridCells w h)))%nat /\
     Forall (fun a => atCentre a /\ randomHome w h g a) synth) /\
  (forall fuel amb g',
     (Z.to_nat (approxAmbientTarget cfg) - List.length amb <= fuel)%nat ->
     exists synth,
       fst (topUp fuel w h (approxAmbientTarget cfg) amb g') = amb ++ synth /\
       List.length synth =
         (Z.to_nat (approxAmbientTarget cfg) - List.length amb)%nat /\
       Forall (fun a => atCentre a /\ randomHome w h g' a) synth) /\
  (forall cfg' mouse rafTime e1 e2 g',
     eraseHomes e1 = eraseHomes e2 ->
     eraseHomes (fst (draw cfg' mouse rafTime e1 g')) =
       eraseHomes (fst (draw cfg' mouse rafTime e2 g')) /\
     snd (draw cfg' mouse rafTime e1 g') =
       snd (draw cfg' mouse rafTime e2 g')).
Proof.
  intros Hw Hh. split; [|split].
  - cbv zeta.
    destruct (createMask_unfold cfg word imgData (initEngine w h) g Hw Hh)
      as [_ ->].
    destruct (spawnGrid_spec cfg word imgData (initEngine w h) g
                eq_refl eq_refl) as (_ & _ & Hlen).
    assert (Hd : draws (snd (spawnGrid cfg word imgData (initEngine w h) g))
                 = draws g).
    { unfold spawnGrid. apply foldM_draws. intros.
      apply spawnCell_draws. }
    assert (Hseed :
      (List.length
         (snd (fst (spawnGrid cfg word imgData (initEngine w h) g))) <=
       List.length (filter (fun c => negb (isTextCell imgData w c))
                      (gridCells w h)))%nat).
    { unfold spawnGrid.
      cbn [width height initEngine particles ambientParticles].
      exact (spawnCells_dust imgData w _ _ _ _ (gridCells w h) ([], []) g). }
    set (acc := spawnGrid cfg word imgData (initEngine w h) g) in *.
    destruct (topUp_count (width (initEngine w h)) (height (initEngine w h))
                (approxAmbientTarget cfg)
                (Z.to_nat (approxAmbientTarget cfg))
                (snd (fst acc)) (snd acc)) as (synth & -> & Hl & Hs); [lia|].
    exists synth. split; [reflexivity|]. split; [exact Hl|].
    split; [exact Hseed|].
    eapply Forall_impl; [|exact Hs]. intros a [Hc (n & H1 & H2)].
    split; [assumption|]. exists n. cbn [width height initEngine] in *.
    now rewrite <- Hd.
  - intros fuel amb g' Hf. now apply topUp_count.
  - intros cfg' mouse rafTime e1 e2 g' He.
    assert (H : draw cfg' mouse rafTime (eraseHomes e1) g' =
                draw cfg' mouse rafTime (eraseHomes e2) g')
      by (f_equal; exact He).
    rewrite !draw_eraseHomes in H.
    split; [exact (f_equal fst H) | exact (f_equal snd H)].
Qed.

(** The witness: a 6 x 3 canvas that is text everywhere, so no dust is
    seeded and all ten dust particles come from the top-up loop. *)
Lemma dust_home_is_never_read_witness :
  let e0 := fst (createMask defaultConfig "A" solidImage (initEngine 6 3)
                   zeroDraws) in
  exists a synth,
    ambientParticles e0 = a :: synth /\
    List.length (a :: synth) = 10%nat /\
    Forall (fun a => atCentre a /\ randomHome 6 3 zeroDraws a) (a :: synth).
Proof.
  cbv zeta.
  destruct (dust_home_is_never_read defaultConfig "A" solidImage 6 3 zeroDraws)
    as [(synth & E & Hl & Hseed & Hs) _]; [lia | lia |].
  cbn [filter gridCells] in Hseed.
  assert (E0 : snd (fst (spawnGrid defaultConfig "A" solidImage
                           (initEngine 6 3) zeroDraws)) = []).
  { destruct (snd (fst (spawnGrid defaultConfig "A" solidImage
                          (initEngine 6 3) zeroDraws)));
      [reflexivity | simpl in Hseed; lia]. }
  rewrite E0 in E, Hl. cbn [app List.length] in E, Hl.
  assert (Ht : Z.to_nat (approxAmbientTarget defaultConfig) = 10%nat).
  { unfold approxAmbientTarget. cbn [ambientCount defaultConfig].
    rewrite Int_part_0. reflexivity. }
  rewrite Ht in Hl.
  destruct synth as [|a synth]; [discriminate|].
  exists a, synth. split; [exact E|]. split; [exact Hl | exact Hs].
Defined.

(** ** The collision radius of a background particle *)

(** A background cell that passes the keep test yields a mask particle
    with [isText = false] and the radius [TEXT_RADIUS]. *)
Lemma spawnCell_background imgData w target tcx tcy origin acc c g :
  isTextAlpha (alphaAt imgData w (fst c) (snd c)) = false ->
  draws g (cursor g) <= BACKGROUND_KEEP_PROB ->
  exists p,
    fst (fst (spawnCell imgData w target tcx tcy origin acc c g)) =
      fst acc ++ [p] /\
    isText p = false /\ radius p = TEXT_RADIUS.
Proof.
  intros Hbg Hkeep. unfold spawnCell. destruct c as [gx gy].
  cbn [fst snd] in Hbg. rewrite Hbg.
  unfold bind at 1. unfold random at 1.
  apply Rltb_false in Hkeep. rewrite Hkeep.
  unfold bind, random, randRange, ret, bind, random. cbn [fst snd negb andb].
  destruct (Z.ltb _ target); [destruct (Rltb _ 0.1)|];
    cbn [fst snd]; eexists; repeat split; reflexivity.
Qed.

(** C3 at a failing input: a 1 x 1 canvas without a text pixel, every draw
    0.  The only cell is a background cell, it passes the keep test, and its
    mask particle gets [TEXT_RADIUS] = 1.1, not [BG_RADIUS] = 1.0; the dust
    made in the same call gets [BG_RADIUS]. *)
Theorem background_particle_gets_text_radius :
  let e0 := fst (createMask defaultConfig "A" (fun _ => 0%nat)
                   (initEngine 1 1) zeroDraws) in
  map isText (particles e0) = [false] /\
  map radius (particles e0) = [TEXT_RADIUS] /\
  Forall (fun a => amb_radius a = BG_RADIUS) (ambientParticles e0) /\
  TEXT_RADIUS = 1.1 /\ BG_RADIUS = 1.0 /\ TEXT_RADIUS <> BG_RADIUS.
Proof.
  cbv zeta.
  assert (H1 : (0 < 1)%nat) by lia.
  destruct (createMask_unfold defaultConfig "A" (fun _ => 0%nat)
              (initEngine 1 1) zeroDraws H1 H1) as [-> ->].
  destruct (spawnGrid_spec defaultConfig "A" (fun _ => 0%nat)
              (initEngine 1 1) zeroDraws eq_refl eq_refl) as (_ & Hr & Hlen).
  assert (Hp : exists p,
             fst (fst (spawnGrid defaultConfig "A" (fun _ => 0%nat)
                         (initEngine 1 1) zeroDraws)) = [p] /\
             isText p = false /\ radius p = TEXT_RADIUS).
  { unfold spawnGrid.
    change (gridCells (width (initEngine 1 1)) (height (initEngine 1 1)))
      with [(0%nat, 0%nat)].
    cbn [foldM particles ambientParticles initEngine width height].
    unfold bind at 1.
    match goal with |- context [spawnCell ?i ?w ?t ?cx ?cy ?o ?a ?c ?g] =>
      destruct (spawnCell_background i w t cx cy o a c g)
        as (p & Hp & Ht & Hrad);
      [reflexivity | cbn; unfold BACKGROUND_KEEP_PROB; lra |];
      destruct (spawnCell i w t cx cy o a c g) as [acc1 g1]
    end.
    exists p. cbn [fst snd ret] in *. now rewrite Hp. }
  set (acc := spawnGrid defaultConfig "A" (fun _ => 0%nat)
                (initEngine 1 1) zeroDraws) in *.
  destruct (topUp_spec (width (initEngine 1 1)) (height (initEngine 1 1))
              (approxAmbientTarget defaultConfig)
              (Z.to_nat (approxAmbientTarget defaultConfig))
              (snd (fst acc)) (snd acc)) as (synth & -> & _ & Hs & _);
    [lia|].
  destruct Hp as (p & -> & Ht & Hrad). cbn [map]. rewrite Ht, Hrad.
  repeat split.
  - apply Forall_app; split; assumption.
  - unfold TEXT_RADIUS, BG_RADIUS. lra.
Qed.

(** ** The wave scheduler *)

Lemma wavesOrdered_nil : wavesOrdered [].
Proof. split; constructor. Qed.

Lemma advanceWaves_ordered delta speed ws :
  0 <= delta * speed ->
  wavesOrdered ws -> wavesOrdered (advanceWaves delta speed ws).
Proof.
  intros Hd [Hs Hn]. split.
  - induction Hs as [|w ws Hs IH Hw]; simpl; constructor.
    + apply IH. now inversion Hn.
    + apply Forall_map. eapply Forall_impl; [|exact Hw].
      simpl. intros; lra.
  - apply Forall_map. eapply Forall_impl; [|exact Hn]. simpl. intros; lra.
Qed.

(** On an ordered list the removal loop, which only looks at the front,
    removes exactly the waves beyond the bound. *)
Lemma dropDead_filter bound ws :
  wavesOrdered ws -> dropDead bound ws = filter (alive bound) ws.
Proof.
  intros [Hs _]. induction Hs as [|w ws Hs IH Hw]; [reflexivity|].
  simpl. unfold alive at 1. destruct (Rltb bound (wave_radius w)) eqn:E; simpl.
  - exact IH.
  - f_equal. apply Rltb_false in E. symmetry. apply forallb_filter_id.
    apply forallb_forall. intros w' Hin.
    rewrite Forall_forall in Hw. specialize (Hw w' Hin). unfold alive.
    apply negb_true_iff, Rltb_false. lra.
Qed.

Lemma filter_ordered (f : Wave -> bool) ws :
  wavesOrdered ws -> wavesOrdered (filter f ws).
Proof.
  intros [Hs Hn]. split.
  - induction Hs as [|w ws Hs IH Hw]; simpl; [constructor|].
    inversion Hn; subst. destruct (f w); [constructor|]; auto.
    apply Forall_forall. intros w' Hin. apply filter_In in Hin as [Hin _].
    rewrite Forall_forall in Hw. now apply Hw.
  - apply Forall_forall. intros w' Hin. apply filter_In in Hin as [Hin _].
    rewrite Forall_forall in Hn. now apply Hn.
Qed.

Lemma snoc_zero_ordered ws :
  wavesOrdered ws -> wavesOrdered (ws ++ [ {| wave_radius := 0 |} ]).
Proof.
  intros [Hs Hn]. split.
  - induction Hs as [|w ws Hs IH Hw]; simpl.
    + repeat constructor.
    + inversion Hn; subst. constructor; [auto|].
      apply Forall_app; split; [assumption|].
      constructor; [exact H1 | constructor].
  - apply Forall_app; split; [assumption|].
    constructor; [simpl; lra | constructor].
Qed.

Lemma spawnWave_spec delta interval ws since :
  exists spawned,
    fst (spawnWave delta interval ws since) = ws ++ spawned /\
    (spawned = [] \/ spawned = [ {| wave_radius := 0 |} ]).
Proof.
  unfold spawnWave.
  destruct (_ && _)%bool; [|destruct (Rltb _ _)]; simpl.
  - eexists; split; [reflexivity | now right].
  - eexists; split; [reflexivity | now right].
  - exists []. rewrite app_nil_r. split; [reflexivity | now left].
Qed.

(** The order of the wave list is an invariant of the scheduler: it holds
    for the empty list, and a tick keeps it when it is paused or when
    neither the frame delta nor the wave speed is negative. *)
Lemma draw_keeps_wavesOrdered cfg mouse rafTime e g :
  paused cfg = true \/
    (0 <= frameDelta rafTime e /\ 0 <= waveSpeed cfg) ->
  wavesOrdered (waves e) ->
  wavesOrdered (waves (fst (draw cfg mouse rafTime e g))).
Proof.
  intros Hc Ho.
  destruct (draw_unfold cfg mouse rafTime e g) as (_ & _ & -> & _).
  unfold frameWaves. destruct (paused cfg) eqn:Hp; [exact Ho|].
  destruct Hc as [Hc | [Hd Hs]]; [discriminate|].
  unfold scheduleWaves.
  assert (Hg : wavesOrdered
                 (advanceWaves (frameDelta rafTime e) (waveSpeed cfg)
                    (waves e)))
    by (apply advanceWaves_ordered;
        [apply Rmult_le_pos; assumption | assumption]).
  rewrite (dropDead_filter _ _ Hg).
  destruct (spawnWave_spec (frameDelta rafTime e) (waveInterval cfg)
              (filter (alive (maxDist (width e) (height e)))
                 (advanceWaves (frameDelta rafTime e) (waveSpeed cfg)
                    (waves e)))
              (timeSinceLastWave e)) as (spawned & -> & [-> | ->]).
  - rewrite app_nil_r. now apply filter_ordered.
  - apply snoc_zero_ordered. now apply filter_ordered.
Qed.

(** C4.  In a tick that is not paused, with a positive frame delta and a
    positive wave speed, on the ordered wave list that the scheduler keeps:
    every wave's radius grows by [delta * waveSpeed], which is a strict
    increase; the waves after the tick are the grown waves whose radius does
    not exceed [hypot(width, height) + 200], in their order, followed by at
    most one new wave of radius 0, so a wave is removed exactly when its
    radius exceeds that bound; and the list is ordered again. *)
Theorem wave_grows_and_retires cfg mouse rafTime e g :
  paused cfg = false ->
  0 < frameDelta rafTime e ->
  0 < waveSpeed cfg ->
  wavesOrdered (waves e) ->
  let delta := frameDelta rafTime e in
  let grown := advanceWaves delta (waveSpeed cfg) (waves e) in
  let e' := fst (draw cfg mouse rafTime e g) in
  Forall2 (fun w w' => wave_radius w' = wave_radius w + delta * waveSpeed cfg
                       /\ wave_radius w < wave_radius w')
          (waves e) grown /\
  (exists spawned,
     waves e' =
       filter (alive (hypot (INR (width e)) (INR (height e)) + 200)) grown
       ++ spawned /\
     (spawned = [] \/ spawned = [ {| wave_radius := 0 |} ])) /\
  wavesOrdered (waves e').
Proof.
  intros Hp Hd Hs Ho. cbv zeta.
  assert (Hpos : 0 < frameDelta rafTime e * waveSpeed cfg)
    by (apply Rmult_lt_0_compat; assumption).
  destruct (draw_unfold cfg mouse rafTime e g) as (_ & _ & -> & _).
  unfold frameWaves. rewrite Hp. unfold scheduleWaves.
  set (grown := advanceWaves _ _ _).
  assert (Hg : wavesOrdered grown)
    by (apply advanceWaves_ordered; [lra | assumption]).
  rewrite (dropDead_filter _ _ Hg). fold (maxDist (width e) (height e)).
  destruct (spawnWave_spec (frameDelta rafTime e) (waveInterval cfg)
              (filter (alive (maxDist (width e) (height e))) grown)
              (timeSinceLastWave e)) as (spawned & -> & Hsp).
  split; [|split].
  - unfold grown, advanceWaves. clear -Hpos.
    induction (waves e) as [|w ws IH]; simpl; constructor; auto.
    simpl. split; lra.
  - exists spawned. split; [reflexivity | exact Hsp].
  - destruct Hsp as [-> | ->].
    + rewrite app_nil_r. now apply filter_ordered.
    + apply snoc_zero_ordered. now apply filter_ordered.
Qed.

(** The witness: [wavyEngine], 16 ms after its last frame, with the
    starting configuration. *)
Lemma wave_grows_and_retires_witness :
  paused defaultConfig = false /\
  0 < frameDelta 1016 wavyEngine /\
  0 < waveSpeed defaultConfig /\
  wavesOrdered (waves wavyEngine) /\
  (let delta := frameDelta 1016 wavyEngine in
   let grown := advanceWaves delta (waveSpeed defaultConfig)
                  (waves wavyEngine) in
   let e' := fst (draw defaultConfig idleMouse 1016 wavyEngine zeroDraws) in
   Forall2 (fun w w' =>
              wave_radius w' = wave_radius w + delta * waveSpeed defaultConfig
              /\ wave_radius w < wave_radius w')
           (waves wavyEngine) grown /\
   (exists spawned,
      waves e' =
        filter (alive (hypot (INR (width wavyEngine))
                             (INR (height wavyEngine)) + 200)) grown
        ++ spawned /\
      (spawned = [] \/ spawned = [ {| wave_radius := 0 |} ])) /\
   wavesOrdered (waves e')).
Proof.
  assert (Hd : 0 < frameDelta 1016 wavyEngine).
  { unfold frameDelta. simpl lastRafTime.
    replace (Reqb 1000 0) with false
      by (symmetry; apply Reqb_false; lra).
    lra. }
  assert (Hs : 0 < waveSpeed defaultConfig) by (simpl; lra).
  assert (Ho : wavesOrdered (waves wavyEngine)).
  { split; simpl; repeat constructor; simpl; lra. }
  split; [reflexivity|]. split; [exact Hd|]. split; [exact Hs|].
  split; [exact Ho|].
  exact (wave_grows_and_retires defaultConfig idleMouse 1016 wavyEngine
           zeroDraws eq_refl Hd Hs Ho).
Defined.

(** ** The velocity exchange *)

Lemma elastic1D_conserves m1 m2 v1 v2 :
  0 < m1 -> 0 < m2 ->
  let (u1, u2) := elastic1D m1 m2 v1 v2 in
  m1 * u1 + m2 * u2 = m1 * v1 + m2 * v2 /\
  m1 * (u1 * u1) + m2 * (u2 * u2) = m1 * (v1 * v1) + m2 * (v2 * v2).
Proof.
  intros H1 H2. unfold elastic1D. split; field; lra.
Qed.

Lemma normalOf_unit p1 p2 :
  colliding p1 p2 ->
  fst (normalOf p1 p2) * fst (normalOf p1 p2) +
  snd (normalOf p1 p2) * snd (normalOf p1 p2) = 1.
Proof.
  intros [_ H]. unfold normalOf. cbv zeta. cbn [fst snd].
  set (dx := b_x p2 - b_x p1) in *. set (dy := b_y p2 - b_y p1) in *.
  assert (Hs : sqrt (dx * dx + dy * dy) * sqrt (dx * dx + dy * dy)
               = dx * dx + dy * dy) by (apply sqrt_sqrt; lra).
  assert (Hp : 0 < sqrt (dx * dx + dy * dy)) by (apply sqrt_lt_R0; lra).
  set (d := sqrt (dx * dx + dy * dy)) in *.
  replace (dx / d * (dx / d) + dy / d * (dy / d))
    with ((dx * dx + dy * dy) / (d * d)) by (field; lra).
  rewrite Hs. field. lra.
Qed.

(** [collide] on a pair that passes the overlap test. *)
Lemma collide_velocities p1 p2 :
  colliding p1 p2 ->
  let n := normalOf p1 p2 in
  let v1n := normalSpeed n p1 in
  let v2n := normalSpeed n p2 in
  let m1 := b_mass p1 in
  let m2 := b_mass p2 in
  let dv1n := (v1n * (m1 - m2) + 2 * m2 * v2n) / (m1 + m2) - v1n in
  let dv2n := (v2n * (m2 - m1) + 2 * m1 * v1n) / (m1 + m2) - v2n in
  let q := collide p1 p2 in
  (v1n < v2n ->
   b_vx (fst q) = b_vx p1 /\ b_vy (fst q) = b_vy p1 /\
   b_vx (snd q) = b_vx p2 /\ b_vy (snd q) = b_vy p2) /\
  (v2n <= v1n ->
   b_vx (fst q) = b_vx p1 + dv1n * fst n * COLLISION_DAMPING /\
   b_vy (fst q) = b_vy p1 + dv1n * snd n * COLLISION_DAMPING /\
   b_vx (snd q) = b_vx p2 + dv2n * fst n * COLLISION_DAMPING /\
   b_vy (snd q) = b_vy p2 + dv2n * snd n * COLLISION_DAMPING).
Proof.
  intros [Hc1 Hc2]. cbv zeta. unfold collide.
  apply Rltb_true in Hc1. apply Rltb_true in Hc2.
  cbv zeta. rewrite Hc1, Hc2. clear Hc1 Hc2. cbn [andb].
  unfold normalSpeed, normalOf. cbv zeta. cbn [fst snd].
  destruct (Rltb _ _) eqn:E; cbn [fst snd b_vx b_vy].
  - apply Rltb_true in E. split; [now repeat split | intros; lra].
  - apply Rltb_false in E. split; [intros; lra | now repeat split].
Qed.

(** C7.  For a pair that passes the overlap test, with positive masses:
    when the two particles are separating along the collision normal
    ([v1n < v2n]) the velocities are left as they are; otherwise each
    velocity changes along the normal only, by the change that the 1-D
    elastic collision of the two masses gives to its normal component,
    scaled by the damping 0.85; so the velocities change only if the
    particles are approaching ([v2n < v1n]).  The formula is the elastic
    one: it conserves momentum and kinetic energy. *)
Theorem velocity_exchange_when_approaching p1 p2 :
  colliding p1 p2 ->
  0 < b_mass p1 -> 0 < b_mass p2 ->
  let n := normalOf p1 p2 in
  let v1n := normalSpeed n p1 in
  let v2n := normalSpeed n p2 in
  let m1 := b_mass p1 in
  let m2 := b_mass p2 in
  let u := elastic1D m1 m2 v1n v2n in
  let q := collide p1 p2 in
  (v1n < v2n ->
   b_vx (fst q) = b_vx p1 /\ b_vy (fst q) = b_vy p1 /\
   b_vx (snd q) = b_vx p2 /\ b_vy (snd q) = b_vy p2) /\
  (v2n <= v1n ->
   b_vx (fst q) = b_vx p1 + COLLISION_DAMPING * (fst u - v1n) * fst n /\
   b_vy (fst q) = b_vy p1 + COLLISION_DAMPING * (fst u - v1n) * snd n /\
   b_vx (snd q) = b_vx p2 + COLLISION_DAMPING * (snd u - v2n) * fst n /\
   b_vy (snd q) = b_vy p2 + COLLISION_DAMPING * (snd u - v2n) * snd n /\
   normalSpeed n (fst q) = v1n + COLLISION_DAMPING * (fst u - v1n) /\
   normalSpeed n (snd q) = v2n + COLLISION_DAMPING * (snd u - v2n) /\
   tangentSpeed n (fst q) = tangentSpeed n p1 /\
   tangentSpeed n (snd q) = tangentSpeed n p2) /\
  ((b_vx (fst q), b_vy (fst q), b_vx (snd q), b_vy (snd q)) <>
   (b_vx p1, b_vy p1, b_vx p2, b_vy p2) -> v2n < v1n) /\
  COLLISION_DAMPING = 0.85 /\
  m1 * fst u + m2 * snd u = m1 * v1n + m2 * v2n /\
  m1 * (fst u * fst u) + m2 * (snd u * snd u) =
    m1 * (v1n * v1n) + m2 * (v2n * v2n).
Proof.
  intros Hc Hm1 Hm2. cbv zeta.
  pose proof (collide_velocities p1 p2 Hc) as Hv. cbv zeta in Hv.
  pose proof (normalOf_unit p1 p2 Hc) as Hu.
  pose proof (elastic1D_conserves (b_mass p1) (b_mass p2)
                (normalSpeed (normalOf p1 p2) p1)
                (normalSpeed (normalOf p1 p2) p2) Hm1 Hm2) as He.
  set (n := normalOf p1 p2) in *.
  set (v1n := normalSpeed n p1) in *. set (v2n := normalSpeed n p2) in *.
  set (q := collide p1 p2) in *.
  destruct Hv as [Hsep Happ].
  assert (E1 : (v1n * (b_mass p1 - b_mass p2) + 2 * b_mass p2 * v2n) /
               (b_mass p1 + b_mass p2) - v1n =
               fst (elastic1D (b_mass p1) (b_mass p2) v1n v2n) - v1n)
    by (unfold elastic1D; cbn [fst]; field; lra).
  assert (E2 : (v2n * (b_mass p2 - b_mass p1) + 2 * b_mass p1 * v1n) /
               (b_mass p1 + b_mass p2) - v2n =
               snd (elastic1D (b_mass p1) (b_mass p2) v1n v2n) - v2n)
    by (unfold elastic1D; cbn [snd]; field; lra).
  rewrite E1, E2 in Happ.
  destruct (elastic1D (b_mass p1) (b_mass p2) v1n v2n) as [u1 u2] eqn:Eu.
  cbn [fst snd] in *.
  split; [exact Hsep|]. split; [|split; [|split; [reflexivity | exact He]]].
  - intros Hle. destruct (Happ Hle) as (A1 & A2 & A3 & A4).
    unfold normalSpeed, tangentSpeed. rewrite A1, A2, A3, A4.
    fold v1n v2n. unfold v1n, v2n, normalSpeed.
    destruct n as [nx ny]. cbn [fst snd] in *.
    repeat split; try ring.
    + transitivity (b_vx p1 * nx + b_vy p1 * ny +
                    COLLISION_DAMPING *
                    (u1 - (b_vx p1 * nx + b_vy p1 * ny)) *
                    (nx * nx + ny * ny)); [ring | rewrite Hu; ring].
    + transitivity (b_vx p2 * nx + b_vy p2 * ny +
                    COLLISION_DAMPING *
                    (u2 - (b_vx p2 * nx + b_vy p2 * ny)) *
                    (nx * nx + ny * ny)); [ring | rewrite Hu; ring].
  - intros Hchg. destruct (Rlt_dec v2n v1n) as [|Hn]; [assumption|].
    exfalso. apply Hchg.
    destruct (Rlt_dec v1n v2n) as [Hlt|Hge].
    + destruct (Hsep Hlt) as (A1 & A2 & A3 & A4). now rewrite A1, A2, A3, A4.
    + assert (Heq : v1n = v2n) by lra.
      destruct (Happ (Rnot_lt_le _ _ Hge)) as (A1 & A2 & A3 & A4).
      assert (U1 : u1 - v1n = 0).
      { unfold elastic1D in Eu. injection Eu as <- _. rewrite Heq.
        field. lra. }
      assert (U2 : u2 - v2n = 0).
      { unfold elastic1D in Eu. injection Eu as _ <-. rewrite Heq.
        field. lra. }
      rewrite U1 in A1, A2. rewrite U2 in A3, A4.
      rewrite A1, A2, A3, A4.
      repeat f_equal; ring.
Qed.

(** The witness: [leftBody] runs into [rightBody]. *)
Lemma velocity_exchange_when_approaching_witness :
  colliding leftBody rightBody /\
  0 < b_mass leftBody /\ 0 < b_mass rightBody /\
  (let n := normalOf leftBody rightBody in
   let v1n := normalSpeed n leftBody in
   let v2n := normalSpeed n rightBody in
   let m1 := b_mass leftBody in
   let m2 := b_mass rightBody in
   let u := elastic1D m1 m2 v1n v2n in
   let q := collide leftBody rightBody in
   (v1n < v2n ->
    b_vx (fst q) = b_vx leftBody /\ b_vy (fst q) = b_vy leftBody /\
    b_vx (snd q) = b_vx rightBody /\ b_vy (snd q) = b_vy rightBody) /\
   (v2n <= v1n ->
    b_vx (fst q) = b_vx leftBody + COLLISION_DAMPING * (fst u - v1n) * fst n /\
    b_vy (fst q) = b_vy leftBody + COLLISION_DAMPING * (fst u - v1n) * snd n /\
    b_vx (snd q) = b_vx rightBody + COLLISION_DAMPING * (snd u - v2n) * fst n /\
    b_vy (snd q) = b_vy rightBody + COLLISION_DAMPING * (snd u - v2n) * snd n /\
    normalSpeed n (fst q) = v1n + COLLISION_DAMPING * (fst u - v1n) /\
    normalSpeed n (snd q) = v2n + COLLISION_DAMPING * (snd u - v2n) /\
    tangentSpeed n (fst q) = tangentSpeed n leftBody /\
    tangentSpeed n (snd q) = tangentSpeed n rightBody) /\
   ((b_vx (fst q), b_vy (fst q), b_vx (snd q), b_vy (snd q)) <>
    (b_vx leftBody, b_vy leftBody, b_vx rightBody, b_vy rightBody) ->
    v2n < v1n) /\
   COLLISION_DAMPING = 0.85 /\
   m1 * fst u + m2 * snd u = m1 * v1n + m2 * v2n /\
   m1 * (fst u * fst u) + m2 * (snd u * snd u) =
     m1 * (v1n * v1n) + m2 * (v2n * v2n)).
Proof.
  assert (Hc : colliding leftBody rightBody)
    by (unfold colliding; simpl; lra).
  assert (H1 : 0 < b_mass leftBody) by (simpl; lra).
  assert (H2 : 0 < b_mass rightBody) by (simpl; lra).
  split; [exact Hc|]. split; [exact H1|]. split; [exact H2|].
  exact (velocity_exchange_when_approaching leftBody rightBody Hc H1 H2).
Defined.

(** ** The spring: a particle left to itself *)

Section Spring.
Variables f k : R.
Hypothesis Hf0 : 0 < f.
Hypothesis Hf1 : f < 1.
Hypothesis Hk0 : 0 < f * k.
Hypothesis Hk1 : f * k < 2 * (1 + f).

Local Abbreviation T := (springT f k).
Local Abbreviation Delta := (springDelta f k).
Local Abbreviation Frob := (springFrob f k).
Local Abbreviation kappa := (springKappa f k).
Local Abbreviation step := (axisStep f k).
Local Abbreviation V := (axisEnergy f k).

Lemma spring_T_bounds : - (1 + f) < T /\ T < 1 + f.
Proof. unfold springT. lra. Qed.

Lemma spring_Delta_pos : 0 < Delta.
Proof. unfold springDelta. destruct spring_T_bounds. nra. Qed.

Lemma spring_Frob_pos : 0 < Frob.
Proof. unfold springFrob. nra. Qed.

Lemma spring_kappa_pos : 0 < kappa.
Proof.
  unfold springKappa. pose proof spring_Delta_pos as HD.
  pose proof spring_Frob_pos as HS.
  apply Rdiv_lt_0_compat.
  - apply Rmult_lt_0_compat; [lra|]. now apply Rmult_lt_0_compat.
  - apply Rmult_lt_0_compat; [lra | assumption].
Qed.

Lemma spring_gamma_bounds : 0 < decayRate f k /\ decayRate f k < 1.
Proof.
  unfold decayRate. pose proof spring_kappa_pos.
  unfold Rmax. destruct (Rle_dec (1 - kappa) (1 / 2)); lra.
Qed.

(** The offset obeys a second-order recurrence. *)
Lemma axisStep_recurrence s :
  fst (step (step s)) = T * fst (step s) - f * fst s.
Proof. unfold axisStep, springT. cbn [fst snd]. ring. Qed.

Lemma axisStep_velocity s : snd (step s) = fst (step s) - fst s.
Proof. unfold axisStep. cbn [fst snd]. ring. Qed.

(** One tick takes from the energy a multiple of a square. *)
Lemma axisEnergy_step s :
  V (step s) =
  V s - (1 - f) * ((T * fst (step s) - (1 + f) * fst s) *
                   (T * fst (step s) - (1 + f) * fst s)).
Proof.
  unfold axisEnergy. cbv zeta. rewrite axisStep_recurrence. ring.
Qed.

Lemma stiffness_pos : 0 < stiffness f k.
Proof.
  unfold stiffness.
  pose proof spring_T_bounds as [Hlo Hhi].
  unfold Rabs; destruct (Rcase_abs T); lra.
Qed.

Lemma axisEnergy_lower s :
  stiffness f k * (fst s * fst s + fst (step s) * fst (step s)) <= V s.
Proof.
  unfold stiffness, axisEnergy. cbv zeta.
  set (u := fst s). set (w := fst (step s)).
  pose proof spring_T_bounds as [Hlo Hhi].
  pose proof (Rle_0_sqr (u - w)) as H1. pose proof (Rle_0_sqr (u + w)) as H2.
  unfold Rsqr in *.
  unfold Rabs. destruct (Rcase_abs T); nra.
Qed.

Lemma axisEnergy_nonneg s : 0 <= V s.
Proof.
  pose proof (axisEnergy_lower s) as H.
  pose proof spring_T_bounds as [Hlo Hhi].
  assert (0 < stiffness f k) by apply stiffness_pos.
  assert (0 <= fst s * fst s + fst (step s) * fst (step s)) by nra.
  nra.
Qed.

Lemma axisEnergy_upper s :
  V s <= 2 * (1 + f) * (fst s * fst s + fst (step s) * fst (step s)).
Proof.
  unfold axisEnergy. cbv zeta.
  set (u := fst s). set (w := fst (step s)).
  pose proof spring_T_bounds as [Hlo Hhi].
  pose proof (Rle_0_sqr (u - w)) as H1. pose proof (Rle_0_sqr (u + w)) as H2.
  unfold Rsqr in *. nra.
Qed.

Lemma axisEnergy_decreases s : V (step s) <= V s.
Proof.
  rewrite axisEnergy_step.
  match goal with |- _ - _ * (?a * ?a) <= _ =>
    pose proof (Rle_0_sqr a) as H; unfold Rsqr in H end.
  nra.
Qed.

(** Two ticks take a fixed fraction of the energy. *)
Lemma axisEnergy_two_steps s : V (step (step s)) <= decayRate f k * V s.
Proof.
  unfold decayRate.
  pose proof (axisEnergy_nonneg s) as Hn.
  apply Rle_trans with ((1 - kappa) * V s);
    [|apply Rmult_le_compat_r; [assumption | apply Rmax_l]].
  rewrite (axisEnergy_step (step s)), (axisEnergy_step s).
  rewrite axisStep_recurrence.
  pose proof (axisEnergy_upper s) as Hup.
  set (u := fst s) in *. set (w := fst (step s)) in *.
  set (d0 := T * w - (1 + f) * u).
  set (d1 := T * (T * w - f * u) - (1 + f) * w).
  pose proof spring_Delta_pos as HD. pose proof spring_Frob_pos as HS.
  assert (HF : Delta * Delta * (u * u + w * w) <= Frob * (d0 * d0 + d1 * d1)).
  { set (g11 := (1 + f) * (1 + f) + (T * f) * (T * f)).
    set (g12 := - (1 + f) * T - T * f * (T * T - 1 - f)).
    set (g22 := T * T + (T * T - 1 - f) * (T * T - 1 - f)).
    assert (E : Frob * (d0 * d0 + d1 * d1) - Delta * Delta * (u * u + w * w)
                = (g11 * u + g12 * w) * (g11 * u + g12 * w) +
                  (g12 * u + g22 * w) * (g12 * u + g22 * w))
      by (unfold springFrob, springDelta, d0, d1, g11, g12, g22; ring).
    pose proof (Rle_0_sqr (g11 * u + g12 * w)) as H1.
    pose proof (Rle_0_sqr (g12 * u + g22 * w)) as H2.
    unfold Rsqr in *. lra. }
  assert (HK : kappa * V s <= (1 - f) * (d0 * d0 + d1 * d1)).
  { assert (Hz : 0 <= u * u + w * w) by nra.
    apply Rle_trans with (kappa * (2 * (1 + f) * (u * u + w * w))).
    - apply Rmult_le_compat_l; [left; apply spring_kappa_pos | exact Hup].
    - unfold springKappa.
      replace ((1 - f) * (Delta * Delta) / (2 * (1 + f) * Frob) *
               (2 * (1 + f) * (u * u + w * w)))
        with ((1 - f) * ((Delta * Delta * (u * u + w * w)) / Frob))
        by (field; lra).
      apply Rmult_le_compat_l; [lra|].
      apply (Rmult_le_reg_l Frob); [assumption|].
      replace (Frob * (Delta * Delta * (u * u + w * w) / Frob))
        with (Delta * Delta * (u * u + w * w)) by (field; lra).
      exact HF. }
  fold d0 d1. lra.
Qed.

Lemma axisEnergy_iter_decreases s n m :
  (n <= m)%nat -> V (Nat.iter m step s) <= V (Nat.iter n step s).
Proof.
  induction 1 as [|m Hle IH]; [lra|].
  cbn [Nat.iter]. eapply Rle_trans; [apply axisEnergy_decreases | exact IH].
Qed.

Lemma axisEnergy_iter_even s j :
  V (Nat.iter (2 * j) step s) <= decayRate f k ^ j * V s.
Proof.
  induction j as [|j IH]; [simpl; lra|].
  replace (2 * S j)%nat with (S (S (2 * j))) by lia.
  cbn [Nat.iter pow].
  eapply Rle_trans; [apply axisEnergy_two_steps|].
  rewrite Rmult_assoc. apply Rmult_le_compat_l; [|exact IH].
  left; apply spring_gamma_bounds.
Qed.

(** After [n] ticks, at least [2 * j] of them, the energy is at most
    [gamma ^ j] times what it was. *)
Lemma axisEnergy_decay s j n :
  (2 * j <= n)%nat -> V (Nat.iter n step s) <= decayRate f k ^ j * V s.
Proof.
  intros H. eapply Rle_trans;
    [apply (axisEnergy_iter_decreases s _ _ H) | apply axisEnergy_iter_even].
Qed.

(** The offset and the velocity after [n + 1] ticks, at least [2 * j]
    of them before the last, against the energy at the start. *)
Lemma axis_bounds s j n :
  (2 * j <= n)%nat ->
  let sn := Nat.iter (S n) step s in
  stiffness f k * (fst sn * fst sn) <= decayRate f k ^ j * V s /\
  stiffness f k * (snd sn * snd sn) <= 2 * (decayRate f k ^ j * V s).
Proof.
  intros Hj. cbv zeta.
  change (Nat.iter (S n) step s) with (step (Nat.iter n step s)).
  pose proof (axisEnergy_decay s j n Hj) as Hd.
  set (s' := Nat.iter n step s) in *.
  pose proof (axisEnergy_lower s') as Hl.
  rewrite (axisStep_velocity s').
  set (u := fst s') in *. set (w := fst (step s')) in *.
  pose proof stiffness_pos as Hm.
  pose proof (Rle_0_sqr (u + w)) as H1. unfold Rsqr in H1.
  assert (0 <= u * u) by nra. assert (0 <= w * w) by nra.
  split; nra.
Qed.
End Spring.

(** The integrator with no kick is [axisStep] on each axis. *)
Lemma integrate_axes cfg p :
  let q := integrate cfg (0, 0) p in
  let f := friction p in
  let k := returnStrength cfg / mass p in
  (x q - targetX p, vx q) = axisStep f k (x p - targetX p, vx p) /\
  (y q - targetY p, vy q) = axisStep f k (y p - targetY p, vy p) /\
  friction q = friction p /\ mass q = mass p /\
  targetX q = targetX p /\ targetY q = targetY p.
Proof.
  cbv zeta. unfold integrate, axisStep, targetX, targetY.
  cbn [x y vx vy friction mass baseX baseY jitterX jitterY fst snd].
  repeat split; f_equal; ring.
Qed.

Lemma settle_axes cfg p n :
  let q := settle cfg n p in
  let f := friction p in
  let k := returnStrength cfg / mass p in
  (x q - targetX p, vx q) = Nat.iter n (axisStep f k) (x p - targetX p, vx p) /\
  (y q - targetY p, vy q) = Nat.iter n (axisStep f k) (y p - targetY p, vy p) /\
  friction q = friction p /\ mass q = mass p /\
  targetX q = targetX p /\ targetY q = targetY p.
Proof.
  cbv zeta. induction n as [|n IH]; [now repeat split|].
  destruct IH as (Hx & Hy & Hf & Hm & Htx & Hty).
  change (settle cfg (S n) p) with (integrate cfg (0, 0) (settle cfg n p)).
  change (Nat.iter (S n) ?g ?s) with (g (Nat.iter n g s)).
  destruct (integrate_axes cfg (settle cfg n p))
    as (Ix & Iy & If & Im & Itx & Ity). cbv zeta in Ix, Iy.
  rewrite Hf, Hm, Htx in Ix. rewrite Hf, Hm, Hty in Iy.
  rewrite Ix, Iy, Hx, Hy. repeat split; congruence.
Qed.

(** C6, in the form that holds of the code.  A particle that receives no
    kick and is in no collision is moved by the integrator alone.  With
    0 < friction < 1, mass > 0, returnStrength > 0 and
    friction * returnStrength / mass below 2 * (1 + friction), its position
    converges to home-plus-jitter and its velocity to zero: for every
    tolerance there is a number of ticks after which the squared distance to
    the target and the squared speed stay below it.  The convergence is not
    monotone in the distance: the particle may overshoot its target. *)
Theorem spring_converges cfg p :
  0 < friction p -> friction p < 1 ->
  0 < mass p ->
  0 < returnStrength cfg ->
  friction p * (returnStrength cfg / mass p) < 2 * (1 + friction p) ->
  forall eps, 0 < eps ->
    exists N, forall n, (N <= n)%nat ->
      distSqToTarget (settle cfg n p) < eps /\
      speedSq (settle cfg n p) < eps.
Proof.
  intros Hf0 Hf1 Hm Hr Hk eps Heps.
  set (f := friction p) in *. set (k := returnStrength cfg / mass p) in *.
  assert (Hk0 : 0 < f * k).
  { apply Rmult_lt_0_compat; [assumption|].
    now apply Rdiv_lt_0_compat. }
  assert (Hg : 0 < decayRate f k /\ decayRate f k < 1)
    by (apply spring_gamma_bounds; assumption).
  destruct Hg as [Hg0 Hg1].
  assert (Hs : 0 < stiffness f k) by (apply stiffness_pos; assumption).
  set (sx := (x p - targetX p, vx p)). set (sy := (y p - targetY p, vy p)).
  assert (Hvx : 0 <= axisEnergy f k sx)
    by (apply axisEnergy_nonneg; assumption).
  assert (Hvy : 0 <= axisEnergy f k sy)
    by (apply axisEnergy_nonneg; assumption).
  set (L := axisEnergy f k sx + axisEnergy f k sy) in *.
  assert (HL : 0 <= L) by (unfold L; lra).
  destruct (pow_lt_1_zero (decayRate f k)
              (ltac:(rewrite Rabs_right; lra))
              (eps * stiffness f k / (2 * (L + 1))))
    as [j0 Hj0].
  { apply Rdiv_lt_0_compat; [apply Rmult_lt_0_compat; assumption | lra]. }
  exists (S (2 * j0)). intros n Hn.
  destruct n as [|n]; [lia|]. assert (Hj : (2 * j0 <= n)%nat) by lia.
  destruct (settle_axes cfg p (S n)) as (Ex & Ey & _ & _ & Etx & Ety).
  cbv zeta in Ex, Ey. fold f k sx sy in Ex, Ey.
  assert (Bx := fun H1 H2 H3 H4 => axis_bounds f k H1 H2 H3 H4 sx j0 n Hj).
  assert (By := fun H1 H2 H3 H4 => axis_bounds f k H1 H2 H3 H4 sy j0 n Hj).
  destruct (Bx Hf0 Hf1 Hk0 Hk) as [Bx1 Bx2].
  destruct (By Hf0 Hf1 Hk0 Hk) as [By1 By2]. cbv zeta in Bx1, Bx2, By1, By2.
  rewrite <- Ex in Bx1, Bx2. rewrite <- Ey in By1, By2.
  cbn [fst snd] in Bx1, Bx2, By1, By2.
  specialize (Hj0 j0 (le_n _)). rewrite Rabs_right in Hj0
    by (left; apply pow_lt; assumption).
  set (gj := decayRate f k ^ j0) in *.
  assert (Hgj : 0 < gj) by (apply pow_lt; assumption).
  assert (Hb : gj * (2 * (L + 1)) < eps * stiffness f k).
  { apply (Rmult_lt_compat_r (2 * (L + 1))) in Hj0; [|lra].
    replace (eps * stiffness f k / (2 * (L + 1)) * (2 * (L + 1)))
      with (eps * stiffness f k) in Hj0 by (field; lra).
    exact Hj0. }
  unfold distSqToTarget, speedSq. rewrite Etx, Ety.
  set (q := settle cfg (S n) p) in *.
  set (ex := x q - targetX p) in *. set (ey := y q - targetY p) in *.
  assert (Hd : stiffness f k * (ex * ex + ey * ey) <= gj * L)
    by (unfold L; lra).
  assert (Hv : stiffness f k * (vx q * vx q + vy q * vy q) <= 2 * (gj * L))
    by (unfold L; lra).
  assert (HgL : gj * L <= gj * (L + 1)) by nra.
  split; apply (Rmult_lt_reg_l (stiffness f k)); try assumption; nra.
Qed.

(** The witness: [displacedParticle] with the starting return strength. *)
Lemma spring_converges_witness :
  0 < friction displacedParticle /\ friction displacedParticle < 1 /\
  0 < mass displacedParticle /\
  0 < returnStrength quietConfig /\
  friction displacedParticle *
    (returnStrength quietConfig / mass displacedParticle) <
    2 * (1 + friction displacedParticle) /\
  forall eps, 0 < eps ->
    exists N, forall n, (N <= n)%nat ->
      distSqToTarget (settle quietConfig n displacedParticle) < eps /\
      speedSq (settle quietConfig n displacedParticle) < eps.
Proof.
  assert (H1 : 0 < friction displacedParticle) by (simpl; lra).
  assert (H2 : friction displacedParticle < 1) by (simpl; lra).
  assert (H3 : 0 < mass displacedParticle) by (simpl; lra).
  assert (H4 : 0 < returnStrength quietConfig) by (simpl; lra).
  assert (H5 : friction displacedParticle *
                 (returnStrength quietConfig / mass displacedParticle) <
               2 * (1 + friction displacedParticle)) by (simpl; lra).
  split; [exact H1|]. split; [exact H2|]. split; [exact H3|].
  split; [exact H4|]. split; [exact H5|].
  exact (spring_converges quietConfig displacedParticle H1 H2 H3 H4 H5).
Defined.

(** ** A lone particle with the forces switched off *)

Lemma waveKick_draws cfg time p kick w g :
  draws (snd (waveKick cfg time p kick w g)) = draws g.
Proof.
  unfold waveKick. cbv zeta.
  destruct (Rleb _ _); [reflexivity|].
  destruct (isText p); [|reflexivity].
  unfold bind, random, randRange, bind, random, ret. cbn [fst snd draws].
  destruct (Rltb _ _); reflexivity.
Qed.

(** With [radialKick = 0] and [bounceProb = 0] a wave adds nothing to the
    kick; a draw is never negative. *)
Lemma waveKick_quiet cfg time p kick w g :
  radialKick cfg = 0 -> bounceProb cfg = 0 ->
  0 <= draws g (cursor g) ->
  fst (waveKick cfg time p kick w g) = kick.
Proof.
  intros Hr Hb Hd. unfold waveKick. cbv zeta. rewrite Hr, Hb.
  destruct (Rleb _ _); [reflexivity|].
  assert (E : forall a b c d e : R,
             (fst kick + a * (0 * b) * c, snd kick + d * (0 * b) * e) = kick).
  { intros. destruct kick as [kx ky]. cbn [fst snd]. f_equal; ring. }
  destruct (isText p); [|apply E].
  unfold bind at 1. unfold random at 1.
  match goal with |- context [Rltb ?a ?b] =>
    replace (Rltb a b) with false by (symmetry; apply Rltb_false; lra) end.
  cbn [fst snd ret]. apply E.
Qed.

Lemma waveKicks_quiet cfg time p ws :
  radialKick cfg = 0 -> bounceProb cfg = 0 ->
  forall kick g,
    (forall n, 0 <= draws g n) ->
    fst (foldM (waveKick cfg time p) ws kick g) = kick /\
    draws (snd (foldM (waveKick cfg time p) ws kick g)) = draws g.
Proof.
  intros Hr Hb. induction ws as [|w ws IH]; intros kick g Hd;
    [now split|].
  cbn [foldM]. unfold bind.
  pose proof (waveKick_quiet cfg time p kick w g Hr Hb (Hd _)) as H1.
  pose proof (waveKick_draws cfg time p kick w g) as H2.
  destruct (waveKick cfg time p kick w g) as [kick1 g1].
  cbn [fst snd] in H1, H2. subst kick1.
  destruct (IH kick g1) as [I1 I2]; [intros; rewrite H2; apply Hd|].
  split; [exact I1 | congruence].
Qed.

Lemma integrate_setActivation cfg kick a p :
  integrate cfg kick (setActivation a p) =
  setActivation a (integrate cfg kick p).
Proof. reflexivity. Qed.

Lemma setActivation_twice a b p :
  setActivation a (setActivation b p) = setActivation a p.
Proof. reflexivity. Qed.

(** One tick on an engine whose only object is [setActivation a p]. *)
Lemma draw_lone_quiet cfg mouse rafTime e g a p :
  radialKick cfg = 0 -> bounceProb cfg = 0 -> active mouse = false ->
  (forall n, 0 <= draws g n) ->
  particles e = [setActivation a p] -> ambientParticles e = [] ->
  let r := draw cfg mouse rafTime e g in
  (exists a', particles (fst r) =
              [setActivation a' (integrate cfg (0, 0) p)]) /\
  ambientParticles (fst r) = [] /\
  draws (snd r) = draws g.
Proof.
  intros Hr Hb Hm Hd Hp Ha. cbv zeta.
  destruct (draw_unfold cfg mouse rafTime e g)
    as (-> & -> & _ & _ & _ & _ & _ & ->).
  rewrite Hp, Ha, resolveCollisions_lone. cbn [fst snd mapM].
  unfold bind at 1 2 3 4 5. unfold stepParticle at 1 2 3. unfold bind.
  match goal with |- context [foldM ?f ?ws ?k g] =>
    destruct (waveKicks_quiet cfg (frameTime cfg rafTime e)
                (setActivation a p) ws Hr Hb k g Hd) as [K1 K2];
    destruct (foldM f ws k g) as [kick g1]
  end.
  cbn [fst snd] in K1, K2. subst kick. rewrite Hm.
  cbn [mouseKick ret fst snd].
  rewrite integrate_setActivation, setActivation_twice.
  split; [|split; [reflexivity | exact K2]].
  eexists. reflexivity.
Qed.

(** A run of such ticks moves the particle as [settle] does. *)
Lemma run_lone_quiet cfg frames :
  radialKick cfg = 0 -> bounceProb cfg = 0 ->
  Forall (fun f => f_cfg f = cfg /\ active (f_mouse f) = false) frames ->
  forall e g a p,
    (forall n, 0 <= draws g n) ->
    particles e = [setActivation a p] -> ambientParticles e = [] ->
    exists a',
      particles (fst (run frames e g)) =
      [setActivation a' (settle cfg (List.length frames) p)].
Proof.
  intros Hr Hb Hf. induction Hf as [|f frames [Hc Hm] Hf IH];
    intros e g a p Hd Hp Ha.
  - exists a. exact Hp.
  - unfold run. cbn [foldM]. unfold bind, drawFrame at 1. rewrite Hc.
    destruct (draw_lone_quiet cfg (f_mouse f) (f_rafTime f) e g a p
                Hr Hb Hm Hd Hp Ha) as ((a1 & H1) & H2 & H3).
    destruct (draw cfg (f_mouse f) (f_rafTime f) e g) as [e1 g1].
    cbn [fst snd] in H1, H2, H3.
    destruct (IH e1 g1 a1 (integrate cfg (0, 0) p)) as [a' H'];
      [intros; rewrite H3; apply Hd | assumption | assumption |].
    exists a'. unfold run in H'. rewrite H'. f_equal. f_equal.
    unfold settle. cbn [List.length]. apply Nat.iter_swap.
Qed.

Lemma quietFrames_quiet n :
  Forall (fun f => f_cfg f = quietConfig /\ active (f_mouse f) = false)
         (quietFrames n) /\
  List.length (quietFrames n) = n.
Proof.
  unfold quietFrames. split.
  - apply Forall_map. apply Forall_forall. intros; split; reflexivity.
  - now rewrite length_map, length_seq.
Qed.

Lemma settle_offsets cfg p n :
  let q := settle cfg n p in
  let f := friction p in
  let k := returnStrength cfg / mass p in
  x q - targetX p = fst (Nat.iter n (axisStep f k) (x p - targetX p, vx p)) /\
  y q - targetY p = fst (Nat.iter n (axisStep f k) (y p - targetY p, vy p)) /\
  targetX q = targetX p /\ targetY q = targetY p.
Proof.
  destruct (settle_axes cfg p n) as (Hx & Hy & _ & _ & Tx & Ty).
  cbv zeta in *. repeat split; try assumption.
  - exact (f_equal fst Hx).
  - exact (f_equal fst Hy).
Qed.

Lemma distSqToTarget_setActivation a q :
  distSqToTarget (setActivation a q) = distSqToTarget q.
Proof. reflexivity. Qed.

Lemma axisStep_value f k e v e' v' :
  (v - e * k) * f = v' -> e + v' = e' -> axisStep f k (e, v) = (e', v').
Proof. intros <- <-. reflexivity. Qed.

Lemma axisStep_rest f k n : fst (Nat.iter n (axisStep f k) (0, 0)) = 0.
Proof.
  assert (H : Nat.iter n (axisStep f k) (0, 0) = (0, 0)).
  { induction n as [|n IH]; [reflexivity|].
    change (Nat.iter (S n) ?g ?s) with (g (Nat.iter n g s)). rewrite IH.
    apply axisStep_value; ring. }
  now rewrite H.
Qed.

(** The offset of [displacedParticle] along x, tick by tick, with the
    return strength 0.04: the exact values. *)
Lemma displaced_offsets :
  let g := axisStep 0.95 (0.040 / 1) in
  let s0 := (10, 0) in
  Nat.iter 8 g s0 =
    (0.27405924012415258525696, -1.62982192448218435682304) /\
  Nat.iter 9 g s0 =
    (-1.28468583925864035196469248, -1.55874507938279293722165248).
Proof.
  intros g s0.
  assert (I1 : Nat.iter 1 g s0 = (9.62, (-0.38))).
  { change (Nat.iter 1 g s0) with (g s0).
    apply axisStep_value; lra. }
  assert (I2 : Nat.iter 2 g s0 = (8.89344, (-0.72656))).
  { change (Nat.iter 2 g s0) with (g (Nat.iter 1 g s0)).
    rewrite I1. apply axisStep_value; lra. }
  assert (I3 : Nat.iter 3 g s0 = (7.86525728, (-1.02818272))).
  { change (Nat.iter 3 g s0) with (g (Nat.iter 2 g s0)).
    rewrite I2. apply axisStep_value; lra. }
  assert (I4 : Nat.iter 4 g s0 = (6.58960391936, (-1.27565336064))).
  { change (Nat.iter 4 g s0) with (g (Nat.iter 3 g s0)).
    rewrite I3. apply axisStep_value; lra. }
  assert (I5 : Nat.iter 5 g s0 = (5.12732827781632, (-1.46227564154368))).
  { change (Nat.iter 5 g s0) with (g (Nat.iter 4 g s0)).
    rewrite I4. apply axisStep_value; lra. }
  assert (I6 : Nat.iter 6 g s0 = (3.54332794379280384, (-1.58400033402351616))).
  { change (Nat.iter 6 g s0) with (g (Nat.iter 5 g s0)).
    rewrite I5. apply axisStep_value; lra. }
  assert (I7 : Nat.iter 7 g s0 = (1.90388116460633694208, (-1.63944677918646689792))).
  { change (Nat.iter 7 g s0) with (g (Nat.iter 6 g s0)).
    rewrite I6. apply axisStep_value; lra. }
  assert (I8 : Nat.iter 8 g s0 = (0.27405924012415258525696, (-1.62982192448218435682304))).
  { change (Nat.iter 8 g s0) with (g (Nat.iter 7 g s0)).
    rewrite I7. apply axisStep_value; lra. }
  assert (I9 : Nat.iter 9 g s0 = ((-1.28468583925864035196469248), (-1.55874507938279293722165248))).
  { change (Nat.iter 9 g s0) with (g (Nat.iter 8 g s0)).
    rewrite I8. apply axisStep_value; lra. }
  split; assumption.
Qed.

(** C6 as stated fails.  With the wave force at 0, no bounce, an idle
    pointer and the starting return strength 0.04, the particle of
    [displacedEngine] (mass 1, friction 0.95, at rest 10 px from its
    target) is 0.27 px from the target after 8 ticks and, having passed it,
    1.28 px after 9: the distance does not decrease from tick to tick. *)
Lemma spring_overshoots :
  radialKick quietConfig = 0 /\ bounceProb quietConfig = 0 /\
  active idleMouse = false /\ returnStrength quietConfig <> 0 /\
  0 < mass displacedParticle /\
  0 < friction displacedParticle <= 1 /\
  exists q8 q9,
    particles (fst (run (quietFrames 8) displacedEngine zeroDraws)) = [q8] /\
    particles (fst (run (quietFrames 9) displacedEngine zeroDraws)) = [q9] /\
    distSqToTarget q8 < 0.08 /\ 1.6 < distSqToTarget q9.
Proof.
  repeat (split; [try reflexivity; cbn; lra |]).
  assert (Hd : forall n, 0 <= draws zeroDraws n) by (intros; cbn; lra).
  destruct (quietFrames_quiet 8) as [F8 L8].
  destruct (quietFrames_quiet 9) as [F9 L9].
  destruct (run_lone_quiet quietConfig (quietFrames 8) eq_refl eq_refl F8
              displacedEngine zeroDraws 1 displacedParticle Hd
              eq_refl eq_refl) as [a8 H8].
  destruct (run_lone_quiet quietConfig (quietFrames 9) eq_refl eq_refl F9
              displacedEngine zeroDraws 1 displacedParticle Hd
              eq_refl eq_refl) as [a9 H9].
  rewrite L8 in H8. rewrite L9 in H9.
  eexists. eexists. split; [exact H8|]. split; [exact H9|].
  rewrite !distSqToTarget_setActivation.
  destruct (settle_offsets quietConfig displacedParticle 8)
    as (X8 & Y8 & Tx8 & Ty8).
  destruct (settle_offsets quietConfig displacedParticle 9)
    as (X9 & Y9 & Tx9 & Ty9).
  unfold distSqToTarget. rewrite Tx8, Ty8, Tx9, Ty9, X8, Y8, X9, Y9.
  unfold targetX, targetY.
  cbn [x y vx vy baseX baseY jitterX jitterY friction mass
       displacedParticle returnStrength quietConfig].
  replace (10 - (0 + 0)) with 10 by lra.
  replace (0 - (0 + 0)) with 0 by lra.
  destruct displaced_offsets as [E8 E9]. cbv zeta in E8, E9.
  rewrite E8, E9, !axisStep_rest. cbn [fst]. split; lra.
Qed.

(** Without friction the spring does not settle: with friction 1 and
    spring rate 1 an axis returns to its state every six ticks. *)
Lemma frictionless_axis_cycles e v :
  Nat.iter 6 (axisStep 1 1) (e, v) = (e, v).
Proof.
  change (Nat.iter 6 ?g ?s) with (g (g (g (g (g (g s)))))).
  unfold axisStep. cbn [fst snd]. f_equal; ring.
Qed.

(** * Further properties of the code *)

(** ** Clamp and the intro zoom *)

Lemma clamp_range v a b : a <= b -> a <= clamp v a b <= b.
Proof.
  intros Hab. unfold clamp. split; [apply Rmax_l|].
  apply Rmax_lub; [assumption | apply Rmin_l].
Qed.

Lemma clamp_inside v a b : a <= v <= b -> clamp v a b = v.
Proof.
  intros [H1 H2]. unfold clamp.
  rewrite (Rmin_right b v H2). now apply Rmax_right.
Qed.

Lemma clamp_below v a b : a <= b -> v <= a -> clamp v a b = a.
Proof.
  intros Hab Hv. unfold clamp.
  rewrite (Rmin_right b v) by lra. now apply Rmax_left.
Qed.

Lemma clamp_above v a b : a <= b -> b <= v -> clamp v a b = b.
Proof.
  intros Hab Hv. unfold clamp.
  rewrite (Rmin_left b v) by lra. now apply Rmax_right.
Qed.

Lemma clamp_monotone v v' a b : v <= v' -> clamp v a b <= clamp v' a b.
Proof.
  intros H. unfold clamp. apply Rle_max_compat_l. now apply Rle_min_compat_l.
Qed.

(** X1.  [clamp(v, a, b)] with [a <= b] lies in [[a, b]], is [v] itself
    when [v] already does, is [a] below the range and [b] above it, and
    does not decrease when [v] grows. *)
Theorem clamp_saturates v v' a b :
  a <= b ->
  a <= clamp v a b <= b /\
  (a <= v <= b -> clamp v a b = v) /\
  (v <= a -> clamp v a b = a) /\
  (b <= v -> clamp v a b = b) /\
  (v <= v' -> clamp v a b <= clamp v' a b).
Proof.
  intros Hab. split; [now apply clamp_range|].
  split; [apply clamp_inside|]. split; [now apply clamp_below|].
  split; [now apply clamp_above | apply clamp_monotone].
Qed.

Lemma clamp_saturates_witness :
  0 <= 1 /\
  (0 <= clamp 2 0 1 <= 1 /\
   (0 <= 2 <= 1 -> clamp 2 0 1 = 2) /\
   (2 <= 0 -> clamp 2 0 1 = 0) /\
   (1 <= 2 -> clamp 2 0 1 = 1) /\
   (2 <= 3 -> clamp 2 0 1 <= clamp 3 0 1)).
Proof.
  assert (H : 0 <= 1) by lra.
  split; [exact H | exact (clamp_saturates 2 3 0 1 H)].
Defined.

Lemma easeOutCubic_monotone s t :
  s <= t -> easeOutCubic s <= easeOutCubic t.
Proof.
  intros H. unfold easeOutCubic. simpl.
  assert (E : (1 - s) * ((1 - s) * ((1 - s) * 1)) -
              (1 - t) * ((1 - t) * ((1 - t) * 1)) =
              (t - s) * ((1 - s) * (1 - s) + (1 - s) * (1 - t) +
                         (1 - t) * (1 - t))) by ring.
  assert (Q : 0 <= (1 - s) * (1 - s) + (1 - s) * (1 - t) +
                   (1 - t) * (1 - t)).
  { pose proof (Rle_0_sqr ((1 - s) + (1 - t))) as H1.
    pose proof (Rle_0_sqr (1 - s)) as H2.
    pose proof (Rle_0_sqr (1 - t)) as H3. unfold Rsqr in *. lra. }
  assert (0 <= (t - s) * ((1 - s) * (1 - s) + (1 - s) * (1 - t) +
                          (1 - t) * (1 - t)))
    by (apply Rmult_le_pos; lra).
  lra.
Qed.

Lemma easeOutCubic_ends : easeOutCubic 0 = 0 /\ easeOutCubic 1 = 1.
Proof. unfold easeOutCubic. simpl. split; ring. Qed.

(** X2.  The intro zoom, when the intro is not skipped: it starts at 3 (for
    a time up to 0), ends at 1 (from 4800 ms on), never increases with time
    and stays within [[1, 3]]; so the zoom is never 0 and the pointer
    coordinates are divided by a positive number. *)
Theorem zoom_eases_from_3_to_1 cfg time time' :
  skipIntro cfg = false ->
  1 <= zoomOf cfg time <= 3 /\
  (time <= 0 -> zoomOf cfg time = 3) /\
  (ANIMATION_DURATION <= time -> zoomOf cfg time = 1) /\
  (time <= time' -> zoomOf cfg time' <= zoomOf cfg time).
Proof.
  intros Hs.
  assert (Hr : forall t, 0 <= clamp (t / ANIMATION_DURATION) 0 1 <= 1)
    by (intros; apply clamp_range; lra).
  assert (He : forall t, 0 <= easeOutCubic (clamp (t / ANIMATION_DURATION) 0 1)
                         <= 1).
  { intros t. destruct (Hr t) as [H0 H1]. destruct easeOutCubic_ends as [E0 E1].
    pose proof (easeOutCubic_monotone _ _ H0) as M0.
    pose proof (easeOutCubic_monotone _ _ H1) as M1. lra. }
  unfold zoomOf. rewrite Hs. cbv zeta. unfold ZOOM_START, ZOOM_END.
  pose proof (He time) as [H0 H1].
  assert (Hi : 0 < / 4800) by (apply Rinv_0_lt_compat; lra).
  split; [lra|]. split; [|split].
  - intros Ht. rewrite clamp_below; try lra.
    + destruct easeOutCubic_ends as [-> _]. lra.
    + unfold ANIMATION_DURATION, Rdiv. nra.
  - intros Ht. rewrite clamp_above; try lra.
    + destruct easeOutCubic_ends as [_ ->]. lra.
    + unfold ANIMATION_DURATION in *. unfold Rdiv.
      replace 1 with (4800 * / 4800) by (field; lra). nra.
  - intros Ht.
    assert (Hm : easeOutCubic (clamp (time / ANIMATION_DURATION) 0 1) <=
                 easeOutCubic (clamp (time' / ANIMATION_DURATION) 0 1)).
    { apply easeOutCubic_monotone, clamp_monotone.
      unfold ANIMATION_DURATION, Rdiv. nra. }
    lra.
Qed.

Lemma zoom_eases_from_3_to_1_witness :
  skipIntro introConfig = false /\
  (1 <= zoomOf introConfig 2400 <= 3 /\
   (2400 <= 0 -> zoomOf introConfig 2400 = 3) /\
   (ANIMATION_DURATION <= 2400 -> zoomOf introConfig 2400 = 1) /\
   (2400 <= 4800 -> zoomOf introConfig 4800 <= zoomOf introConfig 2400)).
Proof.
  split; [reflexivity|].
  exact (zoom_eases_from_3_to_1 introConfig 2400 4800 eq_refl).
Defined.

(** ** The ranges of what the spawner draws *)

Lemma randRange_bounds lo hi g :
  lo <= hi -> 0 <= draws g (cursor g) < 1 ->
  lo <= fst (randRange lo hi g) <= hi.
Proof.
  intros Hl [H0 H1]. unfold randRange, bind, random, ret. cbn [fst].
  split; nra.
Qed.

Lemma spawnCell_ranges imgData w target tcx tcy origin acc c g :
  unitDraws g ->
  Forall saneParticle (fst acc) -> Forall saneAmbient (snd acc) ->
  let acc' := fst (spawnCell imgData w target tcx tcy origin acc c g) in
  Forall saneParticle (fst acc') /\ Forall saneAmbient (snd acc').
Proof.
  intros Hd Hp Ha. unfold spawnCell. destruct c as [gx gy].
  destruct acc as [ps ambs]. cbn [fst snd] in Hp, Ha.
  unfold bind, random, randRange, ret, bind, random. simpl.
  assert (Hs : forall lo hi n, lo <= hi ->
                 lo <= lo + draws g n * (hi - lo) <= hi).
  { intros lo hi n Hl. destruct (Hd n). split; nra. }
  assert (Hph : forall n, 0 <= draws g n * PI * 2 < 2 * PI).
  { intros n. destruct (Hd n). pose proof PI_RGT_0. split; nra. }
  assert (Hnew : forall (b : bool) jx jy n1 n2 n3 bx by_ d an ac,
             (if b then -0.2 <= jx <= 0.2 /\ -0.2 <= jy <= 0.2
              else -1.5 <= jx <= 1.5 /\ -1.5 <= jy <= 1.5) ->
             saneParticle
               {| baseX := bx; baseY := by_; x := bx + jx; y := by_ + jy;
                  vx := 0; vy := 0; dist := d; angle := an; isText := b;
                  activation := ac; jitterX := jx; jitterY := jy;
                  phase := draws g n1 * PI * 2;
                  friction := 0.92 + draws g n2 * (0.97 - 0.92);
                  mass := 0.6 + draws g n3 * (1.4 - 0.6);
                  radius := TEXT_RADIUS |}).
  { intros b jx jy n1 n2 n3 bx by_ d an ac Hj. unfold saneParticle. simpl.
    pose proof (Hs 0.92 0.97 n2 ltac:(lra)).
    pose proof (Hs 0.6 1.4 n3 ltac:(lra)).
    pose proof (Hph n1). repeat split; try lra; exact Hj. }
  assert (Hamb : forall bx by_ ax ay n1 n2,
             saneAmbient
               {| amb_baseX := bx; amb_baseY := by_; amb_x := ax; amb_y := ay;
                  amb_vx := 0; amb_vy := 0;
                  amb_friction := 0.90 + draws g n1 * (0.96 - 0.90);
                  amb_mass := 0.5 + draws g n2 * (1.5 - 0.5);
                  amb_radius := BG_RADIUS |}).
  { intros. unfold saneAmbient. simpl.
    pose proof (Hs 0.90 0.96 n1 ltac:(lra)).
    pose proof (Hs 0.5 1.5 n2 ltac:(lra)). lra. }
  assert (Hjt : forall n, -0.2 <= -0.2 + draws g n * (0.2 - -0.2) <= 0.2)
    by (intros; apply Hs; lra).
  assert (Hjb : forall n,
             -1.5 <= - JITTER_AMOUNT * 3 +
                     draws g n * (JITTER_AMOUNT * 3 - - JITTER_AMOUNT * 3)
             <= 1.5).
  { intros n. unfold JITTER_AMOUNT. destruct (Hd n). split; nra. }
  destruct (isTextAlpha (alphaAt imgData w gx gy)); simpl.
  - destruct (Rltb TEXT_KEEP_PROB _); simpl; [now split|].
    split; [|assumption]. apply Forall_app; split; [assumption|].
    constructor; [|constructor]. apply Hnew. split; apply Hjt.
  - destruct (Rltb BACKGROUND_KEEP_PROB _); simpl; [now split|].
    assert (Hq : forall n1 n2 n3 n4 n5 bx by_ d an ac,
               Forall saneParticle
                 (ps ++ [ {| baseX := bx; baseY := by_;
                    x := bx + (- JITTER_AMOUNT * 3 + draws g n4 *
                               (JITTER_AMOUNT * 3 - - JITTER_AMOUNT * 3));
                    y := by_ + (- JITTER_AMOUNT * 3 + draws g n5 *
                               (JITTER_AMOUNT * 3 - - JITTER_AMOUNT * 3));
                    vx := 0; vy := 0; dist := d; angle := an; isText := false;
                    activation := ac;
                    jitterX := - JITTER_AMOUNT * 3 + draws g n4 *
                               (JITTER_AMOUNT * 3 - - JITTER_AMOUNT * 3);
                    jitterY := - JITTER_AMOUNT * 3 + draws g n5 *
                               (JITTER_AMOUNT * 3 - - JITTER_AMOUNT * 3);
                    phase := draws g n1 * PI * 2;
                    friction := 0.92 + draws g n2 * (0.97 - 0.92);
                    mass := 0.6 + draws g n3 * (1.4 - 0.6);
                    radius := TEXT_RADIUS |} ])).
    { intros. apply Forall_app; split; [assumption|].
      constructor; [|constructor]. apply Hnew. split; apply Hjb. }
    destruct (Z.ltb _ target); simpl; [destruct (Rltb _ 0.1); simpl|];
      (split; [apply Hq|]); try assumption.
    apply Forall_app; split; [assumption|]. constructor; [|constructor].
    apply Hamb.
Qed.

Lemma foldM_inv_state {A B} (P : B -> Rng -> Prop) (f : B -> A -> M B)
    (l : list A) :
  (forall b a g, In a l -> P b g -> P (fst (f b a g)) (snd (f b a g))) ->
  forall b g, P b g -> P (fst (foldM f l b g)) (snd (foldM f l b g)).
Proof.
  induction l as [|a l IH]; intros Hf b g Hb; simpl.
  - exact Hb.
  - unfold bind. specialize (Hf b a g (or_introl eq_refl) Hb) as H1.
    destruct (f b a g) as [b' g']. simpl in H1.
    apply IH; [|exact H1]. intros; apply Hf; [right|]; assumption.
Qed.

Lemma unitDraws_ext g g' : draws g' = draws g -> unitDraws g -> unitDraws g'.
Proof. intros E H n. rewrite E. apply H. Qed.

Lemma synthAmbient_sane w h g :
  unitDraws g -> saneAmbient (fst (synthAmbient w h g)).
Proof.
  intros Hd. unfold synthAmbient, bind, randRange, bind, random, ret. simpl.
  unfold saneAmbient. simpl.
  destruct (Hd (S (S (cursor g)))). destruct (Hd (S (S (S (cursor g))))).
  split; split; nra.
Qed.

Lemma topUp_sane w h target :
  forall fuel amb g,
    unitDraws g -> Forall saneAmbient amb ->
    Forall saneAmbient (fst (topUp fuel w h target amb g)).
Proof.
  induction fuel as [|fuel IH]; intros amb g Hd Ha; simpl.
  - destruct (Z.ltb _ target); exact Ha.
  - destruct (Z.ltb _ target); [|exact Ha].
    unfold bind.
    pose proof (synthAmbient_sane w h g Hd) as Hs.
    destruct (synthAmbient_spec w h g) as (_ & _ & Hdr).
    destruct (synthAmbient w h g) as [a g1]. cbn [fst snd] in Hs, Hdr.
    apply IH; [exact (unitDraws_ext _ _ Hdr Hd)|].
    apply Forall_app; split; [assumption|]. constructor; [exact Hs | constructor].
Qed.

(** X3.  With every draw in [[0, 1)], all that [createMask] creates has its
    parameters in the ranges the spawner draws from: a mask particle has a
    jitter within 0.2 (text) or 1.5 (background) of zero on each axis, a
    phase in [[0, 2 PI)], a friction in [[0.92, 0.97]] and a mass in
    [[0.6, 1.4]]; a dust particle has a friction in [[0.90, 0.96]] and a
    mass in [[0.5, 1.5]].  So no object has a zero mass, and every friction
    lies strictly between 0 and 1. *)
Theorem spawned_parameters_in_range cfg word imgData w h g :
  unitDraws g ->
  let e0 := fst (createMask cfg word imgData (initEngine w h) g) in
  Forall saneParticle (particles e0) /\
  Forall saneAmbient (ambientParticles e0).
Proof.
  intros Hd. cbv zeta. unfold createMask. cbn [width height initEngine].
  destruct ((w =? 0)%nat || (h =? 0)%nat)%bool; [split; constructor|].
  unfold bind.
  assert (H : let r := spawnGrid cfg word imgData (initEngine w h) g in
              (Forall saneParticle (fst (fst r)) /\
               Forall saneAmbient (snd (fst r))) /\ unitDraws (snd r)).
  { cbv zeta. unfold spawnGrid. cbn [width height particles ambientParticles
      initEngine].
    apply (foldM_inv_state
             (fun acc g' => (Forall saneParticle (fst acc) /\
                             Forall saneAmbient (snd acc)) /\ unitDraws g'));
      [|cbn [fst snd]; split; [split; constructor | exact Hd]].
    intros b c g' _ [[Hp Ha] Hd']. split.
    - now apply spawnCell_ranges.
    - eapply unitDraws_ext; [apply spawnCell_draws | exact Hd']. }
  cbv zeta in H.
  destruct (spawnGrid cfg word imgData (initEngine w h) g) as [acc g1].
  cbn [fst snd] in H. destruct H as [[Hp Ha] Hd1].
  pose proof (topUp_sane w h (approxAmbientTarget cfg)
                (Z.to_nat (approxAmbientTarget cfg)) (snd acc) g1 Hd1 Ha)
    as Ht.
  destruct (topUp _ _ _ _ _ g1) as [amb g2]. cbn [fst snd] in *.
  split; assumption.
Qed.

Lemma zeroDraws_unit : unitDraws zeroDraws.
Proof. intros n. simpl. lra. Qed.

Lemma spawned_parameters_in_range_witness :
  unitDraws zeroDraws /\
  (let e0 := fst (createMask defaultConfig "PLURIBUS" (fun _ => 0%nat)
                    (initEngine 800 600) zeroDraws) in
   Forall saneParticle (particles e0) /\
   Forall saneAmbient (ambientParticles e0)).
Proof.
  split; [exact zeroDraws_unit|].
  exact (spawned_parameters_in_range defaultConfig "PLURIBUS"
           (fun _ => 0%nat) 800 600 zeroDraws zeroDraws_unit).
Defined.

(** ** The grid of the two loops and the bounding box *)

Lemma gridCoords_spec limit v :
  In v (gridCoords limit) <-> (v < limit)%nat /\ (v mod 3 = 0)%nat.
Proof.
  unfold gridCoords, GRID_SPACING. change (3 - 1)%nat with 2%nat.
  rewrite in_map_iff. split.
  - intros (k & <- & Hk). apply in_seq in Hk.
    assert (k < (limit + 2) / 3)%nat by lia.
    split.
    + pose proof (Nat.div_mod_eq (limit + 2) 3).
      pose proof (Nat.mod_upper_bound (limit + 2) 3). lia.
    + rewrite Nat.mul_comm. apply Nat.Div0.mod_mul.
  - intros [Hv Hm]. exists (v / 3)%nat. split.
    + pose proof (Nat.div_mod_eq v 3). lia.
    + apply in_seq.
      pose proof (Nat.div_mod_eq v 3).
      pose proof (Nat.div_mod_eq (limit + 2) 3).
      pose proof (Nat.mod_upper_bound (limit + 2) 3).
      lia.
Qed.

Lemma gridCells_spec w h gx gy :
  In (gx, gy) (gridCells w h) <->
  In gx (gridCoords w) /\ In gy (gridCoords h).
Proof.
  unfold gridCells. rewrite in_flat_map. split.
  - intros (y0 & Hy & Hin). apply in_map_iff in Hin as (x0 & E & Hx).
    injection E as <- <-. now split.
  - intros [Hx Hy]. exists gy. split; [assumption|].
    apply in_map_iff. now exists gx.
Qed.

(** X4.  The two nested loops of [createMask] visit exactly the pixels
    whose coordinates are multiples of 3 inside the canvas. *)
Theorem grid_visits_stride_aligned_pixels w h gx gy :
  In (gx, gy) (gridCells w h) <->
  (gx < w)%nat /\ (gy < h)%nat /\ (gx mod 3 = 0)%nat /\ (gy mod 3 = 0)%nat.
Proof.
  rewrite gridCells_spec, !gridCoords_spec. tauto.
Qed.

(** The bounding box after the cells [l], started from [b0]. *)
Lemma bbox_fold_spec imgData w l :
  forall b0,
    let b := fold_left (bboxStep imgData w) l b0 in
    (b = None <-> b0 = None /\ forall c, In c l -> ~ textCell imgData w c) /\
    (forall bb, b = Some bb ->
       (forall c, In c l -> textCell imgData w c ->
          (minX bb <= fst c <= maxX bb)%nat /\
          (minY bb <= snd c <= maxY bb)%nat) /\
       (forall bb0, b0 = Some bb0 ->
          (minX bb <= minX bb0)%nat /\ (maxX bb0 <= maxX bb)%nat /\
          (minY bb <= minY bb0)%nat /\ (maxY bb0 <= maxY bb)%nat)).
Proof.
  induction l as [|c l IH]; intros b0; cbv zeta; cbn [fold_left].
  - split.
    + split; [intros ->; split; [reflexivity | intros c []]|tauto].
    + intros bb ->. split; [intros c []|].
      intros bb0 E. injection E as <-. lia.
  - specialize (IH (bboxStep imgData w b0 c)). cbv zeta in IH.
    destruct IH as [IHn IHs].
    assert (Hstep :
      (textCell imgData w c ->
         exists b1, bboxStep imgData w b0 c = Some b1 /\
           (minX b1 <= fst c <= maxX b1)%nat /\
           (minY b1 <= snd c <= maxY b1)%nat /\
           (forall bb0, b0 = Some bb0 ->
              (minX b1 <= minX bb0)%nat /\ (maxX bb0 <= maxX b1)%nat /\
              (minY b1 <= minY bb0)%nat /\ (maxY bb0 <= maxY b1)%nat)) /\
      (~ textCell imgData w c -> bboxStep imgData w b0 c = b0)).
    { unfold textCell, bboxStep. destruct c as [gx gy]. cbn [fst snd].
      destruct (isTextAlpha (alphaAt imgData w gx gy)).
      - split; [intros _ | intros H; now elim H].
        destruct b0 as [bb0|].
        + eexists; split; [reflexivity|]. cbn [minX maxX minY maxY].
          destruct (Nat.ltb_spec gx (minX bb0)),
            (Nat.ltb_spec (maxX bb0) gx), (Nat.ltb_spec gy (minY bb0)),
            (Nat.ltb_spec (maxY bb0) gy);
            (repeat split; try lia);
            match goal with H : Some _ = Some _ |- _ =>
              injection H as <-; lia end.
        + eexists; split; [reflexivity|]. cbn [minX maxX minY maxY].
          repeat split; try lia; discriminate.
      - split; [intros H; discriminate | reflexivity]. }
    destruct Hstep as [Ht Hn].
    split.
    + rewrite IHn. split.
      * intros [E Hl].
        assert (Hc : ~ textCell imgData w c).
        { intros Hc. destruct (Ht Hc) as (b1 & E1 & _). congruence. }
        rewrite (Hn Hc) in E. split; [assumption|].
        intros c' [<- | Hin]; [assumption | now apply Hl].
      * intros [E Hl]. split; [|intros c' Hin; apply Hl; now right].
        rewrite Hn; [assumption | apply Hl; now left].
    + intros bb Hbb. destruct (IHs bb Hbb) as [Hin Hmono]. split.
      * intros c' [<- | Hc'] Htc; [|now apply Hin].
        destruct (Ht Htc) as (b1 & E1 & Hx & Hy & _).
        destruct (Hmono b1 E1) as (M1 & M2 & M3 & M4). lia.
      * intros bb0 E0.
        assert (exists b1, bboxStep imgData w b0 c = Some b1 /\
                  (minX b1 <= minX bb0)%nat /\ (maxX bb0 <= maxX b1)%nat /\
                  (minY b1 <= minY bb0)%nat /\ (maxY bb0 <= maxY b1)%nat)
          as (b1 & E1 & N1 & N2 & N3 & N4).
        { unfold bboxStep in *. destruct c as [gx gy].
          destruct (isTextAlpha (alphaAt imgData w gx gy)) eqn:Ea.
          - destruct (Ht Ea) as (b1 & E1 & _ & _ & Hm).
            exists b1. split; [exact E1 | now apply Hm].
          - exists bb0. split; [assumption | lia]. }
        destruct (Hmono b1 E1) as (M1 & M2 & M3 & M4). lia.
Qed.

(** X5.  The bounding box of [createMask] is undefined (its bounds stay
    infinite) exactly when no visited pixel is a text pixel; otherwise every
    visited text pixel lies within its four bounds. *)
Theorem bounding_box_contains_text imgData w h :
  (scanBBox imgData w h = None <->
   forall c, In c (gridCells w h) -> ~ textCell imgData w c) /\
  (forall bb c, scanBBox imgData w h = Some bb ->
     In c (gridCells w h) -> textCell imgData w c ->
     (minX bb <= fst c <= maxX bb)%nat /\ (minY bb <= snd c <= maxY bb)%nat).
Proof.
  unfold scanBBox.
  destruct (bbox_fold_spec imgData w (gridCells w h) None) as [Hn Hs].
  cbv zeta in Hn, Hs. split.
  - rewrite Hn. tauto.
  - intros bb c E. destruct (Hs bb E) as [Hin _]. apply Hin.
Qed.

Lemma bounding_box_fold_none imgData w h :
  (forall c, In c (gridCells w h) -> ~ textCell imgData w c) ->
  scanBBox imgData w h = None.
Proof.
  intros H. unfold scanBBox.
  destruct (bbox_fold_spec imgData w (gridCells w h) None) as [Hn _].
  cbv zeta in Hn. apply Hn. now split.
Qed.

(** X6.  A pixel array without a visited text pixel: the wave origin and
    the text centre fall back to the centre of the canvas, and every mask
    particle is a background particle, fully visible, whose home is its
    pixel relative to that centre. *)
Theorem no_text_falls_back_to_centre cfg word imgData w h g :
  (0 < w)%nat -> (0 < h)%nat ->
  (forall c, In c (gridCells w h) -> ~ textCell imgData w c) ->
  let e0 := fst (createMask cfg word imgData (initEngine w h) g) in
  waveOrigin e0 = (INR w / 2, INR h / 2) /\
  Forall (fun p => isText p = false /\ activation p = 1 /\
            exists c, In c (gridCells w h) /\
              baseX p = INR (fst c) - INR w / 2 /\
              baseY p = INR (snd c) - INR h / 2)
         (particles e0).
Proof.
  intros Hw Hh Hno. cbv zeta.
  pose proof (bounding_box_fold_none imgData w h Hno) as E.
  pose proof (createMask_particles cfg word imgData w h g) as Hp.
  cbv zeta in Hp. rewrite E in Hp. cbn [textCenterX textCenterY] in Hp.
  assert (Ho : waveOrigin (fst (createMask cfg word imgData
                                  (initEngine w h) g)) =
               (INR w / 2, INR h / 2)).
  { unfold createMask. cbn [width height initEngine].
    destruct (Nat.eqb_spec w 0); [lia|]. destruct (Nat.eqb_spec h 0); [lia|].
    cbn [orb]. unfold bind.
    destruct (spawnGrid _ _ _ _ g) as [acc g1].
    destruct (topUp _ _ _ _ _ g1) as [amb g2]. cbn [fst waveOrigin].
    rewrite E. reflexivity. }
  split; [exact Ho|].
  eapply Forall_impl; [|exact Hp].
  intros p (c & Hin & Hs).
  destruct Hs as (Hbx & Hby & _ & _ & _ & _ & _ & _ & Ht & Ha & _).
  assert (Hf : isText p = false).
  { rewrite Ht. specialize (Hno c Hin). unfold textCell in Hno.
    now destruct (isTextAlpha _). }
  rewrite Hf in Ha. repeat split; try assumption.
  exists c. repeat split; assumption.
Qed.

Lemma no_text_falls_back_to_centre_witness :
  let e0 := fst (createMask defaultConfig "A" blankImage (initEngine 6 3)
                   zeroDraws) in
  waveOrigin e0 = (INR 6 / 2, INR 3 / 2) /\
  Forall (fun p => isText p = false /\ activation p = 1 /\
            exists c, In c (gridCells 6 3) /\
              baseX p = INR (fst c) - INR 6 / 2 /\
              baseY p = INR (snd c) - INR 3 / 2)
         (particles e0).
Proof.
  apply (no_text_falls_back_to_centre defaultConfig "A" blankImage 6 3
           zeroDraws); [lia | lia |].
  intros c _ H. unfold textCell, blankImage in H. simpl in H. discriminate.
Defined.

(** ** The physics of one resolved pair *)

(** [collide] on a pair that passes the overlap test: the positions. *)
Lemma collide_positions p1 p2 :
  colliding p1 p2 ->
  let n := normalOf p1 p2 in
  let d := sqrt (centreDistSq p1 p2) in
  let overlap := b_radius p1 + b_radius p2 - d in
  let M := b_mass p1 + b_mass p2 in
  let q := collide p1 p2 in
  b_x (fst q) = b_x p1 - fst n * overlap * 0.5 * 2 * (b_mass p2 / M) /\
  b_y (fst q) = b_y p1 - snd n * overlap * 0.5 * 2 * (b_mass p2 / M) /\
  b_x (snd q) = b_x p2 + fst n * overlap * 0.5 * 2 * (b_mass p1 / M) /\
  b_y (snd q) = b_y p2 + snd n * overlap * 0.5 * 2 * (b_mass p1 / M) /\
  b_mass (fst q) = b_mass p1 /\ b_mass (snd q) = b_mass p2 /\
  b_radius (fst q) = b_radius p1 /\ b_radius (snd q) = b_radius p2.
Proof.
  intros [Hc1 Hc2]. cbv zeta. unfold collide.
  apply Rltb_true in Hc1. apply Rltb_true in Hc2.
  cbv zeta. rewrite Hc1, Hc2. clear Hc1 Hc2. cbn [andb].
  unfold normalOf, centreDistSq. cbv zeta. cbn [fst snd].
  destruct (Rltb _ _); cbn [fst snd b_x b_y b_mass b_radius];
    repeat split; reflexivity.
Qed.

(** X7.  For a pair that passes the overlap test, with positive masses,
    the position correction removes the overlap exactly: after it the
    centres are at the distance [radius1 + radius2]; and it leaves the
    centre of mass of the pair where it was. *)
Theorem collision_separates_the_pair p1 p2 :
  colliding p1 p2 ->
  0 < b_mass p1 -> 0 < b_mass p2 ->
  0 <= b_radius p1 + b_radius p2 ->
  let q := collide p1 p2 in
  sqrt (centreDistSq (fst q) (snd q)) = b_radius p1 + b_radius p2 /\
  b_mass p1 * b_x (fst q) + b_mass p2 * b_x (snd q) =
    b_mass p1 * b_x p1 + b_mass p2 * b_x p2 /\
  b_mass p1 * b_y (fst q) + b_mass p2 * b_y (snd q) =
    b_mass p1 * b_y p1 + b_mass p2 * b_y p2.
Proof.
  intros Hc Hm1 Hm2 Hr. cbv zeta.
  destruct (collide_positions p1 p2 Hc)
    as (X1 & Y1 & X2 & Y2 & _). cbv zeta in X1, Y1, X2, Y2.
  pose proof (normalOf_unit p1 p2 Hc) as Hu.
  assert (Hn : b_x p2 - b_x p1 =
               fst (normalOf p1 p2) * sqrt (centreDistSq p1 p2) /\
               b_y p2 - b_y p1 =
               snd (normalOf p1 p2) * sqrt (centreDistSq p1 p2)).
  { destruct Hc as [_ Hc]. unfold normalOf, centreDistSq. cbv zeta.
    cbn [fst snd].
    assert (0 < sqrt ((b_x p2 - b_x p1) * (b_x p2 - b_x p1) +
                      (b_y p2 - b_y p1) * (b_y p2 - b_y p1)))
      as Hpos by (apply sqrt_lt_R0; lra).
    set (d0 := sqrt _) in *. split; field; lra. }
  destruct Hn as [Hnx Hny].
  set (n := normalOf p1 p2) in *. set (d := sqrt (centreDistSq p1 p2)) in *.
  destruct n as [nx ny]. cbn [fst snd] in *.
  set (q := collide p1 p2) in *.
  set (R0 := b_radius p1 + b_radius p2) in *.
  assert (HM : b_mass p1 + b_mass p2 <> 0) by lra.
  assert (Hh : 0.5 = / 2) by lra.
  rewrite Hh in X1, Y1, X2, Y2.
  assert (Dx : b_x (snd q) - b_x (fst q) = nx * R0).
  { rewrite X1, X2.
    transitivity ((b_x p2 - b_x p1) + nx * (R0 - d));
      [field; exact HM | rewrite Hnx; ring]. }
  assert (Dy : b_y (snd q) - b_y (fst q) = ny * R0).
  { rewrite Y1, Y2.
    transitivity ((b_y p2 - b_y p1) + ny * (R0 - d));
      [field; exact HM | rewrite Hny; ring]. }
  split; [|split].
  - unfold centreDistSq. rewrite Dx, Dy.
    replace (nx * R0 * (nx * R0) + ny * R0 * (ny * R0))
      with ((nx * nx + ny * ny) * (R0 * R0)) by ring.
    rewrite Hu, Rmult_1_l. now apply sqrt_square.
  - rewrite X1, X2. field. exact HM.
  - rewrite Y1, Y2. field. exact HM.
Qed.

Lemma collide_apart p1 p2 : ~ colliding p1 p2 -> collide p1 p2 = (p1, p2).
Proof.
  intros H. unfold collide. cbv zeta.
  destruct (Rltb _ (_ * _)) eqn:E1; [|reflexivity].
  destruct (Rltb 0.001 _) eqn:E2; [|reflexivity].
  elim H. apply Rltb_true in E1. apply Rltb_true in E2.
  unfold colliding. cbv zeta. now split.
Qed.

(** The change of the normal speeds in the exchange, in closed form. *)
Lemma exchange_changes (m1 m2 v1n v2n : R) :
  m1 + m2 <> 0 ->
  (v1n * (m1 - m2) + 2 * m2 * v2n) / (m1 + m2) - v1n =
    - (2 * m2 * (v1n - v2n) / (m1 + m2)) /\
  (v2n * (m2 - m1) + 2 * m1 * v1n) / (m1 + m2) - v2n =
    2 * m1 * (v1n - v2n) / (m1 + m2).
Proof. intros H. split; field; exact H. Qed.

(** X8.  Resolving a pair never changes its total momentum, whatever the
    masses (positive), the damping and the case taken, and never changes a
    mass or a radius. *)
Theorem collision_conserves_momentum p1 p2 :
  0 < b_mass p1 -> 0 < b_mass p2 ->
  let q := collide p1 p2 in
  b_mass (fst q) * b_vx (fst q) + b_mass (snd q) * b_vx (snd q) =
    b_mass p1 * b_vx p1 + b_mass p2 * b_vx p2 /\
  b_mass (fst q) * b_vy (fst q) + b_mass (snd q) * b_vy (snd q) =
    b_mass p1 * b_vy p1 + b_mass p2 * b_vy p2 /\
  b_mass (fst q) = b_mass p1 /\ b_mass (snd q) = b_mass p2 /\
  b_radius (fst q) = b_radius p1 /\ b_radius (snd q) = b_radius p2.
Proof.
  intros Hm1 Hm2. cbv zeta.
  assert (Hd : colliding p1 p2 \/ ~ colliding p1 p2).
  { unfold colliding. cbv zeta.
    destruct (Rlt_dec ((b_x p2 - b_x p1) * (b_x p2 - b_x p1) +
                       (b_y p2 - b_y p1) * (b_y p2 - b_y p1))
                ((b_radius p1 + b_radius p2) * (b_radius p1 + b_radius p2)));
    destruct (Rlt_dec 0.001 ((b_x p2 - b_x p1) * (b_x p2 - b_x p1) +
                             (b_y p2 - b_y p1) * (b_y p2 - b_y p1)));
      tauto. }
  destruct Hd as [Hc | Hn].
  2:{ rewrite (collide_apart p1 p2 Hn). cbn [fst snd]. now repeat split. }
  destruct (collide_positions p1 p2 Hc) as (_ & _ & _ & _ & M1 & M2 & R1 & R2).
  destruct (collide_velocities p1 p2 Hc) as [Hsep Happ].
  cbv zeta in *. rewrite M1, M2.
  split; [|split; [|now repeat split]].
  - destruct (Rlt_dec (normalSpeed (normalOf p1 p2) p1)
                      (normalSpeed (normalOf p1 p2) p2)) as [Hlt | Hge].
    + destruct (Hsep Hlt) as (-> & _ & -> & _). reflexivity.
    + destruct (Happ (Rnot_lt_le _ _ Hge)) as (-> & _ & -> & _).
      destruct (exchange_changes (b_mass p1) (b_mass p2)
                  (normalSpeed (normalOf p1 p2) p1)
                  (normalSpeed (normalOf p1 p2) p2)) as [-> ->]; [lra|].
      field. lra.
  - destruct (Rlt_dec (normalSpeed (normalOf p1 p2) p1)
                      (normalSpeed (normalOf p1 p2) p2)) as [Hlt | Hge].
    + destruct (Hsep Hlt) as (_ & -> & _ & ->). reflexivity.
    + destruct (Happ (Rnot_lt_le _ _ Hge)) as (_ & -> & _ & ->).
      destruct (exchange_changes (b_mass p1) (b_mass p2)
                  (normalSpeed (normalOf p1 p2) p1)
                  (normalSpeed (normalOf p1 p2) p2)) as [-> ->]; [lra|].
      field. lra.
Qed.

(** X9.  Resolving an overlapping pair never adds kinetic energy: when the
    two are separating the velocities, and so the energy, are as before;
    when they are approaching at the relative normal speed [r], twice the
    kinetic energy drops by exactly
    [4 * 0.85 * (1 - 0.85) * m1 * m2 / (m1 + m2) * r * r]. *)
Theorem collision_dissipates_energy p1 p2 :
  colliding p1 p2 ->
  0 < b_mass p1 -> 0 < b_mass p2 ->
  let n := normalOf p1 p2 in
  let r := normalSpeed n p1 - normalSpeed n p2 in
  let q := collide p1 p2 in
  (r < 0 -> pairEnergy (fst q) (snd q) = pairEnergy p1 p2) /\
  (0 <= r ->
   pairEnergy (fst q) (snd q) =
   pairEnergy p1 p2 -
   4 * COLLISION_DAMPING * (1 - COLLISION_DAMPING) *
   (b_mass p1 * b_mass p2 / (b_mass p1 + b_mass p2)) * (r * r)) /\
  pairEnergy (fst q) (snd q) <= pairEnergy p1 p2.
Proof.
  intros Hc Hm1 Hm2. cbv zeta.
  destruct (collide_positions p1 p2 Hc) as (_ & _ & _ & _ & M1 & M2 & _).
  destruct (collide_velocities p1 p2 Hc) as [Hsep Happ].
  pose proof (normalOf_unit p1 p2 Hc) as Hu.
  cbv zeta in *.
  set (n := normalOf p1 p2) in *. set (q := collide p1 p2) in *.
  assert (Esep : normalSpeed n p1 - normalSpeed n p2 < 0 ->
                 pairEnergy (fst q) (snd q) = pairEnergy p1 p2).
  { intros Hr. destruct (Hsep ltac:(lra)) as (A1 & A2 & A3 & A4).
    unfold pairEnergy. now rewrite M1, M2, A1, A2, A3, A4. }
  assert (Eapp : 0 <= normalSpeed n p1 - normalSpeed n p2 ->
     pairEnergy (fst q) (snd q) =
     pairEnergy p1 p2 -
     4 * COLLISION_DAMPING * (1 - COLLISION_DAMPING) *
     (b_mass p1 * b_mass p2 / (b_mass p1 + b_mass p2)) *
     ((normalSpeed n p1 - normalSpeed n p2) *
      (normalSpeed n p1 - normalSpeed n p2))).
  { intros Hr. destruct (Happ ltac:(lra)) as (A1 & A2 & A3 & A4).
    destruct (exchange_changes (b_mass p1) (b_mass p2)
                (normalSpeed n p1) (normalSpeed n p2)) as [E1 E2]; [lra|].
    rewrite E1 in A1, A2. rewrite E2 in A3, A4.
    unfold pairEnergy. rewrite M1, M2, A1, A2, A3, A4.
    unfold normalSpeed in *. destruct n as [nx ny]. cbn [fst snd] in *.
    set (c := COLLISION_DAMPING).
    set (m1 := b_mass p1) in *. set (m2 := b_mass p2) in *.
    set (r := b_vx p1 * nx + b_vy p1 * ny - (b_vx p2 * nx + b_vy p2 * ny)).
    set (k1 := 2 * m2 * r / (m1 + m2)). set (k2 := 2 * m1 * r / (m1 + m2)).
    transitivity
      (m1 * (b_vx p1 * b_vx p1 + b_vy p1 * b_vy p1) +
       m2 * (b_vx p2 * b_vx p2 + b_vy p2 * b_vy p2) +
       2 * c * (m2 * k2 * (b_vx p2 * nx + b_vy p2 * ny) -
                m1 * k1 * (b_vx p1 * nx + b_vy p1 * ny)) +
       c * c * (m1 * k1 * k1 + m2 * k2 * k2) * (nx * nx + ny * ny));
      [ring|].
    rewrite Hu. unfold k1, k2, r. field. lra. }
  split; [exact Esep|]. split; [exact Eapp|].
  destruct (Rlt_dec (normalSpeed n p1 - normalSpeed n p2) 0) as [Hr | Hr].
  - rewrite (Esep Hr). lra.
  - rewrite (Eapp (Rnot_lt_le _ _ Hr)).
    assert (0 <= 4 * COLLISION_DAMPING * (1 - COLLISION_DAMPING))
      by (unfold COLLISION_DAMPING; lra).
    assert (0 < b_mass p1 * b_mass p2 / (b_mass p1 + b_mass p2)).
    { apply Rdiv_lt_0_compat; [now apply Rmult_lt_0_compat | lra]. }
    pose proof (Rle_0_sqr (normalSpeed n p1 - normalSpeed n p2)) as Hsq.
    unfold Rsqr in Hsq.
    assert (0 <= 4 * COLLISION_DAMPING * (1 - COLLISION_DAMPING) *
                 (b_mass p1 * b_mass p2 / (b_mass p1 + b_mass p2)) *
                 ((normalSpeed n p1 - normalSpeed n p2) *
                  (normalSpeed n p1 - normalSpeed n p2))).
    { apply Rmult_le_pos; [apply Rmult_le_pos; lra | exact Hsq]. }
    lra.
Qed.

Lemma collision_separates_the_pair_witness :
  let q := collide leftBody rightBody in
  sqrt (centreDistSq (fst q) (snd q)) =
    b_radius leftBody + b_radius rightBody /\
  b_mass leftBody * b_x (fst q) + b_mass rightBody * b_x (snd q) =
    b_mass leftBody * b_x leftBody + b_mass rightBody * b_x rightBody /\
  b_mass leftBody * b_y (fst q) + b_mass rightBody * b_y (snd q) =
    b_mass leftBody * b_y leftBody + b_mass rightBody * b_y rightBody.
Proof.
  apply (collision_separates_the_pair leftBody rightBody).
  - unfold colliding, leftBody, rightBody. simpl. lra.
  - simpl. lra.
  - simpl. lra.
  - simpl. lra.
Defined.

Lemma collision_conserves_momentum_witness :
  let q := collide leftBody rightBody in
  b_mass (fst q) * b_vx (fst q) + b_mass (snd q) * b_vx (snd q) =
    b_mass leftBody * b_vx leftBody + b_mass rightBody * b_vx rightBody /\
  b_mass (fst q) * b_vy (fst q) + b_mass (snd q) * b_vy (snd q) =
    b_mass leftBody * b_vy leftBody + b_mass rightBody * b_vy rightBody /\
  b_mass (fst q) = b_mass leftBody /\ b_mass (snd q) = b_mass rightBody /\
  b_radius (fst q) = b_radius leftBody /\
  b_radius (snd q) = b_radius rightBody.
Proof.
  apply (collision_conserves_momentum leftBody rightBody); simpl; lra.
Defined.

Lemma collision_dissipates_energy_witness :
  let n := normalOf leftBody rightBody in
  let r := normalSpeed n leftBody - normalSpeed n rightBody in
  let q := collide leftBody rightBody in
  (r < 0 -> pairEnergy (fst q) (snd q) = pairEnergy leftBody rightBody) /\
  (0 <= r ->
   pairEnergy (fst q) (snd q) =
   pairEnergy leftBody rightBody -
   4 * COLLISION_DAMPING * (1 - COLLISION_DAMPING) *
   (b_mass leftBody * b_mass rightBody /
    (b_mass leftBody + b_mass rightBody)) * (r * r)) /\
  pairEnergy (fst q) (snd q) <= pairEnergy leftBody rightBody.
Proof.
  apply (collision_dissipates_energy leftBody rightBody).
  - unfold colliding, leftBody, rightBody. simpl. lra.
  - simpl. lra.
  - simpl. lra.
Defined.

(** ** A canvas without overlaps *)

Lemma update_same {A} (f : A -> A) (l : list A) :
  forall i a, nth_error l i = Some a -> f a = a -> update i f l = l.
Proof.
  induction l as [|a0 l IH]; intros [|i] a E Hf; simpl in *;
    try discriminate.
  - injection E as ->. now rewrite Hf.
  - f_equal. eapply IH; eassumption.
Qed.

Lemma writeBody_same st i b : readBody st i = Some b -> writeBody st i b = st.
Proof.
  unfold readBody, writeBody. destruct st as [ps ambs]. cbn [fst snd].
  destruct (i <? List.length ps)%nat.
  - destruct (nth_error ps i) as [p|] eqn:E; [|discriminate].
    intros H. injection H as <-.
    rewrite (update_same _ ps i p E); [reflexivity | apply putParticle_body].
  - destruct (nth_error ambs (i - List.length ps)) as [a|] eqn:E;
      [|discriminate].
    intros H. injection H as <-.
    rewrite (update_same _ ambs _ a E); [reflexivity | apply putAmbient_body].
Qed.

Lemma fold_left_fixed {A B} (f : B -> A -> B) (l : list A) (b : B) :
  (forall a, f b a = b) -> fold_left f l b = b.
Proof.
  intros H. induction l as [|a l IH]; simpl; [reflexivity|].
  now rewrite H.
Qed.

Lemma readBody_in_range st j b :
  readBody st j = Some b -> (j < storeSize st)%nat.
Proof.
  unfold readBody, storeSize.
  destruct (Nat.ltb_spec j (List.length (fst st))); [lia|].
  destruct (nth_error (snd st) (j - List.length (fst st))) eqn:E;
    [|discriminate].
  intros _. assert (nth_error (snd st) (j - List.length (fst st)) <> None)
    by congruence.
  apply nth_error_Some in H0. lia.
Qed.

Lemma lone_object_free st :
  (storeSize st <= 1)%nat ->
  forall i j p1 p2, i <> j ->
    readBody st i = Some p1 -> readBody st j = Some p2 ->
    ~ colliding p1 p2.
Proof.
  intros Hs i j p1 p2 Hij E1 E2.
  apply readBody_in_range in E1, E2. lia.
Qed.

(** Without overlap the scan around one object writes nothing, whatever
    the grid holds. *)
Lemma resolveParticle_free grid st i :
  (forall i j p1 p2, i <> j ->
     readBody st i = Some p1 -> readBody st j = Some p2 ->
     ~ colliding p1 p2) ->
  resolveParticle grid st i = st.
Proof.
  intros Hfree. unfold resolveParticle.
  destruct (readBody st i) as [p1|] eqn:E1; [|reflexivity].
  destruct (cellOf p1) as [cellX cellY].
  apply fold_left_fixed. intros ox.
  apply fold_left_fixed. intros oy.
  destruct (grid_get _ _) as [cell|]; [|reflexivity].
  apply fold_left_fixed. intros j. unfold resolvePair.
  destruct (Nat.eqb_spec i j) as [|Hij]; [reflexivity|].
  rewrite E1. destruct (readBody st j) as [p2|] eqn:E2; [|reflexivity].
  rewrite (collide_apart p1 p2 (Hfree i j p1 p2 Hij E1 E2)).
  rewrite (writeBody_same st i p1 E1). now apply writeBody_same.
Qed.

Lemma resolveCollisions_free st :
  (forall i j p1 p2, i <> j ->
     readBody st i = Some p1 -> readBody st j = Some p2 ->
     ~ colliding p1 p2) ->
  resolveCollisions st = st.
Proof.
  intros Hfree. unfold resolveCollisions.
  apply fold_left_fixed. intros i. now apply resolveParticle_free.
Qed.

(** X10.  When no two objects pass the overlap test, the collision
    resolver changes nothing: no position, no velocity. *)
Theorem no_overlap_no_change st :
  (forall i j p1 p2, i <> j ->
     readBody st i = Some p1 -> readBody st j = Some p2 ->
     ~ colliding p1 p2) ->
  resolveCollisions st = st.
Proof.
  intros Hfree. unfold resolveCollisions.
  generalize (populate st). intros grid.
  induction (seq 0 (storeSize st)) as [|i idx IH]; [reflexivity|].
  cbn [fold_left]. rewrite (resolveParticle_free grid st i Hfree).
  exact IH.
Qed.

Lemma no_overlap_no_change_witness : resolveCollisions apartStore = apartStore.
Proof.
  apply (no_overlap_no_change apartStore).
  intros i j p1 p2 Hij E1 E2.
  pose proof (readBody_in_range _ _ _ E1) as H1.
  pose proof (readBody_in_range _ _ _ E2) as H2.
  cbn in H1, H2.
  assert (Hc : (i = 0 /\ j = 1)%nat \/ (i = 1 /\ j = 0)%nat) by lia.
  destruct Hc as [[-> ->]|[-> ->]];
    cbn in E1, E2; injection E1 as <-; injection E2 as <-;
    unfold colliding; cbn; unfold TEXT_RADIUS; lra.
Defined.

(** ** The spatial grid *)

Lemma key_eqb_spec (a b : Key) : reflect (a = b) (key_eqb a b).
Proof.
  destruct a as [a1 a2], b as [b1 b2]. unfold key_eqb. cbn [fst snd].
  destruct (Z.eqb_spec a1 b1), (Z.eqb_spec a2 b2); constructor; congruence.
Qed.

Lemma eq_sym_key (a b : Key) : key_eqb a b = key_eqb b a.
Proof.
  destruct (key_eqb_spec a b), (key_eqb_spec b a); congruence.
Qed.

Lemma grid_get_push g k i k' :
  grid_get (grid_push g k i) k' =
  if key_eqb k' k
  then Some (match grid_get g k with Some l => l ++ [i] | None => [i] end)
  else grid_get g k'.
Proof.
  induction g as [|[k0 l0] g IH]; simpl.
  - destruct (key_eqb k' k); reflexivity.
  - destruct (key_eqb_spec k k0) as [->|Hk]; simpl.
    + destruct (key_eqb_spec k' k0); reflexivity.
    + rewrite IH. destruct (key_eqb_spec k' k0) as [->|Hk'].
      * destruct (key_eqb_spec k0 k); [congruence | reflexivity].
      * destruct (key_eqb_spec k' k); reflexivity.
Qed.

Lemma populate_fold_spec st k idx :
  forall g,
    grid_get
      (fold_left
         (fun g i => match readBody st i with
                     | Some b => grid_push g (cellOf b) i
                     | None => g
                     end) idx g) k =
    match grid_get g k, cellMembers st k idx with
    | None, [] => None
    | None, l => Some l
    | Some l0, l => Some (l0 ++ l)
    end.
Proof.
  induction idx as [|i idx IH]; intros g; simpl.
  - destruct (grid_get g k); [now rewrite app_nil_r | reflexivity].
  - rewrite IH. destruct (readBody st i) as [b|].
    + rewrite grid_get_push. rewrite (eq_sym_key k (cellOf b)).
      destruct (key_eqb_spec (cellOf b) k) as [->|Hk].
      * destruct (grid_get g k);
          [now rewrite <- app_assoc | reflexivity].
      * reflexivity.
    + reflexivity.
Qed.

Lemma populate_spec st k :
  grid_get (populate st) k =
  match cellMembers st k (seq 0 (storeSize st)) with
  | [] => None
  | l => Some l
  end.
Proof.
  unfold populate. rewrite populate_fold_spec. reflexivity.
Qed.

(** X11.  The grid that [draw] builds maps a key to the indices of exactly
    the objects whose cell it is, in their order in [allParticles]; a key of
    no object is absent. *)
Theorem grid_holds_each_cell st k :
  grid_get (populate st) k =
  match cellMembers st k (seq 0 (storeSize st)) with
  | [] => None
  | l => Some l
  end.
Proof.
  unfold populate. rewrite populate_fold_spec.
  cbn [grid_get]. reflexivity.
Qed.

Lemma Int_part_near a b :
  Rabs (a - b) < 1 -> (Z.abs (Int_part a - Int_part b) <= 1)%Z.
Proof.
  intros H.
  destruct (base_Int_part a) as [A1 A2]. destruct (base_Int_part b) as [B1 B2].
  apply Rabs_def2 in H as [H1 H2].
  assert (L1 : IZR (Int_part a) < IZR (Int_part b + 2)).
  { rewrite plus_IZR. lra. }
  assert (L2 : IZR (Int_part b) < IZR (Int_part a + 2)).
  { rewrite plus_IZR. lra. }
  apply lt_IZR in L1, L2. lia.
Qed.

(** Two objects less than a cell apart on an axis lie in the same or in
    neighbouring cells on that axis. *)
Lemma cells_adjacent p1 p2 :
  Rabs (b_x p2 - b_x p1) < CELL_SIZE ->
  Rabs (b_y p2 - b_y p1) < CELL_SIZE ->
  exists ox oy,
    In ox offsets /\ In oy offsets /\
    cellOf p2 = ((fst (cellOf p1) + ox)%Z, (snd (cellOf p1) + oy)%Z).
Proof.
  intros Hx Hy. unfold cellOf. cbn [fst snd].
  assert (Ax : (Z.abs (Int_part (b_x p2 / CELL_SIZE) -
                       Int_part (b_x p1 / CELL_SIZE)) <= 1)%Z).
  { apply Int_part_near. unfold CELL_SIZE in *.
    replace (b_x p2 / 6 - b_x p1 / 6) with ((b_x p2 - b_x p1) / 6)
      by (field; lra).
    unfold Rdiv. rewrite Rabs_mult, (Rabs_right (/ 6)) by lra. lra. }
  assert (Ay : (Z.abs (Int_part (b_y p2 / CELL_SIZE) -
                       Int_part (b_y p1 / CELL_SIZE)) <= 1)%Z).
  { apply Int_part_near. unfold CELL_SIZE in *.
    replace (b_y p2 / 6 - b_y p1 / 6) with ((b_y p2 - b_y p1) / 6)
      by (field; lra).
    unfold Rdiv. rewrite Rabs_mult, (Rabs_right (/ 6)) by lra. lra. }
  exists (Int_part (b_x p2 / CELL_SIZE) - Int_part (b_x p1 / CELL_SIZE))%Z,
         (Int_part (b_y p2 / CELL_SIZE) - Int_part (b_y p1 / CELL_SIZE))%Z.
  unfold offsets. split; [|split].
  - simpl. lia.
  - simpl. lia.
  - f_equal; lia.
Qed.

Lemma colliding_close p1 p2 :
  colliding p1 p2 ->
  0 <= b_radius p1 + b_radius p2 <= CELL_SIZE ->
  Rabs (b_x p2 - b_x p1) < CELL_SIZE /\ Rabs (b_y p2 - b_y p1) < CELL_SIZE.
Proof.
  intros [Hc _] [Hr0 Hr]. cbv zeta in Hc. unfold CELL_SIZE in *.
  set (dx := b_x p2 - b_x p1) in *. set (dy := b_y p2 - b_y p1) in *.
  set (m := b_radius p1 + b_radius p2) in *.
  assert (Hm : m * m <= 36) by nra.
  split; apply Rabs_def1; nra.
Qed.

(** X12.  The scan of the nine cells around an object reaches every object
    that overlaps it: if the objects of indices [i] and [j] pass the overlap
    test as they stand when the grid is built, and the sum of their radii is
    at most the cell size 6, then [j] is in the cell list of one of the nine
    keys around the cell of [i]. *)
Theorem scan_reaches_every_overlap st i j p1 p2 :
  readBody st i = Some p1 ->
  readBody st j = Some p2 ->
  colliding p1 p2 ->
  0 <= b_radius p1 + b_radius p2 <= CELL_SIZE ->
  exists ox oy cellParticles,
    In ox offsets /\ In oy offsets /\
    grid_get (populate st)
      ((fst (cellOf p1) + ox)%Z, (snd (cellOf p1) + oy)%Z) =
      Some cellParticles /\
    In j cellParticles.
Proof.
  intros E1 E2 Hc Hr.
  pose proof (readBody_in_range st j p2 E2) as Hj.
  destruct (colliding_close p1 p2 Hc Hr) as [Hx Hy].
  destruct (cells_adjacent p1 p2 Hx Hy) as (ox & oy & Hox & Hoy & Hk).
  assert (Hin : In j (cellMembers st (cellOf p2) (seq 0 (storeSize st)))).
  { unfold cellMembers. apply filter_In. split.
    - apply in_seq. lia.
    - rewrite E2. now destruct (key_eqb_spec (cellOf p2) (cellOf p2)). }
  exists ox, oy, (cellMembers st (cellOf p2) (seq 0 (storeSize st))).
  split; [assumption|]. split; [assumption|]. rewrite <- Hk.
  split; [|exact Hin].
  rewrite populate_spec.
  destruct (cellMembers st (cellOf p2) (seq 0 (storeSize st)));
    [destruct Hin | reflexivity].
Qed.

Lemma scan_reaches_every_overlap_witness :
  exists ox oy cellParticles,
    In ox offsets /\ In oy offsets /\
    grid_get (populate crowdedStore)
      ((fst (cellOf (bodyOfParticle displacedParticle)) + ox)%Z,
       (snd (cellOf (bodyOfParticle displacedParticle)) + oy)%Z) =
      Some cellParticles /\
    In 1%nat cellParticles.
Proof.
  apply (scan_reaches_every_overlap crowdedStore 0 1
           (bodyOfParticle displacedParticle)
           (bodyOfParticle crowdingParticle)).
  - reflexivity.
  - reflexivity.
  - unfold colliding. cbn. unfold TEXT_RADIUS. lra.
  - cbn. unfold TEXT_RADIUS, CELL_SIZE. lra.
Defined.

(** ** The wave list between ticks *)

Lemma draw_since cfg mouse rafTime e g :
  timeSinceLastWave (fst (draw cfg mouse rafTime e g)) =
  if paused cfg then timeSinceLastWave e
  else snd (scheduleWaves cfg (frameDelta rafTime e) (width e) (height e)
              (waves e) (timeSinceLastWave e)).
Proof.
  unfold draw, frameDelta.
  destruct (paused cfg);
    cbv beta zeta iota delta [bind ret fst snd];
    repeat match goal with |- context [mapM ?f ?l ?g0] =>
      destruct (mapM f l g0) as [? ?] end;
    reflexivity.
Qed.

Lemma dropDead_length bound ws :
  (List.length (dropDead bound ws) <= List.length ws)%nat.
Proof.
  induction ws as [|w ws IH]; simpl; [lia|].
  destruct (Rltb bound (wave_radius w)); simpl; lia.
Qed.

Lemma first_frame_delta rafTime e :
  lastRafTime e = 0 -> frameDelta rafTime e = 0.
Proof.
  intros H. unfold frameDelta. rewrite H.
  replace (Reqb 0 0) with true by (symmetry; now apply Reqb_true). lra.
Qed.

(** X13.  In a tick that is not paused, with a frame delta and a time since
    the last wave that are not negative: the wave list is not empty after
    the tick (without a wave one is spawned at once, at radius 0, and the
    counter restarts); the list grows by at most one wave; and the counter
    after the tick is 0 or at most the wave interval, and not negative. *)
Theorem wave_list_never_empties cfg mouse rafTime e g :
  paused cfg = false ->
  0 <= frameDelta rafTime e ->
  0 <= timeSinceLastWave e ->
  let e' := fst (draw cfg mouse rafTime e g) in
  waves e' <> [] /\
  (waves e = [] ->
   waves e' = [ {| wave_radius := 0 |} ] /\ timeSinceLastWave e' = 0) /\
  (List.length (waves e') <= S (List.length (waves e)))%nat /\
  0 <= timeSinceLastWave e' /\
  (timeSinceLastWave e' = 0 \/ timeSinceLastWave e' <= waveInterval cfg).
Proof.
  intros Hp Hd Hs. cbv zeta.
  destruct (draw_unfold cfg mouse rafTime e g) as (_ & _ & -> & _).
  rewrite draw_since. unfold frameWaves. rewrite Hp.
  unfold scheduleWaves.
  set (delta := frameDelta rafTime e) in *.
  set (kept := dropDead _ (advanceWaves delta (waveSpeed cfg) (waves e))).
  assert (Hk : (List.length kept <= List.length (waves e))%nat).
  { unfold kept. etransitivity; [apply dropDead_length|].
    unfold advanceWaves. now rewrite length_map. }
  unfold spawnWave. cbv zeta.
  assert (Hb : Rleb delta (timeSinceLastWave e + delta) = true)
    by (apply Rleb_true; lra).
  rewrite Hb, andb_true_r.
  destruct kept as [|w kept'] eqn:Ek; cbn [List.length Nat.eqb].
  - cbn [fst snd app List.length]. repeat split; try discriminate;
      try lra; try lia; now left.
  - split; [|split].
    + destruct (Rltb _ _); cbn [fst]; [destruct kept'|]; discriminate.
    + intros E0. rewrite E0 in Hk. simpl in Hk. lia.
    + destruct (Rltb (waveInterval cfg) _) eqn:Ei; cbn [fst snd].
      * rewrite length_app. cbn [List.length] in *.
        repeat split; try lia; try lra; now left.
      * apply Rltb_false in Ei. cbn [List.length] in *.
        repeat split; try lia; try lra; now right.
Qed.

Lemma wave_list_never_empties_witness :
  let e' := fst (draw introConfig idleMouse 1000 introEngine zeroDraws) in
  waves e' <> [] /\
  (waves introEngine = [] ->
   waves e' = [ {| wave_radius := 0 |} ] /\ timeSinceLastWave e' = 0) /\
  (List.length (waves e') <= S (List.length (waves introEngine)))%nat /\
  0 <= timeSinceLastWave e' /\
  (timeSinceLastWave e' = 0 \/
   timeSinceLastWave e' <= waveInterval introConfig).
Proof.
  apply (wave_list_never_empties introConfig idleMouse 1000 introEngine
           zeroDraws).
  - reflexivity.
  - rewrite first_frame_delta; [lra | reflexivity].
  - simpl. lra.
Defined.

(** ** Angles: [Math.atan2] gives back the direction *)

Lemma hypot_sqr a b : hypot a b * hypot a b = a * a + b * b.
Proof. unfold hypot. apply sqrt_sqrt. nra. Qed.

Lemma hypot_nonneg a b : 0 <= hypot a b.
Proof. unfold hypot. apply sqrt_pos. Qed.

Lemma hypot_pos a b : a <> 0 \/ b <> 0 -> 0 < hypot a b.
Proof.
  intros H. unfold hypot. apply sqrt_lt_R0.
  destruct H as [H|H]; nra.
Qed.

Lemma sqrt_one_plus_ratio x y :
  x <> 0 -> sqrt (1 + (y / x)²) = hypot x y / Rabs x.
Proof.
  intros Hx.
  assert (Ha : 0 < Rabs x) by now apply Rabs_pos_lt.
  assert (Hh : 0 < hypot x y) by (apply hypot_pos; now left).
  apply sqrt_lem_1.
  - unfold Rsqr. assert (0 <= y / x * (y / x)) by nra. lra.
  - apply Rlt_le, Rdiv_lt_0_compat; assumption.
  - unfold Rsqr.
    replace (hypot x y / Rabs x * (hypot x y / Rabs x))
      with (hypot x y * hypot x y / (Rabs x * Rabs x)) by (field; lra).
    rewrite hypot_sqr.
    replace (Rabs x * Rabs x) with (x * x)
      by (unfold Rabs; destruct (Rcase_abs x); ring).
    field. exact Hx.
Qed.

(** The polar coordinate [(hypot x y, atan2 y x)] is the point (x, y). *)
Lemma atan2_polar x y :
  hypot x y * cos (atan2 y x) = x /\ hypot x y * sin (atan2 y x) = y.
Proof.
  unfold atan2.
  destruct (Rlt_dec 0 x) as [Hx|Hx].
  - rewrite cos_atan, sin_atan, sqrt_one_plus_ratio by lra.
    rewrite (Rabs_right x) by lra.
    assert (0 < hypot x y) by (apply hypot_pos; left; lra).
    split; field; lra.
  - destruct (Rlt_dec x 0) as [Hx'|Hx'].
    + assert (0 < hypot x y) by (apply hypot_pos; left; lra).
      destruct (Rle_dec 0 y).
      * rewrite neg_cos, neg_sin, cos_atan, sin_atan,
          sqrt_one_plus_ratio by lra.
        rewrite (Rabs_left x) by lra. split; field; lra.
      * unfold Rminus. rewrite cos_plus, sin_plus, cos_neg, sin_neg,
          cos_PI, sin_PI, cos_atan, sin_atan, sqrt_one_plus_ratio by lra.
        rewrite (Rabs_left x) by lra. split; field; lra.
    + assert (x = 0) by lra. subst x.
      assert (Hy : hypot 0 y = Rabs y).
      { unfold hypot. replace (0 * 0 + y * y) with (y²)
          by (unfold Rsqr; ring). apply sqrt_Rsqr_abs. }
      rewrite Hy.
      destruct (Rlt_dec 0 y).
      * rewrite cos_PI2, sin_PI2, Rabs_right by lra. split; ring.
      * destruct (Rlt_dec y 0).
        -- rewrite cos_neg, sin_neg, cos_PI2, sin_PI2, Rabs_left by lra.
           split; ring.
        -- assert (y = 0) by lra. subst y. rewrite Rabs_R0. split; ring.
Qed.

(** X14.  The static polar coordinate of a mask particle gives back its
    pixel: [dist * cos(angle)] and [dist * sin(angle)] are the offsets of
    the particle's pixel from the wave origin.  So the direction
    [(cos(angle), sin(angle))] of the radial kick and of the bounce points
    from the wave origin to the particle's pixel. *)
Theorem radial_direction_points_outward cfg word imgData w h g :
  let e0 := fst (createMask cfg word imgData (initEngine w h) g) in
  Forall (fun p => exists gx gy,
            In (gx, gy) (gridCells w h) /\
            dist p * cos (angle p) = INR gx - fst (waveOrigin e0) /\
            dist p * sin (angle p) = INR gy - snd (waveOrigin e0) /\
            baseX p = INR gx - textCenterX w (scanBBox imgData w h) /\
            baseY p = INR gy - textCenterY h (scanBBox imgData w h))
         (particles e0).
Proof.
  cbv zeta. eapply Forall_impl; [|apply createMask_particles].
  intros p ([gx gy] & Hin & H). exists gx, gy.
  destruct H as (Hbx & Hby & _ & _ & _ & _ & Hd & Ha & _).
  cbn [fst snd] in *. rewrite Hd, Ha.
  destruct (atan2_polar (INR gx - fst (waveOrigin
              (fst (createMask cfg word imgData (initEngine w h) g))))
              (INR gy - snd (waveOrigin
              (fst (createMask cfg word imgData (initEngine w h) g)))))
    as [Hc Hs].
  repeat split; assumption.
Qed.

(** X15.  The pointer repulsion on a mask particle.  An inactive pointer,
    or one at the repulsion radius or farther, adds nothing.  Inside the
    radius the added kick points from the pointer to the particle: it is
    [acc * (dx, dy) / d] with [acc = (1 - d / radius)^3 * strength / mass],
    so its length is [acc].  The mass is positive, as the spawner makes
    it. *)
Theorem pointer_pushes_straight_away cfg mlx mly p kick :
  0 < mass p ->
  let dx := x p - mlx in
  let dy := y p - mly in
  let d := hypot dx dy in
  let acc := (1 - d / repulsionRadius cfg) ^ 3 * repulsionStrength cfg
             / mass p in
  let added := (fst (mouseKick cfg true mlx mly p kick) - fst kick,
                snd (mouseKick cfg true mlx mly p kick) - snd kick) in
  mouseKick cfg false mlx mly p kick = kick /\
  (repulsionRadius cfg <= d -> mouseKick cfg true mlx mly p kick = kick) /\
  (d < repulsionRadius cfg ->
   d * fst added = acc * dx /\ d * snd added = acc * dy /\
   fst added * fst added + snd added * snd added = acc * acc).
Proof.
  intros _. cbv zeta. split; [reflexivity|]. unfold mouseKick. cbv zeta. split.
  - intros H. apply Rltb_false in H. now rewrite H.
  - intros H. apply Rltb_true in H. rewrite H. cbn [fst snd].
    destruct (atan2_polar (x p - mlx) (y p - mly)) as [Hc Hs].
    set (a := atan2 (y p - mly) (x p - mlx)) in *.
    set (d := hypot (x p - mlx) (y p - mly)) in *.
    set (t := 1 - d / repulsionRadius cfg).
    replace (t ^ 3) with (t * t * t) by ring.
    set (acc := t * t * t * repulsionStrength cfg / mass p).
    pose proof (sin2_cos2 a) as Hu. unfold Rsqr in Hu.
    split; [|split].
    + transitivity (acc * (d * cos a)); [ring | now rewrite Hc].
    + transitivity (acc * (d * sin a)); [ring | now rewrite Hs].
    + transitivity (acc * acc * (sin a * sin a + cos a * cos a));
        [ring | rewrite Hu; ring].
Qed.

Lemma pointer_pushes_straight_away_witness :
  let dx := x displacedParticle - 9 in
  let dy := y displacedParticle - 0 in
  let d := hypot dx dy in
  let acc := (1 - d / repulsionRadius defaultConfig) ^ 3 *
             repulsionStrength defaultConfig / mass displacedParticle in
  let added :=
    (fst (mouseKick defaultConfig true 9 0 displacedParticle (0, 0)) -
     fst (0, 0),
     snd (mouseKick defaultConfig true 9 0 displacedParticle (0, 0)) -
     snd (0, 0)) in
  mouseKick defaultConfig false 9 0 displacedParticle (0, 0) = (0, 0) /\
  (repulsionRadius defaultConfig <= d ->
   mouseKick defaultConfig true 9 0 displacedParticle (0, 0) = (0, 0)) /\
  (d < repulsionRadius defaultConfig ->
   d * fst added = acc * dx /\ d * snd added = acc * dy /\
   fst added * fst added + snd added * snd added = acc * acc).
Proof.
  apply (pointer_pushes_straight_away defaultConfig 9 0 displacedParticle
           (0, 0)).
  simpl. lra.
Defined.

(** ** The size of a wave kick *)

Lemma smoothstep_range t :
  0 <= t <= 1 -> 0 <= t * t * (3 - 2 * t) <= 1.
Proof.
  intros [H0 H1]. split.
  - apply Rmult_le_pos; [nra | lra].
  - assert (E : 1 - t * t * (3 - 2 * t) = (1 - t) * (1 - t) * (1 + 2 * t))
      by ring.
    assert (0 <= (1 - t) * (1 - t) * (1 + 2 * t))
      by (apply Rmult_le_pos; [nra | lra]).
    lra.
Qed.

Lemma blend_bound c n mix :
  -1 <= c <= 1 -> -1 <= n <= 1 -> 0 <= mix <= 1 ->
  Rabs (c * (1 - mix) + n * mix) <= 1.
Proof.
  intros Hc Hn Hm. apply Rabs_le. split; nra.
Qed.

Lemma scaled_bound u k s :
  Rabs u <= 1 -> 0 <= s <= 1 -> Rabs (u * k * s) <= Rabs k.
Proof.
  intros Hu Hs. rewrite !Rabs_mult. rewrite (Rabs_right s) by lra.
  pose proof (Rabs_pos u). pose proof (Rabs_pos k).
  assert (Rabs u * Rabs k <= Rabs k) by nra. nra.
Qed.

(** X16.  What one wave adds to the kick of a particle, for a positive
    band thickness and draws in [[0, 1)].  Outside the band (the static
    distance at least one thickness away from the wave radius) it adds
    nothing and draws nothing.  Inside, each component of what it adds is at
    most [|radialKick|] for a background particle, and at most
    [|radialKick| + 1] for a text particle, whose bounce is at most 1. *)
Theorem wave_kick_is_bounded cfg time p kick w g :
  0 < waveThickness cfg ->
  unitDraws g ->
  let r := waveKick cfg time p kick w g in
  let bound := Rabs (radialKick cfg) + (if isText p then 1 else 0) in
  (waveThickness cfg <= Rabs (dist p - wave_radius w) ->
   r = (kick, g)) /\
  Rabs (fst (fst r) - fst kick) <= bound /\
  Rabs (snd (fst r) - snd kick) <= bound.
Proof.
  intros Hw Hd. cbv zeta. unfold waveKick. cbv zeta.
  destruct (Rleb (waveThickness cfg) _) eqn:Eb.
  - split; [reflexivity|]. unfold ret. cbn [fst snd].
    replace (fst kick - fst kick) with 0 by ring.
    replace (snd kick - snd kick) with 0 by ring.
    rewrite Rabs_R0. pose proof (Rabs_pos (radialKick cfg)).
    destruct (isText p); split; lra.
  - apply Rleb_false in Eb. split; [intros; lra|].
    set (bandDist := Rabs (dist p - wave_radius w)) in *.
    assert (Hb0 : 0 <= bandDist) by apply Rabs_pos.
    set (tBand := 1 - bandDist / waveThickness cfg).
    assert (Ht : 0 <= tBand <= 1).
    { unfold tBand.
      assert (0 <= bandDist / waveThickness cfg < 1).
      { split.
        - apply Rmult_le_pos; [assumption|].
          left. now apply Rinv_0_lt_compat.
        - apply (Rmult_lt_reg_r (waveThickness cfg)); [assumption|].
          unfold Rdiv. rewrite Rmult_assoc, Rinv_l by lra. lra. }
      lra. }
    pose proof (smoothstep_range tBand Ht) as Hsm.
    set (fade := clamp ((wave_radius w - MAIN_WAVE_MIN_RADIUS) / _) 0 1).
    assert (Hfade : 0 <= fade <= 1) by (apply clamp_range; lra).
    set (mix := clamp (noiseKick cfg) 0 1).
    assert (Hmix : 0 <= mix <= 1) by (apply clamp_range; lra).
    set (noiseAngle := phase p + time * 0.0007 + wave_radius w * 0.002).
    pose proof (COS_bound (angle p)) as Hc1.
    pose proof (SIN_bound (angle p)) as Hs1.
    pose proof (COS_bound noiseAngle) as Hc2.
    pose proof (SIN_bound noiseAngle) as Hs2.
    assert (Hfs : 0 <= fade * (tBand * tBand * (3 - 2 * tBand)) <= 1)
      by nra.
    assert (Fx : Rabs ((cos (angle p) * (1 - mix) + cos noiseAngle * mix) *
                       (radialKick cfg * fade) *
                       (tBand * tBand * (3 - 2 * tBand)))
                 <= Rabs (radialKick cfg)).
    { replace ((cos (angle p) * (1 - mix) + cos noiseAngle * mix) *
               (radialKick cfg * fade) * (tBand * tBand * (3 - 2 * tBand)))
        with ((cos (angle p) * (1 - mix) + cos noiseAngle * mix) *
              radialKick cfg *
              (fade * (tBand * tBand * (3 - 2 * tBand)))) by ring.
      apply scaled_bound; [now apply blend_bound | assumption]. }
    assert (Fy : Rabs ((sin (angle p) * (1 - mix) + sin noiseAngle * mix) *
                       (radialKick cfg * fade) *
                       (tBand * tBand * (3 - 2 * tBand)))
                 <= Rabs (radialKick cfg)).
    { replace ((sin (angle p) * (1 - mix) + sin noiseAngle * mix) *
               (radialKick cfg * fade) * (tBand * tBand * (3 - 2 * tBand)))
        with ((sin (angle p) * (1 - mix) + sin noiseAngle * mix) *
              radialKick cfg *
              (fade * (tBand * tBand * (3 - 2 * tBand)))) by ring.
      apply scaled_bound; [now apply blend_bound | assumption]. }
    set (fx := (cos (angle p) * (1 - mix) + cos noiseAngle * mix) *
               (radialKick cfg * fade) *
               (tBand * tBand * (3 - 2 * tBand))) in *.
    set (fy := (sin (angle p) * (1 - mix) + sin noiseAngle * mix) *
               (radialKick cfg * fade) *
               (tBand * tBand * (3 - 2 * tBand))) in *.
    destruct (isText p); cbv iota.
    + unfold bind, random, randRange, bind, random, ret.
      cbn [fst snd draws cursor].
      destruct (Rltb _ _); cbn [fst snd draws cursor].
      * destruct (Hd (S (cursor g))) as [D0 D1].
        set (extra := 0.4 + draws g (S (cursor g)) * (1.0 - 0.4)).
        assert (He : 0 <= extra <= 1) by (unfold extra; lra).
        assert (Ex : Rabs (cos (angle p) * extra) <= 1)
          by (apply Rabs_le; split; nra).
        assert (Ey : Rabs (sin (angle p) * extra) <= 1)
          by (apply Rabs_le; split; nra).
        replace (fst kick + fx + cos (angle p) * extra - fst kick)
          with (fx + cos (angle p) * extra) by ring.
        replace (snd kick + fy + sin (angle p) * extra - snd kick)
          with (fy + sin (angle p) * extra) by ring.
        pose proof (Rabs_triang fx (cos (angle p) * extra)).
        pose proof (Rabs_triang fy (sin (angle p) * extra)).
        split; lra.
      * replace (fst kick + fx - fst kick) with fx by ring.
        replace (snd kick + fy - snd kick) with fy by ring.
        split; lra.
    + unfold ret. cbn [fst snd].
      replace (fst kick + fx - fst kick) with fx by ring.
      replace (snd kick + fy - snd kick) with fy by ring.
      split; lra.
Qed.

Lemma wave_kick_is_bounded_witness :
  let r := waveKick defaultConfig 0 hiddenParticle (0, 0)
             {| wave_radius := 50 |} zeroDraws in
  let bound := Rabs (radialKick defaultConfig) +
               (if isText hiddenParticle then 1 else 0) in
  (waveThickness defaultConfig <=
     Rabs (dist hiddenParticle - wave_radius {| wave_radius := 50 |}) ->
   r = ((0, 0), zeroDraws)) /\
  Rabs (fst (fst r) - fst (0, 0)) <= bound /\
  Rabs (snd (fst r) - snd (0, 0)) <= bound.
Proof.
  apply (wave_kick_is_bounded defaultConfig 0 hiddenParticle (0, 0)
           {| wave_radius := 50 |} zeroDraws).
  - simpl. lra.
  - intros n. simpl. lra.
Defined.

(** ** What a tick keeps *)

Lemma Forall2_trans {A} (Q : A -> A -> Prop) :
  (forall a b c, Q a b -> Q b c -> Q a c) ->
  forall l1 l2 l3, Forall2 Q l1 l2 -> Forall2 Q l2 l3 -> Forall2 Q l1 l3.
Proof.
  intros Ht l1 l2 l3 H. revert l3.
  induction H as [|a b l1 l2 Hab H IH]; intros l3 H3;
    inversion H3; subst; constructor; eauto.
Qed.

Lemma Forall2_Forall {A} (Q : A -> A -> Prop) (P : A -> Prop) l l' :
  (forall a b, P a -> Q a b -> P b) ->
  Forall2 Q l l' -> Forall P l -> Forall P l'.
Proof.
  intros H F. induction F as [|a b l l' Hab F IH]; intros Hl;
    inversion Hl; subst; constructor; eauto.
Qed.

Lemma draw_ambient_spec cfg mouse rafTime e g :
  Forall2 sameAmbientStatics (ambientParticles e)
          (ambientParticles (fst (draw cfg mouse rafTime e g))).
Proof.
  destruct (draw_unfold cfg mouse rafTime e g) as (_ & -> & _).
  destruct (movedStore_resolveCollisions (particles e, ambientParticles e))
    as [_ Ha]. cbn [snd] in Ha.
  eapply Forall2_trans; [| |apply mapM_Forall2 with
    (Q := sameAmbientStatics)].
  - intros a b c (A1 & A2 & A3 & A4 & A5) (B1 & B2 & B3 & B4 & B5).
    unfold sameAmbientStatics. repeat split; congruence.
  - eapply Forall2_impl; [|exact Ha].
    intros a c [b ->]. unfold sameAmbientStatics. now repeat split.
  - intros a g0 _. unfold stepAmbient, bind, random, ret. cbn [fst].
    unfold sameAmbientStatics. now repeat split.
Qed.

(** X17.  A tick creates and destroys no object and writes only position,
    velocity and activation: the mask particles and the dust after it are
    as many as before, each with the home, jitter, polar coordinate, phase,
    kind, friction, mass and radius it had; the canvas size and the wave
    origin are as before. *)
Theorem tick_keeps_the_statics cfg mouse rafTime e g :
  let e' := fst (draw cfg mouse rafTime e g) in
  Forall2 sameStatics (particles e) (particles e') /\
  Forall2 sameAmbientStatics (ambientParticles e) (ambientParticles e') /\
  List.length (particles e') = List.length (particles e) /\
  List.length (ambientParticles e') = List.length (ambientParticles e) /\
  width e' = width e /\ height e' = height e /\
  waveOrigin e' = waveOrigin e.
Proof.
  cbv zeta.
  assert (Hp : Forall2 sameStatics (particles e)
                 (particles (fst (draw cfg mouse rafTime e g)))).
  { eapply Forall2_impl; [|apply draw_particles_spec].
    intros p q (b & kick & ->). unfold sameStatics. now repeat split. }
  pose proof (draw_ambient_spec cfg mouse rafTime e g) as Ha.
  split; [exact Hp|]. split; [exact Ha|].
  split; [symmetry; eapply Forall2_length; exact Hp|].
  split; [symmetry; eapply Forall2_length; exact Ha|].
  destruct (draw_unfold cfg mouse rafTime e g)
    as (_ & _ & _ & _ & _ & -> & -> & _).
  repeat split.
  unfold draw, bind. cbv beta zeta iota delta [ret].
  repeat match goal with |- context [mapM ?f ?l ?g0] =>
    destruct (mapM f l g0) as [? ?] end.
  reflexivity.
Qed.

(** ** The activation over a run *)

Lemma draw_activationOk cfg mouse rafTime e g :
  Forall activationOk (particles e) ->
  Forall activationOk (particles (fst (draw cfg mouse rafTime e g))).
Proof.
  intros H. eapply Forall2_Forall;
    [|apply (draw_particles_spec cfg mouse rafTime e g) | exact H].
  cbv beta. intros p q Hp Hq.
  destruct Hq as (b & kick & ->). destruct Hp as [[H0 H1] Hb].
  unfold activationOk. cbn [activation isText setActivation integrate].
  cbn [isText putParticle].
  destruct (reveal_bounds cfg (hd_error (frameWaves cfg rafTime e)) p H1)
    as (R1 & R2 & _).
  split; [lra|]. intros Hf. unfold reveal. rewrite Hf. now apply Hb.
Qed.

Lemma run_inv (P : Engine -> Prop) :
  (forall cfg mouse rafTime e g, P e -> P (fst (draw cfg mouse rafTime e g))) ->
  forall frames e g, P e -> P (fst (run frames e g)).
Proof.
  intros Hd. induction frames as [|f frames IH]; intros e g H.
  - exact H.
  - unfold run. cbn [foldM]. unfold bind, drawFrame at 1.
    pose proof (Hd (f_cfg f) (f_mouse f) (f_rafTime f) e g H) as H1.
    destruct (draw _ _ _ e g) as [e1 g1]. apply IH. exact H1.
Qed.

Lemma createMask_activationOk cfg word imgData w h g :
  Forall activationOk
    (particles (fst (createMask cfg word imgData (initEngine w h) g))).
Proof.
  eapply Forall_impl; [|apply createMask_particles].
  intros p (c & _ & H).
  destruct H as (_ & _ & _ & _ & _ & _ & _ & _ & _ & Ha & _).
  unfold activationOk. rewrite Ha. destruct (isText p).
  - split; [lra | discriminate].
  - split; [lra | reflexivity].
Qed.

(** X18.  From mask build on, through any run of frames, every activation
    is within [[0, 1]] and the activation of a background particle is 1. *)
Theorem activation_stays_in_range cfg word imgData w h g frames g' :
  let e0 := fst (createMask cfg word imgData (initEngine w h) g) in
  Forall activationOk (particles (fst (run frames e0 g'))).
Proof.
  cbv zeta.
  apply (run_inv (fun e => Forall activationOk (particles e))).
  - intros. now apply draw_activationOk.
  - apply createMask_activationOk.
Qed.

(** ** The reveal band *)

(** X19.  The reveal of a text particle in one tick, its activation being
    at most 1.  With [skipIntro] it is fully revealed.  Otherwise, against
    the oldest wave after the scheduler has run: fully revealed when its
    static distance is below the wave radius minus 40; left as it is when
    that distance is at least the radius plus 100, or when there is no
    wave; and in between raised to the linear ramp
    [1 - (dist - (radius - 40)) / 140] if that is more than it has. *)
Theorem reveal_follows_the_first_wave cfg mouse rafTime e g i p :
  nth_error (particles e) i = Some p ->
  isText p = true ->
  activation p <= 1 ->
  let e' := fst (draw cfg mouse rafTime e g) in
  exists q,
    nth_error (particles e') i = Some q /\
    (skipIntro cfg = true -> activation q = 1) /\
    (skipIntro cfg = false -> waves e' = [] ->
       activation q = activation p) /\
    (skipIntro cfg = false ->
     forall w ws, waves e' = w :: ws ->
       (dist p < wave_radius w - 40 -> activation q = 1) /\
       (wave_radius w + 100 <= dist p -> activation q = activation p) /\
       (wave_radius w - 40 <= dist p < wave_radius w + 100 ->
        activation q =
        Rmax (activation p) (1 - (dist p - (wave_radius w - 40)) / 140))).
Proof.
  intros E Ht Hle. cbv zeta.
  destruct (draw_activation cfg mouse rafTime e g i p E) as (q & Eq & _ & Ha).
  destruct (draw_unfold cfg mouse rafTime e g) as (_ & _ & Hw & _).
  exists q. split; [exact Eq|]. rewrite Ha, Hw. unfold reveal. rewrite Ht.
  split; [intros ->; reflexivity|]. split.
  - intros -> ->. reflexivity.
  - intros -> w ws ->. cbn [hd_error revealRadiusOf]. unfold revealWidth.
    destruct (Rltb (activation p) 1) eqn:E1.
    + split; [|split].
      * intros H. apply Rltb_true in H. now rewrite H.
      * intros H.
        replace (Rltb (dist p) (wave_radius w - 40)) with false
          by (symmetry; apply Rltb_false; lra).
        replace (Rltb (dist p) (wave_radius w - 40 + 140)) with false
          by (symmetry; apply Rltb_false; lra).
        reflexivity.
      * intros [H1 H2].
        replace (Rltb (dist p) (wave_radius w - 40)) with false
          by (symmetry; apply Rltb_false; lra).
        replace (Rltb (dist p) (wave_radius w - 40 + 140)) with true
          by (symmetry; apply Rltb_true; lra).
        reflexivity.
    + apply Rltb_false in E1. assert (Ea : activation p = 1) by lra.
      split; [|split]; intros H; try lra; try reflexivity.
      rewrite Ea. symmetry. apply Rmax_left.
      assert (0 <= (dist p - (wave_radius w - 40)) / 140).
      { apply Rmult_le_pos; lra. }
      lra.
Qed.

Lemma reveal_follows_the_first_wave_witness :
  let e' := fst (draw introConfig idleMouse 1000 introEngine zeroDraws) in
  exists q,
    nth_error (particles e') 0 = Some q /\
    (skipIntro introConfig = true -> activation q = 1) /\
    (skipIntro introConfig = false -> waves e' = [] ->
       activation q = activation hiddenParticle) /\
    (skipIntro introConfig = false ->
     forall w ws, waves e' = w :: ws ->
       (dist hiddenParticle < wave_radius w - 40 -> activation q = 1) /\
       (wave_radius w + 100 <= dist hiddenParticle ->
        activation q = activation hiddenParticle) /\
       (wave_radius w - 40 <= dist hiddenParticle < wave_radius w + 100 ->
        activation q =
        Rmax (activation hiddenParticle)
             (1 - (dist hiddenParticle - (wave_radius w - 40)) / 140))).
Proof.
  apply (reveal_follows_the_first_wave introConfig idleMouse 1000
           introEngine zeroDraws 0 hiddenParticle).
  - reflexivity.
  - reflexivity.
  - simpl. lra.
Defined.

(** ** A tick without disturbance *)

Lemma mapM_Forall2_state {A B} (I : Rng -> Prop) (Q : A -> B -> Prop)
    (f : A -> M B) (l : list A) :
  (forall a g, In a l -> I g -> Q a (fst (f a g)) /\ I (snd (f a g))) ->
  forall g, I g -> Forall2 Q l (fst (mapM f l g)) /\ I (snd (mapM f l g)).
Proof.
  induction l as [|a l IH]; intros Hf g Hg; simpl.
  - split; [constructor | exact Hg].
  - unfold bind. destruct (Hf a g (or_introl eq_refl) Hg) as [H1 H2].
    destruct (f a g) as [b g1]. cbn [fst snd] in H1, H2.
    destruct (IH (fun a g H => Hf a g (or_intror H)) g1 H2) as [I1 I2].
    destruct (mapM f l g1) as [bs g2]. cbn [fst snd] in *.
    split; [constructor; assumption | exact I2].
Qed.

Lemma stepParticle_draws cfg time ws act mlx mly p g :
  draws (snd (stepParticle cfg time ws act mlx mly p g)) = draws g.
Proof.
  unfold stepParticle, bind.
  pose proof (foldM_draws (waveKick cfg time p) ws
                (fun b a g => waveKick_draws cfg time p b a g) (0, 0) g) as H.
  destruct (foldM _ _ _ g) as [kick g1]. exact H.
Qed.

Lemma stepAmbient_draws cfg act mlx mly a g :
  draws (snd (stepAmbient cfg act mlx mly a g)) = draws g.
Proof. reflexivity. Qed.

Lemma integrate_atRest cfg p :
  atRest p ->
  let q := integrate cfg (0, 0) p in
  x q = x p /\ y q = y p /\ vx q = 0 /\ vy q = 0.
Proof.
  intros (Hx & Hy & Hvx & Hvy). unfold integrate. cbn.
  rewrite Hvx, Hvy.
  replace (baseX p + jitterX p - x p) with 0 by lra.
  replace (baseY p + jitterY p - y p) with 0 by lra.
  repeat split; ring.
Qed.

Lemma waveKicks_far cfg time p ws :
  (forall w, In w ws ->
     waveThickness cfg <= Rabs (dist p - wave_radius w)) ->
  forall kick g, foldM (waveKick cfg time p) ws kick g = (kick, g).
Proof.
  induction ws as [|w ws IH]; intros Hfar kick g; [reflexivity|].
  cbn [foldM]. unfold bind.
  assert (E : waveKick cfg time p kick w g = (kick, g)).
  { unfold waveKick. cbv zeta.
    replace (Rleb (waveThickness cfg) (Rabs (dist p - wave_radius w)))
      with true; [reflexivity|].
    symmetry. apply Rleb_true. apply Hfar. now left. }
  rewrite E. apply IH. intros; apply Hfar; now right.
Qed.

(** X20.  A mask particle at its target and at rest stays exactly there
    for a tick in which nothing disturbs it: the pointer is inactive, no
    two objects pass the overlap test, and no wave of the tick has the
    particle within its band.  The mass is positive, so that the spring
    acceleration is a number. *)
Theorem undisturbed_particle_stays_still cfg mouse rafTime e g i p :
  nth_error (particles e) i = Some p ->
  atRest p ->
  0 < mass p ->
  active mouse = false ->
  (forall j k p1 p2, j <> k ->
     readBody (particles e, ambientParticles e) j = Some p1 ->
     readBody (particles e, ambientParticles e) k = Some p2 ->
     ~ colliding p1 p2) ->
  (forall w, In w (frameWaves cfg rafTime e) ->
     waveThickness cfg <= Rabs (dist p - wave_radius w)) ->
  exists q,
    nth_error (particles (fst (draw cfg mouse rafTime e g))) i = Some q /\
    x q = x p /\ y q = y p /\ vx q = 0 /\ vy q = 0 /\ atRest q.
Proof.
  intros E Hrest _ Hm Hfree Hfar.
  destruct (draw_unfold cfg mouse rafTime e g) as (-> & _).
  rewrite (resolveCollisions_free _ Hfree), Hm. cbn [fst snd].
  set (f := stepParticle _ _ _ _ _ _).
  assert (H : Forall2
                (fun p q =>
                   atRest p ->
                   (forall w, In w (frameWaves cfg rafTime e) ->
                      waveThickness cfg <= Rabs (dist p - wave_radius w)) ->
                   x q = x p /\ y q = y p /\ vx q = 0 /\ vy q = 0 /\
                   atRest q)
                (particles e) (fst (mapM f (particles e) g))).
  { apply mapM_Forall2. intros a g0 _ Ha Hw. unfold f, stepParticle, bind.
    rewrite (waveKicks_far _ _ _ _ Hw). cbn [fst snd mouseKick ret].
    destruct (integrate_atRest cfg a Ha) as (Hx & Hy & Hvx & Hvy).
    destruct Ha as (Ax & Ay & _ & _).
    repeat split; try assumption.
    - cbn [x setActivation]. rewrite Hx. exact Ax.
    - cbn [y setActivation]. rewrite Hy. exact Ay. }
  destruct (Forall2_nth_error _ _ _ H i p E) as (q & Eq & Hq).
  exists q. split; [exact Eq|]. now apply Hq.
Qed.

(** X21.  The dust in a tick with the pointer inactive and no overlap:
    each velocity component is scaled by the particle's friction, and the
    particle moves by that velocity plus a drift of at most 0.05 px on each
    axis (draws in [[0, 1)]). *)
Theorem dust_drifts_without_pointer cfg mouse rafTime e g i a :
  nth_error (ambientParticles e) i = Some a ->
  active mouse = false ->
  unitDraws g ->
  (forall j k p1 p2, j <> k ->
     readBody (particles e, ambientParticles e) j = Some p1 ->
     readBody (particles e, ambientParticles e) k = Some p2 ->
     ~ colliding p1 p2) ->
  exists c,
    nth_error (ambientParticles (fst (draw cfg mouse rafTime e g))) i
      = Some c /\
    amb_vx c = amb_vx a * amb_friction a /\
    amb_vy c = amb_vy a * amb_friction a /\
    Rabs (amb_x c - (amb_x a + amb_vx c)) <= 0.05 /\
    Rabs (amb_y c - (amb_y a + amb_vy c)) <= 0.05.
Proof.
  intros E Hm Hd Hfree.
  destruct (draw_unfold cfg mouse rafTime e g) as (_ & -> & _).
  rewrite (resolveCollisions_free _ Hfree), Hm. cbn [fst snd].
  set (f := stepParticle _ _ _ _ _ _). set (h := stepAmbient _ _ _ _).
  assert (Hd1 : unitDraws (snd (mapM f (particles e) g))).
  { apply (mapM_Forall2_state unitDraws (fun _ _ => True) f (particles e));
      [|exact Hd].
    intros p g0 _ Hg0. split; [exact I|].
    eapply unitDraws_ext; [|exact Hg0]. unfold f. apply stepParticle_draws. }
  destruct (mapM_Forall2_state unitDraws
              (fun a c =>
                 amb_vx c = amb_vx a * amb_friction a /\
                 amb_vy c = amb_vy a * amb_friction a /\
                 Rabs (amb_x c - (amb_x a + amb_vx c)) <= 0.05 /\
                 Rabs (amb_y c - (amb_y a + amb_vy c)) <= 0.05)
              h (ambientParticles e)) with (g := snd (mapM f (particles e) g))
    as [H _]; [|exact Hd1|].
  - intros a0 g0 _ Hg0. split; [|exact Hg0].
    unfold h, stepAmbient, bind, random, ret.
    cbn [fst snd draws cursor andb amb_vx amb_vy amb_x amb_y].
    pose proof (Hg0 (cursor g0)) as H1. pose proof (Hg0 (S (cursor g0))) as H2.
    repeat split; try reflexivity; apply Rabs_le; lra.
  - destruct (Forall2_nth_error _ _ _ H i a E) as (c & Ec & Hc).
    exists c. split; [exact Ec | exact Hc].
Qed.

Lemma undisturbed_particle_stays_still_witness :
  exists q,
    nth_error
      (particles (fst (draw pausedConfig idleMouse 1016 introEngine
                         zeroDraws))) 0 = Some q /\
    x q = x hiddenParticle /\ y q = y hiddenParticle /\
    vx q = 0 /\ vy q = 0 /\ atRest q.
Proof.
  apply (undisturbed_particle_stays_still pausedConfig idleMouse 1016
           introEngine zeroDraws 0 hiddenParticle).
  - reflexivity.
  - unfold atRest. simpl. lra.
  - simpl. lra.
  - reflexivity.
  - apply lone_object_free. cbn. lia.
  - intros w H. destruct H.
Defined.

Lemma dust_drifts_without_pointer_witness :
  exists c,
    nth_error
      (ambientParticles (fst (draw defaultConfig idleMouse 1016 dustEngine
                                zeroDraws))) 0 = Some c /\
    amb_vx c = amb_vx dustParticle * amb_friction dustParticle /\
    amb_vy c = amb_vy dustParticle * amb_friction dustParticle /\
    Rabs (amb_x c - (amb_x dustParticle + amb_vx c)) <= 0.05 /\
    Rabs (amb_y c - (amb_y dustParticle + amb_vy c)) <= 0.05.
Proof.
  apply (dust_drifts_without_pointer defaultConfig idleMouse 1016 dustEngine
           zeroDraws 0 dustParticle).
  - reflexivity.
  - reflexivity.
  - intros n. simpl. lra.
  - apply lone_object_free. cbn. lia.
Defined.

(** ** One particle per grid cell at most *)

(** X22.  The mask has at most one particle for each visited pixel, in
    the order of the scan: the particles are made, one each, from a
    subsequence of the grid cells without repetition, so the mask is never
    larger than the grid. *)
Theorem one_particle_per_cell_at_most cfg word imgData w h g :
  let e0 := fst (createMask cfg word imgData (initEngine w h) g) in
  let b := scanBBox imgData w h in
  exists kept,
    subseq kept (gridCells w h) /\ NoDup kept /\
    Forall2 (spawnedAt imgData w (textCenterX w b) (textCenterY h b)
               (waveOrigin e0))
            kept (particles e0) /\
    (List.length (particles e0) <= List.length (gridCells w h))%nat.
Proof.
  cbv zeta.
  assert (Hempty : forall e : Engine,
            particles e = [] ->
            exists kept : list (nat * nat),
              subseq kept (gridCells w h) /\ NoDup kept /\
              Forall2 (spawnedAt imgData w
                         (textCenterX w (scanBBox imgData w h))
                         (textCenterY h (scanBBox imgData w h))
                         (waveOrigin e)) kept (particles e) /\
              (List.length (particles e) <=
               List.length (gridCells w h))%nat).
  { intros e ->. exists []. repeat split; try constructor; simpl; try lia.
    induction (gridCells w h); [constructor | now apply subseq_skip]. }
  destruct (Nat.eq_dec w 0) as [->|Hw];
    [apply Hempty; unfold createMask; reflexivity|].
  destruct (Nat.eq_dec h 0) as [->|Hh].
  { apply Hempty. unfold createMask. cbn [width height initEngine].
    rewrite Nat.eqb_refl, orb_true_r. reflexivity. }
  clear Hempty.
  destruct (createMask_unfold cfg word imgData (initEngine w h) g)
    as [-> _]; simpl; try lia.
  replace (waveOrigin (fst (createMask cfg word imgData (initEngine w h) g)))
    with (computeWaveOrigin word w h (scanBBox imgData w h)).
  2:{ unfold createMask. cbn [width height initEngine].
      destruct (Nat.eqb_spec w 0); [lia|]. destruct (Nat.eqb_spec h 0); [lia|].
      cbn [orb]. unfold bind.
      destruct (spawnGrid _ _ _ _ g) as [acc g1].
      destruct (topUp _ _ _ _ _ g1) as [amb g2]. reflexivity. }
  unfold spawnGrid. cbn [width height initEngine particles ambientParticles].
  destruct (spawnCells_subseq imgData w (approxAmbientTarget cfg)
              (textCenterX w (scanBBox imgData w h))
              (textCenterY h (scanBBox imgData w h))
              (computeWaveOrigin word w h (scanBBox imgData w h))
              (gridCells w h) [] ([], []) g) as (kept & Hs & Hf).
  { exists []. split; constructor. }
  cbn [app] in Hs. exists kept. split; [exact Hs|].
  split; [exact (subseq_NoDup _ _ Hs (gridCells_NoDup w h))|].
  split; [exact Hf|].
  rewrite <- (Forall2_length Hf). now apply subseq_length.
Qed.

(** ** What is painted *)

Lemma createMask_width cfg word imgData e g :
  width (fst (createMask cfg word imgData e g)) = width e.
Proof.
  unfold createMask. destruct (_ || _)%bool; [reflexivity|].
  unfold bind. destruct (spawnGrid _ _ _ _ g) as [acc g1].
  destruct (topUp _ _ _ _ _ g1) as [amb g2]. reflexivity.
Qed.

Lemma paintParticle_spec w p :
  (0 < w)%nat -> paintable p ->
  match paintParticle w p with
  | Some d =>
      disc_x d = x p /\ disc_y d = y p /\ disc_radius d = radius p /\
      (if isText p
       then disc_alpha d = activation p /\ 0.01 < disc_alpha d <= 1
       else dist p < 0.8 * INR w /\ 0 < disc_alpha d <= BG_BASE_ALPHA)
  | None =>
      if isText p then activation p <= 0.01 else 0.8 * INR w <= dist p
  end.
Proof.
  intros Hw [[Ha _] Hd]. unfold paintParticle.
  assert (Hw' : 0 < INR w * 0.8).
  { apply lt_0_INR in Hw. lra. }
  destruct (isText p).
  - destruct (Rltb 0.01 (activation p)) eqn:E.
    + apply Rltb_true in E. cbn. unfold TEXT_BASE_ALPHA.
      repeat split; try reflexivity; lra.
    + apply Rltb_false in E. exact E.
  - cbv zeta. set (ratio := dist p / (INR w * 0.8)).
    assert (Hr : 0 <= ratio).
    { unfold ratio. apply Rmult_le_pos; [exact Hd|].
      left. now apply Rinv_0_lt_compat. }
    assert (Hdr : dist p = ratio * (INR w * 0.8)).
    { unfold ratio. field. lra. }
    unfold BG_BASE_ALPHA.
    destruct (Rltb 0 (0.32 * (1 - ratio))) eqn:E.
    + apply Rltb_true in E. cbn. rewrite Rmax_right by lra.
      repeat split; try reflexivity; try lra. nra.
    + apply Rltb_false in E. nra.
Qed.

Lemma draw_paintable cfg mouse rafTime e g :
  Forall paintable (particles e) ->
  Forall paintable (particles (fst (draw cfg mouse rafTime e g))).
Proof.
  intros H. unfold paintable in *. apply Forall_and.
  - apply draw_activationOk. eapply Forall_impl; [|exact H]. now intros p [].
  - eapply Forall2_Forall with (P := fun p => 0 <= dist p);
      [|apply (draw_keeps_polar cfg mouse rafTime e g)|].
    + cbv beta. intros p q Hp [-> _]. exact Hp.
    + eapply Forall_impl; [|exact H]. now intros p [].
Qed.

(** X23.  What a frame paints for the mask, on a canvas of positive width,
    in any run from mask build: a text particle is painted exactly when its
    activation is above 0.01, with that activation as alpha (so at most 1);
    a background particle exactly when its static distance is below 0.8
    times the width, with an alpha in (0, 0.32]; and every painted disc is
    at the particle's position with its radius. *)
Theorem painted_alpha_in_range cfg word imgData w h g frames g' :
  (0 < w)%nat ->
  let e0 := fst (createMask cfg word imgData (initEngine w h) g) in
  let e := fst (run frames e0 g') in
  Forall (fun p =>
            match paintParticle (width e) p with
            | Some d =>
                disc_x d = x p /\ disc_y d = y p /\
                disc_radius d = radius p /\
                (if isText p
                 then disc_alpha d = activation p /\ 0.01 < disc_alpha d <= 1
                 else dist p < 0.8 * INR (width e) /\
                      0 < disc_alpha d <= BG_BASE_ALPHA)
            | None =>
                if isText p then activation p <= 0.01
                else 0.8 * INR (width e) <= dist p
            end)
         (particles e).
Proof.
  intros Hw. cbv zeta.
  assert (H : width (fst (run frames
                 (fst (createMask cfg word imgData (initEngine w h) g)) g'))
              = w /\
              Forall paintable (particles (fst (run frames
                 (fst (createMask cfg word imgData (initEngine w h) g)) g')))).
  { apply (run_inv (fun e => width e = w /\ Forall paintable (particles e))).
    - intros cfg0 mouse rafTime e0 g0 [E H]. split.
      + destruct (draw_unfold cfg0 mouse rafTime e0 g0)
          as (_ & _ & _ & _ & _ & -> & _). exact E.
      + now apply draw_paintable.
    - split; [apply createMask_width|].
      apply Forall_and; [apply createMask_activationOk|].
      eapply Forall_impl; [|apply createMask_particles].
      intros p (c & _ & S).
      destruct S as (_ & _ & _ & _ & _ & _ & -> & _). apply hypot_nonneg. }
  destruct H as [-> H]. eapply Forall_impl; [|exact H].
  intros p Hp. now apply paintParticle_spec.
Qed.

Lemma painted_alpha_in_range_witness :
  let e0 := fst (createMask defaultConfig "A" blankImage (initEngine 6 3)
                   zeroDraws) in
  let e := fst (run (quietFrames 2) e0 zeroDraws) in
  Forall (fun p =>
            match paintParticle (width e) p with
            | Some d =>
                disc_x d = x p /\ disc_y d = y p /\
                disc_radius d = radius p /\
                (if isText p
                 then disc_alpha d = activation p /\ 0.01 < disc_alpha d <= 1
                 else dist p < 0.8 * INR (width e) /\
                      0 < disc_alpha d <= BG_BASE_ALPHA)
            | None =>
                if isText p then activation p <= 0.01
                else 0.8 * INR (width e) <= dist p
            end)
         (particles e).
Proof.
  apply (painted_alpha_in_range defaultConfig "A" blankImage 6 3 zeroDraws
           (quietFrames 2) zeroDraws).
  lia.
Defined.

(** ** The wave origin *)

Lemma safeWord_length word : (1 <= String.length (safeWord word))%nat.
Proof. destruct word; simpl; lia. Qed.

(** X24.  When the pixel array has text, the waves start inside the left
    half of the text's bounding box, at the height of the text centre:
    the origin is to the right of the left edge by half an estimated letter
    width, which is at most half the box width (taken as at least 1); for a
    word of one character and a box at least 1 wide it is the text
    centre. *)
Theorem wave_origin_in_first_letter cfg word imgData w h g bb :
  (0 < w)%nat -> (0 < h)%nat ->
  scanBBox imgData w h = Some bb ->
  let e0 := fst (createMask cfg word imgData (initEngine w h) g) in
  let boxWidth := Rmax 1 (INR (maxX bb) - INR (minX bb)) in
  INR (minX bb) < fst (waveOrigin e0) <= INR (minX bb) + boxWidth / 2 /\
  snd (waveOrigin e0) = (INR (minY bb) + INR (maxY bb)) / 2 /\
  (String.length word = 1%nat ->
   1 <= INR (maxX bb) - INR (minX bb) ->
   fst (waveOrigin e0) = textCenterX w (Some bb)).
Proof.
  intros Hw Hh E. cbv zeta.
  rewrite (createMask_waveOrigin cfg word imgData w h g Hw Hh), E.
  unfold computeWaveOrigin, totalWidth. cbn [fst snd textCenterX textCenterY].
  set (bw := Rmax 1 (INR (maxX bb) - INR (minX bb))).
  set (n := Rmax 1 (INR (String.length (safeWord word)))).
  assert (Hbw : 1 <= bw) by apply Rmax_l.
  assert (Hn : 1 <= n) by apply Rmax_l.
  assert (Hq : 0 < bw / n <= bw).
  { split.
    - apply Rdiv_lt_0_compat; lra.
    - apply (Rmult_le_reg_r n); [lra|].
      replace (bw / n * n) with bw by (field; lra).
      assert (0 <= bw * (n - 1)) by (apply Rmult_le_pos; lra). lra. }
  split; [lra|]. split; [reflexivity|].
  intros Hl Hb. unfold n, bw.
  assert (Es : safeWord word = word) by (destruct word; [discriminate | reflexivity]).
  rewrite Es, Hl. cbn [INR].
  rewrite (Rmax_left 1 1) by lra.
  rewrite (Rmax_right 1 (INR (maxX bb) - INR (minX bb))) by lra. lra.
Qed.

Lemma wave_origin_in_first_letter_witness :
  let bb := {| minX := 0; maxX := 3; minY := 0; maxY := 0 |} in
  let e0 := fst (createMask defaultConfig "A" solidImage (initEngine 6 3)
                   zeroDraws) in
  let boxWidth := Rmax 1 (INR (maxX bb) - INR (minX bb)) in
  INR (minX bb) < fst (waveOrigin e0) <= INR (minX bb) + boxWidth / 2 /\
  snd (waveOrigin e0) = (INR (minY bb) + INR (maxY bb)) / 2 /\
  (String.length "A" = 1%nat ->
   1 <= INR (maxX bb) - INR (minX bb) ->
   fst (waveOrigin e0) = textCenterX 6 (Some bb)).
Proof.
  apply (wave_origin_in_first_letter defaultConfig "A" solidImage 6 3
           zeroDraws {| minX := 0; maxX := 3; minY := 0; maxY := 0 |}).
  - lia.
  - lia.
  - reflexivity.
Defined.

(** ** The pointer in scene coordinates *)

Lemma zoomOf_range cfg time : 1 <= zoomOf cfg time <= 3.
Proof.
  unfold zoomOf. destruct (skipIntro cfg); [lra|]. cbv zeta.
  assert (Hr : 0 <= clamp (time / ANIMATION_DURATION) 0 1 <= 1)
    by (apply clamp_range; lra).
  destruct Hr as [H0 H1]. destruct easeOutCubic_ends as [E0 E1].
  pose proof (easeOutCubic_monotone _ _ H0) as M0.
  pose proof (easeOutCubic_monotone _ _ H1) as M1.
  unfold ZOOM_START, ZOOM_END. lra.
Qed.

(** X25.  The pointer position used by the forces is the inverse image of
    the pointer under the canvas transform of the frame (translate to the
    centre, scale by the zoom): scaling it by the zoom and translating it
    back gives the pointer position, for every configuration and time,
    the zoom being at least 1. *)
Theorem pointer_maps_back_to_canvas cfg mouse rafTime e :
  let zoom := zoomOf cfg (frameTime cfg rafTime e) in
  let ml := mouseLocal cfg mouse rafTime e in
  1 <= zoom <= 3 /\
  fst ml * zoom + INR (width e) / 2 = mouse_x mouse /\
  snd ml * zoom + INR (height e) / 2 = mouse_y mouse /\
  (skipIntro cfg = true ->
   ml = (mouse_x mouse - INR (width e) / 2,
         mouse_y mouse - INR (height e) / 2)).
Proof.
  cbv zeta. pose proof (zoomOf_range cfg (frameTime cfg rafTime e)) as Hz.
  split; [exact Hz|]. unfold mouseLocal. cbn [fst snd].
  split; [field; lra|]. split; [field; lra|].
  intros Hs. unfold zoomOf. rewrite Hs. f_equal; field.
Qed.
